(** * Data Science Jobs dashboard (app_02.py): the data pipeline

    The script loads a CSV of job postings into a pandas DataFrame,
    derives three salary columns from the text column [Salary Estimate],
    drops the rows that miss a critical field, filters by the sidebar
    widgets, and shows summary metrics, top-N counts and a paginated table.

    Modelling conventions.
    - A DataFrame is the list of its rows, in row order; a column is the
      list of the cells of that field.
    - A text cell is [option string]: [None] is pandas' missing value.
    - A float64 cell is [option Qc]: [None] is NaN, [Some q] a number,
      and arithmetic on numbers is exact rational arithmetic. Where a
      property depends on the rounding of IEEE doubles, the salary
      columns are also given in binary64 ([F64], over the Standard
      Library's [SpecFloat]): the two models have NaN in the same cells
      and the same numbers as long as 125 times the number read stays
      below [2^53].
    - Python [str] is modelled by [string] (8-bit characters); [\d] is the
      class of the ASCII digits. *)

From Stdlib Require Import List String Ascii Bool Arith ZArith QArith Qcanon Lia.
From Stdlib Require Import Sorting.Sorted Sorting.Permutation.
From Stdlib Require Import Qround SpecFloat.
Import ListNotations.

Local Open Scope string_scope.
Local Open Scope list_scope.

(** ** float64 cells *)

Definition float64 := option Qc.
Definition NaN : float64 := None.

Definition Qc_of_Z (z : Z) : Qc := Q2Qc (inject_Z z).

(** [x + y] on cells: NaN if an operand is NaN. *)
Definition fadd (x y : float64) : float64 :=
  match x, y with
  | Some a, Some b => Some (a + b)%Qc
  | _, _ => NaN
  end.

(** [x * k] and [x / k] for a numeric literal [k], in exact arithmetic
    ([F64.mul] and [F64.div] below are the rounded operations). *)
Definition fmul (x : float64) (k : Qc) : float64 :=
  match x with
  | Some a => Some (a * k)%Qc
  | None => NaN
  end.

Definition fdiv (x : float64) (k : Qc) : float64 :=
  match x with
  | Some a => Some (a / k)%Qc
  | None => NaN
  end.

(** [x >= m] on a cell: a comparison with NaN is False. *)
Definition Qc_leb (a b : Qc) : bool := Qle_bool a b.

Definition fge (x : float64) (m : Qc) : bool :=
  match x with
  | Some a => Qc_leb m a
  | None => false
  end.

(** ** Regular expressions: the fragment used by the two patterns

    A backtracking matcher in the style of Python's [re]: [run r s] lists
    the ways [r] matches a prefix of [s], in the order the engine tries
    them (a greedy [+] tries the longest repetition first). Each way is
    the text consumed, the groups captured so far, and the remaining text. *)

Module Re.

Inductive cls : Type :=
| Lit (c : ascii)      (* a literal character, escaped or not *)
| Digit.               (* \d *)

Inductive regex : Type :=
| Atom (a : cls)
| Plus (a : cls)                (* a+, greedy *)
| Group (r : regex)             (* ( r ), capturing *)
| Cat (r1 r2 : regex).

Definition is_digit (c : ascii) : bool :=
  let n := nat_of_ascii c in (48 <=? n)%nat && (n <=? 57)%nat.

Definition accepts (a : cls) (c : ascii) : bool :=
  match a with
  | Lit x => Ascii.eqb x c
  | Digit => is_digit c
  end.

(** The non-empty prefixes of [s] made of accepted characters, longest
    first, each with what follows it. *)
Fixpoint plus_runs (a : cls) (s : string) : list (string * string) :=
  match s with
  | String c s' =>
      if accepts a c
      then map (fun kr => (String c (fst kr), snd kr)) (plus_runs a s')
             ++ [(String c "", s')]
      else []
  | "" => []
  end.

Definition way : Type := string * list string * string.

Fixpoint run (r : regex) (s : string) : list way :=
  match r with
  | Atom a =>
      match s with
      | String c s' => if accepts a c then [(String c "", [], s')] else []
      | "" => []
      end
  | Plus a => map (fun kr => (fst kr, [], snd kr)) (plus_runs a s)
  | Group r1 =>
      map (fun w : way => let '(k, gs, rest) := w in (k, k :: gs, rest)) (run r1 s)
  | Cat r1 r2 =>
      flat_map (fun w1 : way =>
                  let '(k1, g1, rest1) := w1 in
                  map (fun w2 : way =>
                         let '(k2, g2, rest2) := w2 in ((k1 ++ k2)%string, g1 ++ g2, rest2))
                      (run r2 rest1))
               (run r1 s)
  end.

(** [re.search]: the first way at the leftmost position that has one. *)
Fixpoint search (r : regex) (s : string) : option (list string) :=
  match run r s with
  | (_, gs, _) :: _ => Some gs
  | [] =>
      match s with
      | String _ s' => search r s'
      | "" => None
      end
  end.

End Re.

(** [Series.str.extract(pat)], column [i] of the resulting frame: group
    [i+1] of the first match, missing when the cell is missing or the
    pattern does not match. *)
Definition str_extract (pat : Re.regex) (i : nat) (cell : option string)
  : option string :=
  match cell with
  | Some s =>
      match Re.search pat s with
      | Some gs => nth_error gs i
      | None => None
      end
  | None => None
  end.

(** The two patterns of the preprocessing step: ['(\d+)'] and
    [r'\$(\d+)K-\$(\d+)K']. *)
Definition pat_number : Re.regex := Re.Group (Re.Plus Re.Digit).

Definition pat_range : Re.regex :=
  Re.Cat (Re.Atom (Re.Lit "$"))
    (Re.Cat (Re.Group (Re.Plus Re.Digit))
       (Re.Cat (Re.Atom (Re.Lit "K"))
          (Re.Cat (Re.Atom (Re.Lit "-"))
             (Re.Cat (Re.Atom (Re.Lit "$"))
                (Re.Cat (Re.Group (Re.Plus Re.Digit))
                   (Re.Atom (Re.Lit "K"))))))).

(** [astype(float)] on an extracted cell. The cells it receives are runs
    of digits; their value is read in base ten. This is the exact
    reading; [astype_float64] below rounds it to a double. *)
Definition digit_value (c : ascii) : Z := Z.of_nat (nat_of_ascii c) - 48.

Fixpoint int_of_digits_from (acc : Z) (s : string) : Z :=
  match s with
  | String c s' => int_of_digits_from (10 * acc + digit_value c) s'
  | "" => acc
  end.

Definition int_of_digits (s : string) : Z := int_of_digits_from 0 s.

Definition astype_float (cell : option string) : float64 :=
  match cell with
  | Some ds => Some (Qc_of_Z (int_of_digits ds))
  | None => NaN
  end.

(** ** Rows *)

(** A row as read from the CSV (the columns the script uses). *)
Record RawRow : Type := {
  raw_Job_Title : option string;
  raw_Company_Name : option string;
  raw_Location : option string;
  raw_Salary_Estimate : option string;
  raw_Rating : float64;
  raw_Sector : option string;
  raw_Size : option string;
  raw_Revenue : option string
}.

(** A row after the three salary columns were added. *)
Record Row : Type := {
  Job_Title : option string;
  Company_Name : option string;
  Location : option string;
  Salary_Estimate : option string;
  Rating : float64;
  Sector : option string;
  Size : option string;
  Revenue : option string;
  Salary_Min : float64;
  Salary_Max : float64;
  Avg_Salary : float64
}.

Definition thousand : Qc := Qc_of_Z 1000.
Definition two : Qc := Qc_of_Z 2.

(** Lines 62-64, cell by cell. *)
Definition salary_min (est : option string) : float64 :=
  fmul (astype_float (str_extract pat_number 0 est)) thousand.

Definition salary_max (est : option string) : float64 :=
  fmul (astype_float (str_extract pat_range 1 est)) thousand.

Definition avg_salary (est : option string) : float64 :=
  fdiv (fadd (salary_min est) (salary_max est)) two.

Definition add_salary_columns (r : RawRow) : Row :=
  {| Job_Title := raw_Job_Title r;
     Company_Name := raw_Company_Name r;
     Location := raw_Location r;
     Salary_Estimate := raw_Salary_Estimate r;
     Rating := raw_Rating r;
     Sector := raw_Sector r;
     Size := raw_Size r;
     Revenue := raw_Revenue r;
     Salary_Min := salary_min (raw_Salary_Estimate r);
     Salary_Max := salary_max (raw_Salary_Estimate r);
     Avg_Salary := avg_salary (raw_Salary_Estimate r) |}.

Definition DataFrame : Type := list Row.

Definition preprocess (df : list RawRow) : DataFrame := map add_salary_columns df.

(** ** The salary columns in IEEE 754 binary64

    [astype(float)] rounds the integer it reads to the nearest double,
    [* 1000], [+] and [/ 2] round their results, and a result beyond the
    largest double is infinity. Where a value depends on it, the cell is a
    [spec_float] of the Standard Library's specification of IEEE 754,
    with 53 bits of precision, and the operations are those of that
    specification (round to nearest, ties to even). *)
Module F64.

Definition prec : Z := 53.
Definition emax : Z := 1024.

(** The double nearest to an integer. *)
Definition of_Z (z : Z) : spec_float := binary_normalize prec emax z 0 false.

Definition mul : spec_float -> spec_float -> spec_float := SFmul prec emax.
Definition add : spec_float -> spec_float -> spec_float := SFadd prec emax.
Definition div : spec_float -> spec_float -> spec_float := SFdiv prec emax.

(** The number a double stands for; none for NaN and the infinities. *)
Definition value (x : spec_float) : option Qc :=
  match x with
  | S754_zero _ => Some 0%Qc
  | S754_finite s m e =>
      let n := if s then Zneg m else Zpos m in
      Some (Q2Qc (match e with
                  | Zneg k => n # Pos.pow 2 k
                  | _ => inject_Z (n * 2 ^ e)
                  end))
  | _ => None
  end.

(** NaN, or a number that is not negative (plus infinity included). *)
Definition not_negative (x : spec_float) : Prop :=
  match x with
  | S754_zero s | S754_infinity s | S754_finite s _ _ => s = false
  | S754_nan => True
  end.

End F64.

(** [astype(float)] on an extracted run of digits: the double nearest to
    the integer written, as [float(str)] gives it; infinity when the
    integer is beyond the doubles. *)
Definition astype_float64 (cell : option string) : spec_float :=
  match cell with
  | Some ds => F64.of_Z (int_of_digits ds)
  | None => S754_nan
  end.

(** Lines 62-64 in float64. *)
Definition Salary_Min_float64 (est : option string) : spec_float :=
  F64.mul (astype_float64 (str_extract pat_number 0 est)) (F64.of_Z 1000).

Definition Salary_Max_float64 (est : option string) : spec_float :=
  F64.mul (astype_float64 (str_extract pat_range 1 est)) (F64.of_Z 1000).

Definition Avg_Salary_float64 (est : option string) : spec_float :=
  F64.div (F64.add (Salary_Min_float64 est) (Salary_Max_float64 est)) (F64.of_Z 2).

(** A mantissa under way that is not negative. *)
Definition shr_nonneg (mrs : shr_record) : Prop := (0 <= shr_m mrs)%Z.

(** [p] followed by [k] zero bits. *)
Definition shl (p : positive) (k : nat) : positive := Nat.iter k xO p.

(** A run of [n] zeros. *)
Fixpoint zeros (n : nat) : string :=
  match n with
  | O => ""
  | S k => String "0" (zeros k)
  end.


(** ** Cleaning: [df.dropna(subset=['Job Title', 'Sector', 'Rating'])] *)

Definition notna {A : Type} (cell : option A) : bool :=
  match cell with
  | Some _ => true
  | None => false
  end.

Definition isna {A : Type} (cell : option A) : bool := negb (notna cell).

Definition has_critical (r : Row) : bool :=
  notna (Job_Title r) && notna (Sector r) && notna (Rating r).

Definition dropna_critical (df : DataFrame) : DataFrame := filter has_critical df.

Definition df_clean (df : list RawRow) : DataFrame := dropna_critical (preprocess df).

(** ** Filtering (lines 92-96) *)

(** [Series.isin(values)]: a missing cell is in no list of strings. *)
Definition isin (cell : option string) (values : list string) : bool :=
  match cell with
  | Some s => existsb (String.eqb s) values
  | None => false
  end.

Definition keep (selected_sectors selected_sizes : list string) (min_rating : Qc)
    (r : Row) : bool :=
  isin (Sector r) selected_sectors
  && isin (Size r) selected_sizes
  && fge (Rating r) min_rating.

Definition filtered_df (clean : DataFrame)
    (selected_sectors selected_sizes : list string) (min_rating : Qc) : DataFrame :=
  filter (keep selected_sectors selected_sizes min_rating) clean.

(** ** Summary metrics (lines 100-115) *)

Definition column {A : Type} (f : Row -> A) (df : DataFrame) : list A := map f df.

(** [Series.mean()], as pandas' nanmean computes it: the NaN cells are
    masked, the sum runs over the column with the masked cells replaced by
    zero, the count is the number of cells that are not masked, and the
    mean is their quotient, NaN when the count is zero. *)
Definition fillna0 (x : float64) : Qc :=
  match x with
  | Some a => a
  | None => 0%Qc
  end.

Definition Qc_sum (l : list Qc) : Qc := fold_right Qcplus 0%Qc l.

Definition count_notna (col : list float64) : nat := List.length (filter notna col).

Definition mean (col : list float64) : float64 :=
  let count := count_notna col in
  let the_sum := Qc_sum (map fillna0 col) in
  if (count =? 0)%nat then NaN
  else Some (the_sum / Qc_of_Z (Z.of_nat count))%Qc.

(** The cells of a column that are present, in order. *)
Fixpoint dropna {A : Type} (col : list (option A)) : list A :=
  match col with
  | [] => []
  | Some a :: t => a :: dropna t
  | None :: t => dropna t
  end.

(** [unique()]: the distinct values in order of first appearance. *)
Fixpoint unique_from (seen : list string) (l : list string) : list string :=
  match l with
  | [] => []
  | x :: t =>
      if existsb (String.eqb x) seen then unique_from seen t
      else x :: unique_from (x :: seen) t
  end.

Definition unique (l : list string) : list string := unique_from [] l.

Definition nunique (col : list (option string)) : nat :=
  List.length (unique (dropna col)).

Record Summary : Type := {
  total_jobs : nat;
  avg_rating : float64;
  mean_avg_salary : float64;
  unique_companies : nat
}.

Definition summary_metrics (view : DataFrame) : Summary :=
  {| total_jobs := List.length view;
     avg_rating := mean (column Rating view);
     mean_avg_salary := mean (column Avg_Salary view);
     unique_companies := nunique (column Company_Name view) |}.

(** ** Top-N counts: [value_counts().head(n)] (lines 127, 149) *)

(** The counting table of [value_counts]: one entry per distinct value,
    in order of first appearance. *)
Fixpoint bump (k : string) (tbl : list (string * nat)) : list (string * nat) :=
  match tbl with
  | [] => [(k, 1%nat)]
  | (k', n) :: t =>
      if String.eqb k k' then (k', S n) :: t else (k', n) :: bump k t
  end.

Definition count_cell (tbl : list (string * nat)) (cell : option string)
  : list (string * nat) :=
  match cell with
  | Some k => bump k tbl
  | None => tbl                (* dropna=True *)
  end.

Definition value_counts_arraylike (col : list (option string)) : list (string * nat) :=
  fold_left count_cell col [].

(** [sort_values(ascending=False)] as pandas does it: the values are
    reversed, handed to numpy's sort, which returns them in ascending
    order, and the outcome is reversed. The sort itself is numpy's; it is
    the parameter [argsort] of what follows, [stable_argsort] below in
    [value_counts]. *)
Section ValueCounts.

Variable argsort : list (string * nat) -> list (string * nat).

Definition sort_values_desc (l : list (string * nat)) : list (string * nat) :=
  rev (argsort (rev l)).

Definition value_counts (col : list (option string)) : list (string * nat) :=
  sort_values_desc (value_counts_arraylike col).

Definition head {A : Type} (n : nat) (l : list A) : list A := firstn n l.

Definition top_n_by_count (col : list (option string)) (n : nat)
  : list (string * nat) :=
  head n (value_counts col).

Definition job_counts (view : DataFrame) : list (string * nat) :=
  top_n_by_count (column Job_Title view) 10.

Definition sector_counts (view : DataFrame) : list (string * nat) :=
  top_n_by_count (column Sector view) 8.

End ValueCounts.

(** A sort that is stable: insertion sort on the counts. *)
Definition count_leb (x y : string * nat) : bool := (snd x <=? snd y)%nat.

Fixpoint insert_by_count (x : string * nat) (l : list (string * nat))
  : list (string * nat) :=
  match l with
  | [] => [x]
  | y :: t => if count_leb x y then x :: y :: t else y :: insert_by_count x t
  end.

Fixpoint insertion_sort (l : list (string * nat)) : list (string * nat) :=
  match l with
  | [] => []
  | x :: t => insert_by_count x (insertion_sort t)
  end.

(** The sort of the counts in [value_counts]: pandas sorts them with a
    stable sort, so that values that occur equally often stay in the
    order of the counting table. A stable sort is determined by what it
    sorts (two stable sorts of one table agree); it is written here as
    the insertion sort. *)
Definition stable_argsort : list (string * nat) -> list (string * nat) :=
  insertion_sort.

Definition cell_is (v : string) (cell : option string) : bool :=
  match cell with
  | Some x => String.eqb x v
  | None => false
  end.

(** ** The table and its pages (lines 193-230) *)

(** The restriction of a row to the display columns. *)
Definition display_columns (r : Row) : RawRow :=
  {| raw_Job_Title := Job_Title r;
     raw_Company_Name := Company_Name r;
     raw_Location := Location r;
     raw_Salary_Estimate := Salary_Estimate r;
     raw_Rating := Rating r;
     raw_Sector := Sector r;
     raw_Size := Size r;
     raw_Revenue := Revenue r |}.

(** [len // page_size + (1 if len % page_size != 0 else 0)]; Python raises
    ZeroDivisionError on a zero divisor, here [None]. Python's [//] and
    [%] round to minus infinity, as [Z.div] and [Z.modulo] do. *)
Definition total_pages (len page_size : Z) : option Z :=
  if (page_size =? 0)%Z then None
  else Some (len / page_size + (if (len mod page_size =? 0)%Z then 0 else 1))%Z.

(** A bound of a Python slice, resolved against the length. *)
Definition slice_bound (len i : Z) : Z :=
  if (i <? 0)%Z then Z.max (i + len) 0 else Z.min i len.

(** [iloc[start:stop]] *)
Definition iloc_slice {A : Type} (start stop : Z) (l : list A) : list A :=
  let len := Z.of_nat (List.length l) in
  let a := slice_bound len start in
  let b := slice_bound len stop in
  firstn (Z.to_nat (b - a)) (skipn (Z.to_nat a) l).

Definition paginate {A : Type} (view : list A) (page_size page_number : Z) : list A :=
  let start_idx := ((page_number - 1) * page_size)%Z in
  let end_idx := (start_idx + page_size)%Z in
  iloc_slice start_idx end_idx view.

Definition table_page (view : DataFrame) (page_size page_number : Z) : list RawRow :=
  paginate (map display_columns view) page_size page_number.

(** ** The CSV export (lines 193-204) and reading it back

    [filtered_df[available_columns].to_csv(index=False)] writes a header
    line and one line per record with Python's [csv] writer: fields
    separated by commas; a field put between double quotes when it holds
    a comma, a double quote or a character of the line terminator, a
    double quote inside it written twice; a line ends with the
    terminator, for which pandas passes the line feed; a missing cell is
    written as the empty field and no index column is written. The
    carriage return is no character of that terminator: by itself it
    does not put a field between quotes. *)

Definition quote_char : ascii := "034".
Definition line_feed : ascii := "010".
Definition carriage_return : ascii := "013".
Definition delimiter : ascii := ",".

Definition special (c : ascii) : bool :=
  Ascii.eqb c delimiter || Ascii.eqb c quote_char || Ascii.eqb c line_feed.

Fixpoint needs_quote (s : string) : bool :=
  match s with
  | "" => false
  | String c s' => special c || needs_quote s'
  end.

Fixpoint escape (s : string) : string :=
  match s with
  | "" => ""
  | String c s' =>
      if Ascii.eqb c quote_char
      then String quote_char (String quote_char (escape s'))
      else String c (escape s')
  end.

Definition csv_field (s : string) : string :=
  if needs_quote s
  then String quote_char (escape s ++ String quote_char "")
  else s.

(** (A record of one empty field is written as two double quotes; the
    records of the export have six fields or more.) *)
Fixpoint csv_fields (fields : list string) : string :=
  match fields with
  | [] => ""
  | [f] => csv_field f
  | f :: fs => (csv_field f ++ String delimiter (csv_fields fs))%string
  end.

Definition csv_line (fields : list string) : string :=
  (csv_fields fields ++ String line_feed "")%string.

Fixpoint csv_lines (rows : list (list string)) : string :=
  match rows with
  | [] => ""
  | r :: t => (csv_line r ++ csv_lines t)%string
  end.

(** Line 193: the names of the columns to show. (The script calls this
    list [display_columns]; here that name is the restriction of a row
    to these columns.) *)
Definition display_column_names : list string :=
  ["Job Title"; "Company Name"; "Location"; "Salary Estimate";
   "Rating"; "Sector"; "Size"; "Revenue"].

(** Line 197: [[col for col in display_columns if col in filtered_df.columns]],
    for a frame whose columns are [columns]. *)
Definition available_columns (columns : list string) : list string :=
  filter (fun col => existsb (String.eqb col) columns) display_column_names.

(** The columns the script reads before it reaches the export (lines
    62-115): on a frame that lacks one of them it stops with a KeyError. *)
Definition required_columns : list string :=
  ["Salary Estimate"; "Job Title"; "Sector"; "Rating"; "Size"; "Company Name"].

(** The cell of a row under a column name: a text, but for [Rating]. A
    column that the frame lacks is never asked for. *)
Definition is_float_column (name : string) : bool := String.eqb name "Rating".

Definition text_at (name : string) (r : RawRow) : option string :=
  if String.eqb name "Job Title" then raw_Job_Title r
  else if String.eqb name "Company Name" then raw_Company_Name r
  else if String.eqb name "Location" then raw_Location r
  else if String.eqb name "Salary Estimate" then raw_Salary_Estimate r
  else if String.eqb name "Sector" then raw_Sector r
  else if String.eqb name "Size" then raw_Size r
  else if String.eqb name "Revenue" then raw_Revenue r
  else None.

Definition text_field (cell : option string) : string :=
  match cell with
  | Some s => s
  | None => ""
  end.

(** What pandas does with the text of a field, and how it prints a
    float64: the markers it reads as a missing value, the texts it reads
    as a number or as a truth value, and the text it writes for a number. *)
Record Conversions : Type := {
  na_values : list string;
  to_number : string -> option Qc;
  to_bool : string -> option bool;
  float_repr : Qc -> string
}.

Section CsvExport.

Variable cv : Conversions.

Definition float_field (x : float64) : string :=
  match x with
  | Some q => float_repr cv q
  | None => ""
  end.

Definition field_at (name : string) (r : RawRow) : string :=
  if is_float_column name then float_field (raw_Rating r)
  else text_field (text_at name r).

(** The fields of a record of [frame[available_columns]]. *)
Definition row_fields (columns : list string) (r : RawRow) : list string :=
  map (fun name => field_at name r) (available_columns columns).

Definition to_csv (columns : list string) (frame : list RawRow) : string :=
  csv_lines (available_columns columns :: map (row_fields columns) frame).

Definition csv (columns : list string) (view : DataFrame) : string :=
  to_csv columns (map display_columns view).

End CsvExport.

(** [read_csv]: the tokenizer of pandas' parser, as a state machine over
    the characters, then the conversion of each column. *)
Inductive state : Type :=
| START_RECORD | START_FIELD | IN_FIELD
| IN_QUOTED_FIELD | QUOTE_IN_QUOTED_FIELD | EAT_CRNL.

Definition push (fld : string) (c : ascii) : string := (fld ++ String c "")%string.

(** [tokenize_from st fld row rows s]: the records of the text, given the
    state, the field and the record under way and the records done. Empty
    lines are skipped. (pandas also skips a line made of blanks only; a
    line of the export holds commas, and that case is left out.) *)
Fixpoint tokenize_from (st : state) (fld : string) (row : list string)
    (rows : list (list string)) (s : string) : list (list string) :=
  match s with
  | "" =>
      match st with
      | START_RECORD => rows
      | EAT_CRNL => rows ++ [row]
      | _ => rows ++ [row ++ [fld]]
      end
  | String c s' =>
      let end_field := row ++ [fld] in
      match st with
      | START_RECORD =>
          if Ascii.eqb c line_feed || Ascii.eqb c carriage_return
          then tokenize_from START_RECORD "" [] rows s'
          else if Ascii.eqb c quote_char
          then tokenize_from IN_QUOTED_FIELD "" [] rows s'
          else if Ascii.eqb c delimiter
          then tokenize_from START_FIELD "" [""] rows s'
          else tokenize_from IN_FIELD (String c "") [] rows s'
      | START_FIELD =>
          if Ascii.eqb c line_feed
          then tokenize_from START_RECORD "" [] (rows ++ [end_field]) s'
          else if Ascii.eqb c carriage_return
          then tokenize_from EAT_CRNL "" end_field rows s'
          else if Ascii.eqb c quote_char
          then tokenize_from IN_QUOTED_FIELD "" row rows s'
          else if Ascii.eqb c delimiter
          then tokenize_from START_FIELD "" end_field rows s'
          else tokenize_from IN_FIELD (String c "") row rows s'
      | IN_FIELD =>
          if Ascii.eqb c line_feed
          then tokenize_from START_RECORD "" [] (rows ++ [end_field]) s'
          else if Ascii.eqb c carriage_return
          then tokenize_from EAT_CRNL "" end_field rows s'
          else if Ascii.eqb c delimiter
          then tokenize_from START_FIELD "" end_field rows s'
          else tokenize_from IN_FIELD (push fld c) row rows s'
      | IN_QUOTED_FIELD =>
          if Ascii.eqb c quote_char
          then tokenize_from QUOTE_IN_QUOTED_FIELD fld row rows s'
          else tokenize_from IN_QUOTED_FIELD (push fld c) row rows s'
      | QUOTE_IN_QUOTED_FIELD =>
          if Ascii.eqb c quote_char
          then tokenize_from IN_QUOTED_FIELD (push fld c) row rows s'
          else if Ascii.eqb c delimiter
          then tokenize_from START_FIELD "" end_field rows s'
          else if Ascii.eqb c line_feed
          then tokenize_from START_RECORD "" [] (rows ++ [end_field]) s'
          else if Ascii.eqb c carriage_return
          then tokenize_from EAT_CRNL "" end_field rows s'
          else tokenize_from IN_FIELD (push fld c) row rows s'
      | EAT_CRNL =>
          if Ascii.eqb c line_feed
          then tokenize_from START_RECORD "" [] (rows ++ [row]) s'
          else if Ascii.eqb c carriage_return
          then tokenize_from START_RECORD "" [] (rows ++ [row]) s'
          else if Ascii.eqb c quote_char
          then tokenize_from IN_QUOTED_FIELD "" [] (rows ++ [row]) s'
          else if Ascii.eqb c delimiter
          then tokenize_from START_FIELD "" [""] (rows ++ [row]) s'
          else tokenize_from IN_FIELD (String c "") [] (rows ++ [row]) s'
      end
  end.

Definition tokenize (s : string) : list (list string) :=
  tokenize_from START_RECORD "" [] [] s.

(** A value of the frame read back. *)
Inductive value : Type :=
| Missing
| Text (s : string)
| Number (q : Qc)
| Truth (b : bool).

Inductive kind : Type := Numeric | Logical | Textual.

Section ReadCsv.

Variable cv : Conversions.

Definition is_na (field : string) : bool := existsb (String.eqb field) (na_values cv).

Definition reads_as_number (field : string) : bool := notna (to_number cv field).

Definition reads_as_bool (field : string) : bool := notna (to_bool cv field).

(** The type of a column: numbers when every field that is not a missing
    value reads as a number, else truth values when every such field
    reads as one, else text. *)
Definition infer (fields : list string) : kind :=
  let present := filter (fun f => negb (is_na f)) fields in
  if forallb reads_as_number present then Numeric
  else if forallb reads_as_bool present then Logical
  else Textual.

Definition convert (k : kind) (field : string) : value :=
  if is_na field then Missing
  else
    match k with
    | Numeric =>
        match to_number cv field with
        | Some q => Number q
        | None => Text field
        end
    | Logical =>
        match to_bool cv field with
        | Some b => Truth b
        | None => Text field
        end
    | Textual => Text field
    end.

Definition column_fields (j : nat) (rows : list (list string)) : list string :=
  map (fun r => nth j r "") rows.

(** The first record holds the column names; a record with more fields
    than names is an error ([None]), one with fewer is filled with
    missing values. *)
Definition read_csv (s : string) : option (list string * list (list value)) :=
  match tokenize s with
  | [] => None
  | names :: rows =>
      if forallb (fun r => (List.length r <=? List.length names)%nat) rows
      then
        let columns := seq 0 (List.length names) in
        Some (names,
              map (fun r =>
                     map (fun j => convert (infer (column_fields j rows)) (nth j r ""))
                         columns)
                  rows)
      else None
  end.

End ReadCsv.

(** The frame in memory, value by value. *)
Definition text_value (cell : option string) : value :=
  match cell with
  | Some s => Text s
  | None => Missing
  end.

Definition float_value (x : float64) : value :=
  match x with
  | Some q => Number q
  | None => Missing
  end.

Definition value_at (name : string) (r : RawRow) : value :=
  if is_float_column name then float_value (raw_Rating r)
  else text_value (text_at name r).

Definition row_values (columns : list string) (r : RawRow) : list value :=
  map (fun name => value_at name r) (available_columns columns).

Definition frame_values (columns : list string) (frame : list RawRow)
  : list string * list (list value) :=
  (available_columns columns, map (row_values columns) frame).

(** ** Reading a salary estimate: what the text looks like *)

Fixpoint all_digits (s : string) : bool :=
  match s with
  | "" => true
  | String c s' => Re.is_digit c && all_digits s'
  end.

Fixpoint no_digit (s : string) : bool :=
  match s with
  | "" => true
  | String c s' => negb (Re.is_digit c) && no_digit s'
  end.

Definition starts_with_digit (s : string) : bool :=
  match s with
  | String c _ => Re.is_digit c
  | "" => false
  end.

(** A decimal integer: a non-empty run of digits. *)
Definition is_number (ds : string) : Prop := ds <> "" /\ all_digits ds = true.

(** [ds] is the first decimal integer of [s]: no digit comes before it
    and the run of digits ends where [post] starts. *)
Definition first_number (s pre ds post : string) : Prop :=
  s = (pre ++ ds ++ post)%string /\
  no_digit pre = true /\ is_number ds /\ starts_with_digit post = false.

(** [s] holds the text [$<a>K-$<b>K] right after [pre]. *)
Definition range_at (s pre a b post : string) : Prop :=
  s = (pre ++ "$" ++ a ++ "K-$" ++ b ++ "K" ++ post)%string /\
  is_number a /\ is_number b.

(** The leftmost such place, the one [re.search] reports. *)
Definition first_range (s pre a b post : string) : Prop :=
  range_at s pre a b post /\
  forall pre' a' b' post',
    range_at s pre' a' b' post' -> (String.length pre <= String.length pre')%nat.

(** The longest run of digits at the head of [s], and what follows. *)
Fixpoint span_digits (s : string) : string * string :=
  match s with
  | String c s' =>
      if Re.is_digit c
      then let p := span_digits s' in (String c (fst p), snd p)
      else ("", s)
  | "" => ("", "")
  end.

Definition eat (c : ascii) (s : string) : option string :=
  match s with
  | String c' s' => if Ascii.eqb c c' then Some s' else None
  | "" => None
  end.

Definition eat_number (s : string) : option (string * string) :=
  if starts_with_digit s then Some (span_digits s) else None.

(** The text [$<a>K-$<b>K] at the very head of [s]. *)
Definition range_here (s : string) : option (string * string * string) :=
  match eat "$" s with
  | Some s1 =>
      match eat_number s1 with
      | Some (a, s2) =>
          match eat "K" s2 with
          | Some s3 =>
              match eat "-" s3 with
              | Some s4 =>
                  match eat "$" s4 with
                  | Some s5 =>
                      match eat_number s5 with
                      | Some (b, s6) =>
                          match eat "K" s6 with
                          | Some post => Some (a, b, post)
                          | None => None
                          end
                      | None => None
                      end
                  | None => None
                  end
              | None => None
              end
          | None => None
          end
      | None => None
      end
  | None => None
  end.

(** The leftmost place of [s] where the range text stands, with the text
    before it, the two numbers and the text after it. *)
Fixpoint find_range (s : string) : option (string * string * string * string) :=
  match range_here s with
  | Some (a, b, post) => Some ("", a, b, post)
  | None =>
      match s with
      | String c s' =>
          match find_range s' with
          | Some (pre, a, b, post) => Some (String c pre, a, b, post)
          | None => None
          end
      | "" => None
      end
  end.

(** A pattern that cannot start on a digit. *)
Definition dies_on_digit (r : Re.regex) : Prop :=
  forall s, starts_with_digit s = true -> Re.run r s = [].

(** ** Words of the specification *)

(** The three critical fields are present. *)
Definition present (r : Row) : Prop :=
  Job_Title r <> None /\ Sector r <> None /\ Rating r <> NaN.

Definition misses_critical (r : RawRow) : bool :=
  isna (raw_Job_Title r) || isna (raw_Sector r) || isna (raw_Rating r).

(** A record meets the criteria. *)
Definition meets (sectors sizes : list string) (min_rating : Qc) (r : Row) : Prop :=
  (exists s, Sector r = Some s /\ In s sectors) /\
  (exists z, Size r = Some z /\ In z sizes) /\
  (exists x, Rating r = Some x /\ (min_rating <= x)%Qc).

(** [selects P l l']: [l'] is [l] without the elements that fail [P],
    every other element kept once, at its place. *)
Inductive selects {A : Type} (P : A -> Prop) : list A -> list A -> Prop :=
| selects_nil : selects P [] []
| selects_keep (a : A) (l l' : list A) :
    P a -> selects P l l' -> selects P (a :: l) (a :: l')
| selects_drop (a : A) (l l' : list A) :
    ~ P a -> selects P l l' -> selects P (a :: l) l'.

(** How often a value occurs in a column, and where it occurs first. *)
Definition occurrences (v : string) (col : list (option string)) : nat :=
  List.length (filter (cell_is v) col).

Fixpoint first_index (v : string) (col : list (option string)) : nat :=
  match col with
  | [] => 0%nat
  | cell :: t => if cell_is v cell then 0%nat else S (first_index v t)
  end.

(** What is asked of numpy's sort: the outcome holds the entries of the
    table in ascending order of the counts... *)
Definition sorts_by_count (argsort : list (string * nat) -> list (string * nat)) : Prop :=
  forall l,
    Permutation (argsort l) l /\
    StronglySorted (fun x y => (snd x <= snd y)%nat) (argsort l).

(** ...and, for a stable sort, the entries with the same count keep the
    order they had. *)
Definition count_is (c : nat) (e : string * nat) : bool := (snd e =? c)%nat.

Definition stable_by_count (argsort : list (string * nat) -> list (string * nat)) : Prop :=
  forall l c, filter (count_is c) (argsort l) = filter (count_is c) l.

(** The order in which a stable sort leaves a table that stood in
    descending order of the positions [pos]: ascending counts and, among
    equal counts, descending positions. *)
Definition ascending_then_later (pos : string * nat -> nat) (x y : string * nat) : Prop :=
  (snd x < snd y)%nat \/ (snd x = snd y /\ (pos y < pos x)%nat).

(** The order of the counting chart: more frequent first, and among
    equally frequent values the one met first in the column. *)
Definition ranks_before (col : list (option string)) (x y : string * nat) : Prop :=
  (snd y < snd x)%nat \/
  (snd x = snd y /\ (first_index (fst x) col < first_index (fst y) col)%nat).

(** The text cells of a row. *)
Definition text_cells (r : RawRow) : list (option string) :=
  [raw_Job_Title r; raw_Company_Name r; raw_Location r; raw_Salary_Estimate r;
   raw_Sector r; raw_Size r; raw_Revenue r].

(** What [read_csv] leaves in the frame it loads (line 49): a text is
    none of its markers of a missing value, which it would have read as
    one, and a number is what it read from some text. *)
Definition loaded (cv : Conversions) (df : list RawRow) : Prop :=
  (forall r s, In r df -> In (Some s) (text_cells r) -> is_na cv s = false) /\
  (forall r q, In r df -> raw_Rating r = Some q -> exists s, to_number cv s = Some q).

Fixpoint holds (c : ascii) (s : string) : bool :=
  match s with
  | "" => false
  | String x s' => Ascii.eqb x c || holds c s'
  end.

(** A field that is read back whole: it holds no carriage return, or it
    is written between quotes. *)
Definition written_whole (s : string) : bool :=
  needs_quote s || negb (holds carriage_return s).

(** What is asked of pandas where it prints and reads a number: the
    text it writes for a number it has read is no marker of a missing
    value, reads as that number, and holds no carriage return. *)
Definition reads_numbers_back (cv : Conversions) : Prop :=
  forall s q,
    to_number cv s = Some q ->
    is_na cv (float_repr cv q) = false /\
    to_number cv (float_repr cv q) = Some q /\
    written_whole (float_repr cv q) = true.

(** No exported text holds a carriage return outside quotes. *)
Definition texts_written_whole (columns : list string) (frame : list RawRow) : Prop :=
  forall name r s,
    In name (available_columns columns) -> In r frame ->
    text_at name r = Some s -> written_whole s = true.

(** [read_csv] takes the texts of a column for texts: unless the column
    is all missing, they do not all read as numbers, nor all as truth
    values. *)
Definition read_as_text (cv : Conversions) (cells : list (option string)) : Prop :=
  dropna cells = [] \/ infer cv (dropna cells) = Textual.

Definition texts_read_as_text (cv : Conversions) (columns : list string)
    (frame : list RawRow) : Prop :=
  forall name,
    In name (available_columns columns) -> is_float_column name = false ->
    read_as_text cv (map (text_at name) frame).

Definition several_fields (r : list string) : Prop := (2 <= List.length r)%nat.

(** What follows a field that ends on [c]: the next field after a comma,
    the next record after a line feed. *)
Definition after_field (c : ascii) (fld : string) (row : list string)
    (rows : list (list string)) (rest : string) : list (list string) :=
  if Ascii.eqb c delimiter
  then tokenize_from START_FIELD "" (row ++ [fld]) rows rest
  else tokenize_from START_RECORD "" [] (rows ++ [row ++ [fld]]) rest.

(** Conversions that agree with pandas on the plain cases: its default
    markers of a missing value, decimal numerals, the words for the truth
    values, and numbers printed in the shortest decimal form. *)
Definition default_na_values : list string :=
  [""; "#N/A"; "#N/A N/A"; "#NA"; "-1.#IND"; "-1.#QNAN"; "-NaN"; "-nan";
   "1.#IND"; "1.#QNAN"; "<NA>"; "N/A"; "NA"; "NULL"; "NaN"; "None"; "n/a";
   "nan"; "null"].

Fixpoint split_dot (s : string) : string * option string :=
  match s with
  | "" => ("", None)
  | String c s' =>
      if Ascii.eqb c "."
      then ("", Some s')
      else let p := split_dot s' in (String c (fst p), snd p)
  end.

Definition unsigned_numeral (s : string) : option Qc :=
  let ip := fst (split_dot s) in
  match snd (split_dot s) with
  | None =>
      if all_digits ip && negb (String.eqb ip "")
      then Some (Qc_of_Z (int_of_digits ip))
      else None
  | Some fp =>
      if all_digits ip && negb (String.eqb ip "")
         && all_digits fp && negb (String.eqb fp "")
      then Some (Qc_of_Z (int_of_digits ip)
                 + Qc_of_Z (int_of_digits fp)
                   / Qc_of_Z (10 ^ Z.of_nat (String.length fp)))%Qc
      else None
  end.

Definition numeral (s : string) : option Qc :=
  match s with
  | String "-" s' => option_map Qcopp (unsigned_numeral s')
  | _ => unsigned_numeral s
  end.

Definition truth_word (s : string) : option bool :=
  if existsb (String.eqb s) ["True"; "TRUE"; "true"] then Some true
  else if existsb (String.eqb s) ["False"; "FALSE"; "false"] then Some false
  else None.

(** The decimal digits of a whole number and of a fraction below one. *)
Definition digit_char (d : Z) : ascii := ascii_of_nat (48 + Z.to_nat d).

Fixpoint digits_from (fuel : nat) (z : Z) (acc : string) : string :=
  match fuel with
  | O => acc
  | S f =>
      let acc' := String (digit_char (z mod 10)) acc in
      if (z <? 10)%Z then acc' else digits_from f (z / 10) acc'
  end.

Definition digits_of_Z (z : Z) : string :=
  digits_from (S (Z.to_nat (Z.log2 z))) z "".

(** The digits of [r / d] after the point, by long division, until the
    remainder is zero. *)
Fixpoint fraction_digits (fuel : nat) (r d : Z) : string :=
  match fuel with
  | O => ""
  | S f =>
      if (r =? 0)%Z then ""
      else String (digit_char (10 * r / d)) (fraction_digits f (10 * r mod d) d)
  end.

Definition unsigned_decimal (n : Z) (d : positive) : string :=
  let fp := fraction_digits (Pos.to_nat d) (n mod Zpos d) (Zpos d) in
  (digits_of_Z (n / Zpos d) ++ "." ++ (if String.eqb fp "" then "0" else fp))%string.

(** The text pandas writes for a float64: the shortest decimal that
    reads back as the number, with at least one digit after the point
    ([4.0], [4.25], [-0.5]). *)
Definition shortest_decimal (q : Qc) : string :=
  ((if (Qnum q <? 0)%Z then "-" else "")
   ++ unsigned_decimal (Z.abs (Qnum q)) (Qden q))%string.

Definition plain : Conversions :=
  {| na_values := default_na_values;
     to_number := numeral;
     to_bool := truth_word;
     float_repr := shortest_decimal |}.

(** The characters of a printed number. *)
Definition numeric_char (c : ascii) : bool :=
  Re.is_digit c || Ascii.eqb c "." || Ascii.eqb c "-".

Fixpoint numeric_text (s : string) : bool :=
  match s with
  | "" => true
  | String c s' => numeric_char c && numeric_text s'
  end.

(** A number that is a whole number over a power of ten. *)
Definition decimal (k : nat) (q : Qc) : Prop :=
  exists N, (0 <= N)%Z /\ (q * Qc_of_Z (10 ^ Z.of_nat k))%Qc = Qc_of_Z N.

Definition posting (estimate : option string) : RawRow :=
  {| raw_Job_Title := Some "Data Scientist";
     raw_Company_Name := Some "Acme";
     raw_Location := Some "New York, NY";
     raw_Salary_Estimate := estimate;
     raw_Rating := Some (Qc_of_Z 4);
     raw_Sector := Some "Tech";
     raw_Size := Some "Large";
     raw_Revenue := None |}.

(** A column of eighteen job titles, each met once. *)
Definition eighteen_titles : list (option string) :=
  map Some
    ["Data Scientist"; "Data Analyst"; "Data Engineer"; "ML Engineer";
     "Research Scientist"; "Statistician"; "BI Analyst"; "Quantitative Analyst";
     "Data Architect"; "Analytics Manager"; "AI Researcher"; "Data Modeler";
     "Decision Scientist"; "Biostatistician"; "NLP Engineer"; "Risk Analyst";
     "Product Analyst"; "Marketing Analyst"].

(** Three postings: Tech and Large with a range, Tech and Small with a
    low rating, Finance without a salary estimate. *)
Definition three_postings : list RawRow :=
  [ {| raw_Job_Title := Some "Data Scientist"; raw_Company_Name := Some "Acme";
       raw_Location := Some "Austin, TX";
       raw_Salary_Estimate := Some "$80K-$120K (Glassdoor est.)";
       raw_Rating := Some (Qc_of_Z 4); raw_Sector := Some "Tech";
       raw_Size := Some "Large"; raw_Revenue := None |};
    {| raw_Job_Title := Some "Data Analyst"; raw_Company_Name := Some "Initech";
       raw_Location := Some "Remote";
       raw_Salary_Estimate := Some "$50K-$90K";
       raw_Rating := Some (Qc_of_Z 2); raw_Sector := Some "Tech";
       raw_Size := Some "Small"; raw_Revenue := None |};
    {| raw_Job_Title := Some "Quant"; raw_Company_Name := Some "Globex";
       raw_Location := Some "New York, NY";
       raw_Salary_Estimate := None;
       raw_Rating := Some (Q2Qc (9 # 2)); raw_Sector := Some "Finance";
       raw_Size := Some "Large"; raw_Revenue := None |} ].

(** A source of two postings; the first has a postal code for location
    and is the only one of the sector Tech. *)
Definition zip_posting : RawRow :=
  {| raw_Job_Title := Some "Data Scientist";
     raw_Company_Name := Some "Acme";
     raw_Location := Some "00501";
     raw_Salary_Estimate := Some "$80K-$120K (Glassdoor est.)";
     raw_Rating := Some (Qc_of_Z 4);
     raw_Sector := Some "Tech";
     raw_Size := Some "Large";
     raw_Revenue := None |}.

Definition remote_posting : RawRow :=
  {| raw_Job_Title := Some "Data Analyst";
     raw_Company_Name := Some "Initech";
     raw_Location := Some "Remote";
     raw_Salary_Estimate := Some "$60K-$90K (Glassdoor est.)";
     raw_Rating := Some (Qc_of_Z 4);
     raw_Sector := Some "Finance";
     raw_Size := Some "Large";
     raw_Revenue := None |}.

Definition sample_df : list RawRow := [zip_posting; remote_posting].

Definition sample_view : DataFrame :=
  filtered_df (df_clean sample_df) ["Tech"] ["Large"] (Qc_of_Z 3).

Definition location_read_back (frame : option (list string * list (list value))) : value :=
  match frame with
  | Some (_, r :: _) => nth 2 r Missing
  | _ => Missing
  end.

(** A source of one posting whose location was written between quotes
    with a carriage return inside. *)
Definition two_line_posting : RawRow :=
  {| raw_Job_Title := Some "Data Scientist";
     raw_Company_Name := Some "Acme";
     raw_Location := Some ("Austin" ++ String carriage_return "TX")%string;
     raw_Salary_Estimate := Some "$80K-$120K (Glassdoor est.)";
     raw_Rating := Some (Qc_of_Z 4);
     raw_Sector := Some "Tech";
     raw_Size := Some "Large";
     raw_Revenue := None |}.

Definition two_line_view : DataFrame :=
  filtered_df (df_clean [two_line_posting]) ["Tech"] ["Large"] (Qc_of_Z 3).

(** The number of records read back. *)
Definition records_read_back (frame : option (list string * list (list value)))
  : option nat :=
  option_map (fun f => List.length (snd f)) frame.

(** The columns of a source that has no column [Revenue]: the index
    column, the columns the script reads and some it does not. *)
Definition source_columns : list string :=
  ["index"; "Job Title"; "Salary Estimate"; "Job Description"; "Rating";
   "Company Name"; "Location"; "Size"; "Founded"; "Sector"].

(** A posting whose company name holds a comma and double quotes and
    whose location holds a comma and a line feed. *)
Definition quoted_posting : RawRow :=
  {| raw_Job_Title := Some "Data Scientist";
     raw_Company_Name :=
       Some ("Acme, " ++ String quote_char ("West" ++ String quote_char ""))%string;
     raw_Location := Some ("Austin," ++ String line_feed "TX")%string;
     raw_Salary_Estimate := Some "$80K-$120K";
     raw_Rating := Some (Q2Qc (17 # 4));
     raw_Sector := Some "Tech";
     raw_Size := Some "Large";
     raw_Revenue := None |}.

(** ** The sidebar widgets (lines 73-89) *)

(** Python's [sorted] on a list of strings: ascending in the order of
    [str], which compares character by character. The sort is stable;
    it is written here as an insertion sort. *)
Fixpoint insert_sorted (x : string) (l : list string) : list string :=
  match l with
  | [] => [x]
  | y :: t => if String.leb x y then x :: y :: t else y :: insert_sorted x t
  end.

Fixpoint sorted (l : list string) : list string :=
  match l with
  | [] => []
  | x :: t => insert_sorted x (sorted t)
  end.

(** [sorted(df_clean['Sector'].dropna().unique())] and the same for
    ['Size']: the options of the two multiselects. *)
Definition sectors (clean : DataFrame) : list string :=
  sorted (unique (dropna (column Sector clean))).

Definition sizes (clean : DataFrame) : list string :=
  sorted (unique (dropna (column Size clean))).

(** [sectors[:3] if len(sectors) > 3 else sectors] *)
Definition default_sectors (sectors : list string) : list string :=
  if (3 <? List.length sectors)%nat then firstn 3 sectors else sectors.

(** [sizes if len(sizes) <= 3 else sizes[:3]] *)
Definition default_sizes (sizes : list string) : list string :=
  if (List.length sizes <=? 3)%nat then sizes else firstn 3 sizes.

(** The slider of the minimum rating: from 0.0 to 5.0 in steps of 0.5,
    3.0 to start with. *)
Definition min_rating_values : list Qc :=
  map (fun k => (Qc_of_Z (Z.of_nat k) / two)%Qc) (seq 0 11).

Definition default_min_rating : Qc := Qc_of_Z 3.

(** The view of the first run, before the user touches a widget. *)
Definition initial_view (df : list RawRow) : DataFrame :=
  let clean := df_clean df in
  filtered_df clean (default_sectors (sectors clean)) (default_sizes (sizes clean))
    default_min_rating.

(** ** Average salary by company size (lines 163-185)

    [filtered_df.groupby('Size')['Avg_Salary'].mean()]: one entry per
    size met in the view, the sizes in sorted order, the records without
    a size left out; the entry is the mean of the average salaries of
    the records of that size. *)
Definition group_of (size : string) (view : DataFrame) : DataFrame :=
  filter (fun r => cell_is size (Size r)) view.

Definition groupby_Size_mean (view : DataFrame) : list (string * float64) :=
  map (fun size => (size, mean (column Avg_Salary (group_of size view))))
      (sorted (unique (dropna (column Size view)))).

(** [sort_values(ascending=False)] on a float64 Series: the entries that
    are not NaN are reversed, sorted by numpy in ascending order and
    reversed again; the NaN entries follow in the order they had. *)
Definition non_nans (s : list (string * float64)) : list (string * Qc) :=
  flat_map (fun e => match snd e with
                     | Some q => [(fst e, q)]
                     | None => []
                     end) s.

Definition nans (s : list (string * float64)) : list (string * float64) :=
  filter (fun e => isna (snd e)) s.

Section SizeSalary.

Variable argsort : list (string * Qc) -> list (string * Qc).

Definition sort_values_desc_float (s : list (string * float64))
  : list (string * float64) :=
  map (fun e => (fst e, Some (snd e))) (rev (argsort (rev (non_nans s))))
  ++ nans s.

Definition size_salary (view : DataFrame) : list (string * float64) :=
  sort_values_desc_float (groupby_Size_mean view).

(** [if len(size_salary) > 0]: the line chart is drawn, else the warning
    is shown. *)
Definition salary_chart_drawn (view : DataFrame) : bool :=
  (0 <? List.length (size_salary view))%nat.

End SizeSalary.

(** A sort of the entries by value, by insertion. *)
Fixpoint insert_by_value (x : string * Qc) (l : list (string * Qc))
  : list (string * Qc) :=
  match l with
  | [] => [x]
  | y :: t => if Qc_leb (snd x) (snd y) then x :: y :: t else y :: insert_by_value x t
  end.

Fixpoint insertion_sort_by_value (l : list (string * Qc)) : list (string * Qc) :=
  match l with
  | [] => []
  | x :: t => insert_by_value x (insertion_sort_by_value t)
  end.

(** What is asked of numpy's sort of the values. *)
Definition sorts_by_value (argsort : list (string * Qc) -> list (string * Qc)) : Prop :=
  forall l,
    Permutation (argsort l) l /\
    StronglySorted (fun x y => (snd x <= snd y)%Qc) (argsort l).

(** ** The page selector (line 219): [range(1, total_pages + 1)] *)
Definition page_numbers (total : Z) : list Z :=
  map Z.of_nat (seq 1 (Z.to_nat total)).

(** The slider of the page size: an integer from 5 to 50. *)
Definition page_size_allowed (page_size : Z) : Prop := (5 <= page_size <= 50)%Z.

(** * Properties *)

(** ** Numbers *)

Lemma Qc_of_Z_mult (a b : Z) : (Qc_of_Z a * Qc_of_Z b)%Qc = Qc_of_Z (a * b).
Proof.
  apply Qc_is_canon. unfold Qc_of_Z, Qcmult, Q2Qc. cbn [this].
  rewrite !Qred_correct. unfold Qeq, inject_Z. simpl. lia.
Qed.

Lemma Qc_of_Z_plus (a b : Z) : (Qc_of_Z a + Qc_of_Z b)%Qc = Qc_of_Z (a + b).
Proof.
  apply Qc_is_canon. unfold Qc_of_Z, Qcplus, Q2Qc. cbn [this].
  rewrite !Qred_correct. unfold Qeq, inject_Z. simpl. lia.
Qed.

Lemma Qc_of_Z_inj (a b : Z) : Qc_of_Z a = Qc_of_Z b -> a = b.
Proof.
  unfold Qc_of_Z. intros H. apply Q2Qc_eq_iff in H.
  unfold Qeq, inject_Z in H. simpl in H. lia.
Qed.

Lemma Some_Qc_of_Z_inj (a b : Z) :
  @Some Qc (Qc_of_Z a) = Some (Qc_of_Z b) -> a = b.
Proof.
  intros H. apply Qc_of_Z_inj.
  exact (f_equal (fun o => match o with Some q => q | None => Qc_of_Z a end) H).
Qed.

Lemma Qc_leb_le (a b : Qc) : Qc_leb a b = true <-> (a <= b)%Qc.
Proof. unfold Qc_leb, Qcle. apply Qle_bool_iff. Qed.

(** ** Strings *)

Lemma string_app_assoc (a b c : string) :
  ((a ++ b) ++ c = a ++ (b ++ c))%string.
Proof. induction a as [|x a IH]; simpl; [reflexivity | now rewrite IH]. Qed.

Lemma string_app_nil_r (a : string) : (a ++ "")%string = a.
Proof. induction a as [|x a IH]; simpl; [reflexivity | now rewrite IH]. Qed.

Lemma int_of_digits_from_app (acc : Z) (s t : string) :
  int_of_digits_from acc (s ++ t) = int_of_digits_from (int_of_digits_from acc s) t.
Proof. revert acc. induction s as [|c s IH]; simpl; intros; [reflexivity | apply IH]. Qed.

Lemma int_of_digits_snoc (s : string) (c : ascii) :
  int_of_digits (s ++ String c "") = (10 * int_of_digits s + digit_value c)%Z.
Proof. unfold int_of_digits. rewrite int_of_digits_from_app. reflexivity. Qed.

Example int_of_digits_120 : int_of_digits "120" = 120%Z.
Proof. reflexivity. Qed.

(** ** The matcher on the two patterns *)

Lemma span_digits_eq (s : string) :
  s = (fst (span_digits s) ++ snd (span_digits s))%string.
Proof.
  induction s as [|c s IH]; simpl; [reflexivity|].
  destruct (Re.is_digit c); simpl; [now rewrite <- IH | reflexivity].
Qed.

Lemma span_digits_all (s : string) : all_digits (fst (span_digits s)) = true.
Proof.
  induction s as [|c s IH]; simpl; [reflexivity|].
  destruct (Re.is_digit c) eqn:E; simpl; [now rewrite E | reflexivity].
Qed.

Lemma span_digits_stop (s : string) : starts_with_digit (snd (span_digits s)) = false.
Proof.
  induction s as [|c s IH]; simpl; [reflexivity|].
  destruct (Re.is_digit c) eqn:E; simpl; [exact IH | exact E].
Qed.

Lemma span_digits_nonempty (s : string) :
  starts_with_digit s = true -> fst (span_digits s) <> "".
Proof.
  destruct s as [|c s]; simpl; [discriminate|].
  intros ->. simpl. discriminate.
Qed.

(** A run of digits followed by something that is not a digit is the span. *)
Lemma span_digits_app (ds post : string) :
  all_digits ds = true -> starts_with_digit post = false ->
  span_digits (ds ++ post) = (ds, post).
Proof.
  intros Hd Hp. induction ds as [|c ds IH]; simpl in *.
  - destruct post as [|c post]; simpl in *; [reflexivity | now rewrite Hp].
  - apply andb_true_iff in Hd as [Hc Hd]. rewrite Hc, (IH Hd). reflexivity.
Qed.

(** The greedy [\d+]: the first way is the span; every other way stops
    in front of a digit. *)
Lemma plus_runs_digit (s : string) :
  exists tl,
    Re.plus_runs Re.Digit s =
      (if starts_with_digit s then [span_digits s] else []) ++ tl /\
    Forall (fun kr => starts_with_digit (snd kr) = true) tl /\
    (starts_with_digit s = false -> tl = []).
Proof.
  induction s as [|c s IH]; simpl.
  - exists []. repeat split; auto.
  - destruct (Re.is_digit c) eqn:E.
    + destruct IH as (tl & Heq & Htl & Hnil). rewrite Heq.
      destruct (starts_with_digit s) eqn:Es.
      * exists (map (fun kr => (String c (fst kr), snd kr)) tl ++ [(String c "", s)]).
        simpl. repeat split; [| discriminate].
        apply Forall_app. split.
        -- rewrite Forall_map. simpl. exact Htl.
        -- constructor; [exact Es | constructor].
      * exists []. rewrite (Hnil eq_refl). simpl.
        destruct s as [|c' s]; simpl in *.
        -- repeat split; auto.
        -- rewrite Es. repeat split; auto.
    + exists []. repeat split; auto.
Qed.

Lemma flat_map_all_nil {A B : Type} (f : A -> list B) (l : list A) :
  Forall (fun a => f a = []) l -> flat_map f l = [].
Proof. induction 1 as [|a l Ha _ IH]; simpl; [reflexivity | now rewrite Ha, IH]. Qed.

Lemma run_lit_then (c : ascii) (r : Re.regex) (s : string) :
  Re.run (Re.Cat (Re.Atom (Re.Lit c)) r) s =
    match eat c s with
    | Some s' =>
        map (fun w : Re.way =>
               let '(k, gs, rest) := w in (String c k, gs, rest)) (Re.run r s')
    | None => []
    end.
Proof.
  destruct s as [|c' s]; simpl; [reflexivity|].
  destruct (Ascii.eqb c c') eqn:E; simpl; [| reflexivity].
  apply Ascii.eqb_eq in E. subst c'. rewrite app_nil_r.
  apply map_ext. intros [[k gs] rest]. reflexivity.
Qed.

Lemma run_number_then (r : Re.regex) (s : string) :
  dies_on_digit r ->
  Re.run (Re.Cat (Re.Group (Re.Plus Re.Digit)) r) s =
    match eat_number s with
    | Some (a, s') =>
        map (fun w : Re.way =>
               let '(k, gs, rest) := w in ((a ++ k)%string, a :: gs, rest))
            (Re.run r s')
    | None => []
    end.
Proof.
  intros Hr. simpl. destruct (plus_runs_digit s) as (tl & Heq & Htl & _).
  rewrite Heq. unfold eat_number.
  rewrite !map_app, flat_map_app.
  rewrite (flat_map_all_nil _ (map _ (map _ tl))).
  - rewrite app_nil_r. destruct (starts_with_digit s); simpl; [| reflexivity].
    rewrite app_nil_r. destruct (span_digits s) as [a s']. simpl.
    apply map_ext. intros [[k gs] rest]. reflexivity.
  - rewrite !Forall_map. eapply Forall_impl; [| exact Htl].
    intros [k rest] H. simpl in *. now rewrite (Hr _ H).
Qed.

Lemma dies_lit (c : ascii) : Re.is_digit c = false -> dies_on_digit (Re.Atom (Re.Lit c)).
Proof.
  intros Hc [|c' s]; simpl; [reflexivity|]. intros Hd.
  destruct (Ascii.eqb c c') eqn:E; [| reflexivity].
  apply Ascii.eqb_eq in E. congruence.
Qed.

Lemma dies_lit_then (c : ascii) (r : Re.regex) :
  Re.is_digit c = false -> dies_on_digit (Re.Cat (Re.Atom (Re.Lit c)) r).
Proof.
  intros Hc s Hd. rewrite run_lit_then. destruct s as [|c' s]; simpl in *; [reflexivity|].
  destruct (Ascii.eqb c c') eqn:E; [| reflexivity].
  apply Ascii.eqb_eq in E. congruence.
Qed.

Lemma run_lit (c : ascii) (s : string) :
  Re.run (Re.Atom (Re.Lit c)) s =
    match eat c s with
    | Some s' => [(String c "", [], s')]
    | None => []
    end.
Proof.
  destruct s as [|c' s]; [reflexivity|]. unfold eat. cbn [Re.run Re.accepts].
  destruct (Ascii.eqb c c') eqn:E; [| reflexivity].
  apply Ascii.eqb_eq in E. now subst.
Qed.

(** What the matcher finds for the range pattern at the head of [s]. *)
Lemma run_pat_range (s : string) :
  Re.run pat_range s =
    match range_here s with
    | Some (a, b, post) =>
        [(("$" ++ a ++ "K-$" ++ b ++ "K")%string, [a; b], post)]
    | None => []
    end.
Proof.
  unfold pat_range, range_here.
  rewrite run_lit_then. destruct (eat "$" s) as [s1|]; [| reflexivity].
  rewrite run_number_then by (apply dies_lit_then; reflexivity).
  destruct (eat_number s1) as [[a s2]|]; [| reflexivity].
  rewrite run_lit_then. destruct (eat "K" s2) as [s3|]; [| reflexivity].
  rewrite run_lit_then. destruct (eat "-" s3) as [s4|]; [| reflexivity].
  rewrite run_lit_then. destruct (eat "$" s4) as [s5|]; [| reflexivity].
  rewrite run_number_then by (apply dies_lit; reflexivity).
  destruct (eat_number s5) as [[b s6]|]; [| reflexivity].
  rewrite run_lit. destruct (eat "K" s6) as [post|]; [| reflexivity].
  reflexivity.
Qed.

Lemma eat_Some (c : ascii) (s s' : string) : eat c s = Some s' <-> s = String c s'.
Proof.
  destruct s as [|c' s]; simpl; [split; discriminate|].
  destruct (Ascii.eqb c c') eqn:E.
  - apply Ascii.eqb_eq in E. subst c'. split; congruence.
  - apply Ascii.eqb_neq in E. split; [discriminate | congruence].
Qed.

Lemma eat_head (c : ascii) (s : string) : eat c (String c s) = Some s.
Proof. now apply eat_Some. Qed.

Lemma starts_with_digit_app (a rest : string) :
  is_number a -> starts_with_digit (a ++ rest) = true.
Proof.
  intros [Hne Hd]. destruct a as [|c a]; [congruence|]. simpl in *.
  now apply andb_true_iff in Hd as [Hc _].
Qed.

Lemma eat_number_app (a rest : string) :
  is_number a -> starts_with_digit rest = false ->
  eat_number (a ++ rest) = Some (a, rest).
Proof.
  intros Ha Hr. unfold eat_number. rewrite (starts_with_digit_app _ _ Ha).
  destruct Ha as [_ Hd]. now rewrite span_digits_app.
Qed.

Lemma eat_number_inv (s a rest : string) :
  eat_number s = Some (a, rest) ->
  s = (a ++ rest)%string /\ is_number a /\ starts_with_digit rest = false.
Proof.
  unfold eat_number. destruct (starts_with_digit s) eqn:E; [| discriminate].
  intros H. injection H as H.
  pose proof (span_digits_eq s) as H1. pose proof (span_digits_all s) as H2.
  pose proof (span_digits_stop s) as H3. pose proof (span_digits_nonempty s E) as H4.
  rewrite H in *. simpl in *. repeat split; assumption.
Qed.

Lemma range_here_spec (s a b post : string) :
  range_here s = Some (a, b, post) <-> range_at s "" a b post.
Proof.
  unfold range_here, range_at. split.
  - destruct (eat "$" s) as [s1|] eqn:E1; [| discriminate].
    destruct (eat_number s1) as [[a' s2]|] eqn:E2; [| discriminate].
    destruct (eat "K" s2) as [s3|] eqn:E3; [| discriminate].
    destruct (eat "-" s3) as [s4|] eqn:E4; [| discriminate].
    destruct (eat "$" s4) as [s5|] eqn:E5; [| discriminate].
    destruct (eat_number s5) as [[b' s6]|] eqn:E6; [| discriminate].
    destruct (eat "K" s6) as [post'|] eqn:E7; [| discriminate].
    intros H. injection H as -> -> ->.
    apply eat_Some in E1, E3, E4, E5, E7.
    apply eat_number_inv in E2 as (E2 & Ha & _).
    apply eat_number_inv in E6 as (E6 & Hb & _).
    subst. repeat split; try apply Ha; try apply Hb.
  - intros (-> & Ha & Hb). simpl.
    rewrite eat_number_app by (assumption || reflexivity). simpl.
    rewrite eat_number_app by (assumption || reflexivity). simpl.
    reflexivity.
Qed.

Lemma search_pat_range (s : string) :
  Re.search pat_range s =
    match range_here s with
    | Some (a, b, _) => Some [a; b]
    | None =>
        match s with
        | String _ s' => Re.search pat_range s'
        | "" => None
        end
    end.
Proof.
  destruct s as [|c s]; cbn [Re.search]; rewrite run_pat_range;
    destruct (range_here _) as [[[a b] post]|]; reflexivity.
Qed.

Lemma range_at_cons (c : ascii) (s pre a b post : string) :
  range_at (String c s) (String c pre) a b post <-> range_at s pre a b post.
Proof.
  unfold range_at. split; intros (H & Ha & Hb); (split; [| split; assumption]).
  - simpl in H. now injection H.
  - simpl. now rewrite H.
Qed.

Lemma range_at_nonempty_pre (s pre a b post : string) :
  range_here s = None -> range_at s pre a b post ->
  exists c pre' s', pre = String c pre' /\ s = String c s'.
Proof.
  intros Hn H. destruct pre as [|c pre].
  - apply range_here_spec in H. congruence.
  - destruct H as (H & _). simpl in H. eauto.
Qed.

Lemma search_first_range (s pre a b post : string) :
  first_range s pre a b post -> Re.search pat_range s = Some [a; b].
Proof.
  revert s. induction pre as [|c pre IH]; intros s [Hr Hleft].
  - apply range_here_spec in Hr. now rewrite search_pat_range, Hr.
  - rewrite search_pat_range. destruct (range_here s) as [[[a' b'] post']|] eqn:E.
    + apply range_here_spec in E. apply Hleft in E. simpl in E. lia.
    + destruct (range_at_nonempty_pre _ _ _ _ _ E Hr) as (c' & pre' & s' & Hp & ->).
      injection Hp as <- <-. apply IH. split.
      * exact (proj1 (range_at_cons _ _ _ _ _ _) Hr).
      * intros p a1 b1 q H1. apply (proj2 (range_at_cons c _ _ _ _ _)) in H1.
        apply Hleft in H1. simpl in H1. lia.
Qed.

Lemma search_no_range (s : string) :
  (forall pre a b post, ~ range_at s pre a b post) ->
  Re.search pat_range s = None.
Proof.
  induction s as [|c s IH]; intros Hno; rewrite search_pat_range.
  - destruct (range_here "") as [[[a b] post]|] eqn:E; [| reflexivity].
    apply range_here_spec in E. now apply Hno in E.
  - destruct (range_here (String c s)) as [[[a b] post]|] eqn:E.
    + apply range_here_spec in E. now apply Hno in E.
    + apply IH. intros pre a b post H.
      apply (proj2 (range_at_cons c _ _ _ _ _)) in H. now apply Hno in H.
Qed.

(** A text that holds the range somewhere holds a leftmost one. *)
Lemma range_at_first (s : string) :
  (exists pre a b post, range_at s pre a b post) ->
  exists pre a b post, first_range s pre a b post.
Proof.
  induction s as [|c s IH]; intros (pre & a & b & post & H).
  - destruct pre; destruct H as (H & _); simpl in H; discriminate.
  - destruct (range_here (String c s)) as [[[a' b'] post']|] eqn:E.
    + exists "", a', b', post'. split; [now apply range_here_spec |].
      intros; simpl; lia.
    + destruct (range_at_nonempty_pre _ _ _ _ _ E H) as (c' & pre' & s' & -> & Hs).
      injection Hs as <- <-. apply (proj1 (range_at_cons _ _ _ _ _ _)) in H.
      destruct IH as (p & a1 & b1 & q & Hr & Hleft); [eauto|].
      exists (String c p), a1, b1, q.
      split; [exact (proj2 (range_at_cons _ _ _ _ _ _) Hr) |].
      intros p2 a2 b2 q2 H2.
      destruct (range_at_nonempty_pre _ _ _ _ _ E H2) as (c2 & p3 & s3 & -> & Hs).
      injection Hs as <- <-. apply (proj1 (range_at_cons _ _ _ _ _ _)) in H2.
      apply Hleft in H2. simpl. lia.
Qed.

(** The first-number pattern. *)
Lemma search_pat_number (s : string) :
  Re.search pat_number s =
    if starts_with_digit s then Some [fst (span_digits s)]
    else match s with
         | String _ s' => Re.search pat_number s'
         | "" => None
         end.
Proof.
  assert (Hrun : forall t,
             Re.run pat_number t =
               map (fun kr => (fst kr, [fst kr], snd kr)) (Re.plus_runs Re.Digit t)).
  { intros t. unfold pat_number. cbn [Re.run]. rewrite map_map. reflexivity. }
  destruct s as [|c s]; cbn [Re.search]; rewrite Hrun.
  - reflexivity.
  - destruct (plus_runs_digit (String c s)) as (tl & Heq & _ & Hnil). rewrite Heq.
    destruct (starts_with_digit (String c s)) eqn:E.
    + simpl. destruct (Re.is_digit c); reflexivity.
    + now rewrite (Hnil eq_refl).
Qed.

Lemma search_first_number (s pre ds post : string) :
  first_number s pre ds post -> Re.search pat_number s = Some [ds].
Proof.
  intros (-> & Hpre & Hds & Hpost). induction pre as [|c pre IH].
  - cbn [append]. rewrite search_pat_number, (starts_with_digit_app _ _ Hds).
    destruct Hds as [_ Hd]. now rewrite span_digits_app.
  - cbn [no_digit] in Hpre.
    apply andb_true_iff in Hpre as [Hc Hpre]. apply negb_true_iff in Hc.
    cbn [append]. rewrite search_pat_number. cbn [starts_with_digit].
    rewrite Hc. now apply IH.
Qed.

Lemma search_no_digit (s : string) :
  no_digit s = true -> Re.search pat_number s = None.
Proof.
  induction s as [|c s IH]; intros H; rewrite search_pat_number;
    cbn [starts_with_digit no_digit] in *.
  - reflexivity.
  - apply andb_true_iff in H as [Hc Hs]. apply negb_true_iff in Hc.
    rewrite Hc. now apply IH.
Qed.

(** Every text with a digit has a first number. *)
Lemma first_number_exists (s : string) :
  no_digit s = false -> exists pre ds post, first_number s pre ds post.
Proof.
  induction s as [|c s IH]; simpl; [discriminate|].
  destruct (Re.is_digit c) eqn:E; simpl.
  - intros _. exists "", (fst (span_digits (String c s))), (snd (span_digits (String c s))).
    split; [apply span_digits_eq|]. split; [reflexivity|]. split.
    + split; [apply span_digits_nonempty; exact E | apply span_digits_all].
    + apply span_digits_stop.
  - intros H. destruct (IH H) as (pre & ds & post & -> & Hp & Hd & Hq).
    exists (String c pre), ds, post. repeat split; try apply Hd; trivial.
    simpl. now rewrite E, Hp.
Qed.

Lemma no_digit_app (a b : string) :
  no_digit (a ++ b) = no_digit a && no_digit b.
Proof.
  induction a as [|c a IH]; simpl; [reflexivity|]. now rewrite IH, andb_assoc.
Qed.

Lemma no_digit_no_range (s pre a b post : string) :
  no_digit s = true -> ~ range_at s pre a b post.
Proof.
  intros Hs (-> & [Hne Hd] & _). rewrite no_digit_app in Hs.
  apply andb_true_iff in Hs as [_ Hs]. simpl in Hs. rewrite no_digit_app in Hs.
  destruct a as [|c a]; [congruence|]. simpl in *.
  apply andb_true_iff in Hd as [Hc _]. rewrite Hc in Hs. discriminate.
Qed.

Lemma find_range_first (s pre a b post : string) :
  find_range s = Some (pre, a, b, post) -> first_range s pre a b post.
Proof.
  revert pre. induction s as [|c s IH]; intros pre.
  - cbn [find_range]. destruct (range_here "") as [[[a' b'] post']|] eqn:E;
      [| discriminate].
    intros H. injection H as <- <- <- <-. split; [now apply range_here_spec |].
    intros; simpl; lia.
  - cbn [find_range]. destruct (range_here (String c s)) as [[[a' b'] post']|] eqn:E.
    + intros H. injection H as <- <- <- <-. split; [now apply range_here_spec |].
      intros; simpl; lia.
    + destruct (find_range s) as [[[[p a1] b1] q]|]; [| discriminate].
      intros H. injection H as <- <- <- <-.
      destruct (IH p eq_refl) as [Hr Hleft]. split.
      * exact (proj2 (range_at_cons _ _ _ _ _ _) Hr).
      * intros p2 a2 b2 q2 H2.
        destruct (range_at_nonempty_pre _ _ _ _ _ E H2) as (c2 & p3 & s3 & -> & Hs).
        injection Hs as <- <-. apply (proj1 (range_at_cons _ _ _ _ _ _)) in H2.
        apply Hleft in H2. simpl. lia.
Qed.

Example salary_example :
  let r := add_salary_columns
             {| raw_Job_Title := Some "Data Scientist";
                raw_Company_Name := Some "Acme";
                raw_Location := Some "NY";
                raw_Salary_Estimate := Some "$80K-$120K (Glassdoor est.)";
                raw_Rating := Some (Qc_of_Z 4);
                raw_Sector := Some "Tech";
                raw_Size := Some "Large";
                raw_Revenue := None |} in
  Salary_Min r = Some (Qc_of_Z 80000) /\
  Salary_Max r = Some (Qc_of_Z 120000) /\
  Avg_Salary r = Some (Qc_of_Z 100000).
Proof. cbv zeta. repeat split; apply (f_equal Some), Qc_is_canon; reflexivity. Qed.

Example end_to_end_example :
  let view := filtered_df (df_clean three_postings) ["Tech"] ["Large"; "Small"] (Qc_of_Z 3) in
  map Job_Title view = [Some "Data Scientist"] /\
  total_jobs (summary_metrics view) = 1%nat /\
  avg_rating (summary_metrics view) = Some (Qc_of_Z 4) /\
  mean_avg_salary (summary_metrics view) = Some (Qc_of_Z 100000) /\
  unique_companies (summary_metrics view) = 1%nat.
Proof.
  cbv zeta. repeat split; try reflexivity;
    apply (f_equal Some), Qc_is_canon; reflexivity.
Qed.

Lemma add_salary_columns_fields (r : RawRow) :
  Salary_Min (add_salary_columns r) = salary_min (raw_Salary_Estimate r) /\
  Salary_Max (add_salary_columns r) = salary_max (raw_Salary_Estimate r) /\
  Avg_Salary (add_salary_columns r) = avg_salary (raw_Salary_Estimate r).
Proof. repeat split. Qed.

Lemma salary_max_of_search (s : string) (a b : string) :
  Re.search pat_range s = Some [a; b] ->
  salary_max (Some s) = Some (Qc_of_Z (int_of_digits b * 1000)).
Proof.
  intros H. unfold salary_max, str_extract. rewrite H. simpl.
  unfold thousand. now rewrite Qc_of_Z_mult.
Qed.

Lemma salary_max_no_range (s : string) :
  (forall pre a b post, ~ range_at s pre a b post) -> salary_max (Some s) = NaN.
Proof.
  intros H. unfold salary_max, str_extract. now rewrite (search_no_range s H).
Qed.

Lemma salary_min_no_digit (s : string) :
  no_digit s = true -> salary_min (Some s) = NaN.
Proof.
  intros H. unfold salary_min, str_extract. now rewrite (search_no_digit s H).
Qed.

Lemma salary_min_first (s pre ds post : string) :
  first_number s pre ds post ->
  salary_min (Some s) = Some (Qc_of_Z (int_of_digits ds * 1000)).
Proof.
  intros H. unfold salary_min, str_extract. rewrite (search_first_number _ _ _ _ H).
  simpl. unfold thousand. now rewrite Qc_of_Z_mult.
Qed.

Lemma digit_value_nonneg (c : ascii) : Re.is_digit c = true -> (0 <= digit_value c)%Z.
Proof.
  unfold Re.is_digit, digit_value. cbv zeta. intros H.
  apply andb_true_iff in H as [H _]. apply Nat.leb_le in H. lia.
Qed.

Lemma int_of_digits_from_nonneg (s : string) (acc : Z) :
  all_digits s = true -> (0 <= acc)%Z -> (0 <= int_of_digits_from acc s)%Z.
Proof.
  revert acc. induction s as [|c s IH]; intros acc H Hacc; cbn [int_of_digits_from];
    [exact Hacc|].
  cbn [all_digits] in H. apply andb_true_iff in H as [Hc Hs].
  apply IH; [exact Hs|]. pose proof (digit_value_nonneg c Hc). lia.
Qed.

Lemma int_of_digits_nonneg (s : string) : is_number s -> (0 <= int_of_digits s)%Z.
Proof. intros [_ H]. apply int_of_digits_from_nonneg; [exact H | lia]. Qed.

(** ** IEEE binary64: where the arithmetic of the salaries is exact *)
Lemma Pos_iter_shl (p d : positive) : Pos.iter xO p d = shl p (Pos.to_nat d).
Proof. unfold shl. rewrite Pos2Nat.inj_iter. reflexivity. Qed.

Lemma Nat_iter_shift {A : Type} (f : A -> A) (n : nat) (x : A) :
  Nat.iter n f (f x) = f (Nat.iter n f x).
Proof. induction n as [|n IH]; simpl; [reflexivity | now rewrite IH]. Qed.

Lemma Nat_iter_plus {A : Type} (f : A -> A) (n m : nat) (x : A) :
  Nat.iter (n + m) f x = Nat.iter n f (Nat.iter m f x).
Proof. induction n as [|n IH]; simpl; [reflexivity | now rewrite IH]. Qed.

Lemma iter_pos_nat {A : Type} (f : A -> A) (n : positive) (x : A) :
  iter_pos f n x = Nat.iter (Pos.to_nat n) f x.
Proof.
  revert x. induction n as [n IH | n IH |]; intros x; cbn [iter_pos].
  - rewrite !IH, Pos2Nat.inj_xI, <- Nat_iter_plus.
    replace (S (2 * Pos.to_nat n)) with (Pos.to_nat n + Pos.to_nat n + 1)%nat by lia.
    rewrite (Nat_iter_plus f (Pos.to_nat n + Pos.to_nat n) 1). reflexivity.
  - rewrite !IH, Pos2Nat.inj_xO, <- Nat_iter_plus. f_equal. lia.
  - reflexivity.
Qed.

Lemma shl_S (p : positive) (k : nat) : shl p (S k) = xO (shl p k).
Proof. reflexivity. Qed.

Lemma shl_plus (p : positive) (a b : nat) : shl (shl p a) b = shl p (a + b).
Proof. unfold shl. rewrite Nat.add_comm. now rewrite Nat_iter_plus. Qed.

Lemma shl_Z (p : positive) (k : nat) : Zpos (shl p k) = (Zpos p * 2 ^ Z.of_nat k)%Z.
Proof.
  induction k as [|k IH]; [simpl; lia |].
  rewrite shl_S, Pos2Z.inj_xO, IH, Nat2Z.inj_succ, Z.pow_succ_r by lia. lia.
Qed.

Lemma shl_mul (p q : positive) (a b : nat) :
  (shl p a * shl q b)%positive = shl (p * q) (a + b).
Proof.
  apply Pos2Z.inj. rewrite Pos2Z.inj_mul, !shl_Z, Pos2Z.inj_mul, Nat2Z.inj_add.
  rewrite Z.pow_add_r by lia. lia.
Qed.

Lemma digits2_shl (p : positive) (k : nat) :
  Zpos (digits2_pos (shl p k)) = (Zpos (digits2_pos p) + Z.of_nat k)%Z.
Proof.
  induction k as [|k IH]; [simpl; lia |].
  rewrite shl_S. cbn [digits2_pos]. rewrite Pos2Z.inj_succ, IH. lia.
Qed.

Lemma digits2_bounds (p : positive) :
  (2 ^ (Zpos (digits2_pos p) - 1) <= Zpos p < 2 ^ Zpos (digits2_pos p))%Z.
Proof.
  induction p as [p IH | p IH |]; cbn [digits2_pos].
  - rewrite Pos2Z.inj_succ, (Pos2Z.inj_xI p).
    set (D := Zpos (digits2_pos p)) in *. assert (1 <= D)%Z by (unfold D; lia).
    replace (2 ^ (Z.succ D - 1))%Z with (2 * 2 ^ (D - 1))%Z
      by (rewrite <- Z.pow_succ_r by lia; f_equal; lia).
    rewrite Z.pow_succ_r by lia. clearbody D.
    generalize dependent (2 ^ (D - 1))%Z. generalize dependent (2 ^ D)%Z. intros; lia.
  - rewrite Pos2Z.inj_succ, (Pos2Z.inj_xO p).
    set (D := Zpos (digits2_pos p)) in *. assert (1 <= D)%Z by (unfold D; lia).
    replace (2 ^ (Z.succ D - 1))%Z with (2 * 2 ^ (D - 1))%Z
      by (rewrite <- Z.pow_succ_r by lia; f_equal; lia).
    rewrite Z.pow_succ_r by lia. clearbody D.
    generalize dependent (2 ^ (D - 1))%Z. generalize dependent (2 ^ D)%Z. intros; lia.
  - simpl. lia.
Qed.

Lemma digits2_le (p : positive) (d : Z) :
  (0 <= d)%Z -> (Zpos p < 2 ^ d)%Z -> (Zpos (digits2_pos p) <= d)%Z.
Proof.
  intros Hd H. destruct (digits2_bounds p) as [Hlo _].
  destruct (Z.le_gt_cases (Zpos (digits2_pos p)) d) as [Hle | Hgt]; [exact Hle |].
  exfalso. assert (2 ^ d <= 2 ^ (Zpos (digits2_pos p) - 1))%Z
    by (apply Z.pow_le_mono_r; lia). lia.
Qed.

(** Shifting an exact record right over zero bits keeps it exact. *)
Lemma shr_shl (p : positive) (k j : nat) :
  Nat.iter k shr_1 {| shr_m := Zpos (shl p (k + j)); shr_r := false; shr_s := false |}
  = {| shr_m := Zpos (shl p j); shr_r := false; shr_s := false |}.
Proof.
  revert j. induction k as [|k IH]; intros j; [reflexivity |].
  cbn [Nat.iter nat_rect]. change (nat_rect _ ?x (fun _ => shr_1) k) with (Nat.iter k shr_1 x).
  replace (S k + j)%nat with (k + S j)%nat by lia. rewrite IH. reflexivity.
Qed.

Lemma shr_fexp_exact (P : positive) (T : nat) (E : Z) :
  let d := Zpos (digits2_pos P) in
  (d <= 53)%Z -> (53 <= d + Z.of_nat T)%Z -> (-1074 <= E + (d + Z.of_nat T - 53))%Z ->
  shr_fexp F64.prec F64.emax (Zpos (shl P T)) E loc_Exact
  = ({| shr_m := Zpos (shl P (Z.to_nat (53 - d))); shr_r := false; shr_s := false |},
     (E + (d + Z.of_nat T - 53))%Z).
Proof.
  intros d Hd HT HE. unfold shr_fexp, fexp, emin, F64.prec, F64.emax.
  cbn [Zdigits2 shr_record_of_loc]. rewrite digits2_shl. fold d.
  replace (Z.max (d + Z.of_nat T + E - 53) (3 - 1024 - 53) - E)%Z
    with (d + Z.of_nat T - 53)%Z by lia.
  unfold shr. destruct (d + Z.of_nat T - 53)%Z as [|n|n] eqn:En; try lia.
  - replace (Z.to_nat (53 - d)) with T by lia. f_equal. lia.
  - rewrite iter_pos_nat.
    replace T with (Pos.to_nat n + Z.to_nat (53 - d))%nat at 1 by lia.
    rewrite shr_shl. f_equal.
Qed.

(** Rounding a number whose significant bits fit in 53 is exact. *)
Lemma binary_round_aux_exact (s : bool) (P : positive) (T : nat) (E : Z) :
  let d := Zpos (digits2_pos P) in
  (d <= 53)%Z -> (53 <= d + Z.of_nat T)%Z ->
  (-1074 <= E + (d + Z.of_nat T - 53) <= 971)%Z ->
  binary_round_aux F64.prec F64.emax s (Zpos (shl P T)) E loc_Exact
  = S754_finite s (shl P (Z.to_nat (53 - d))) (E + (d + Z.of_nat T - 53)).
Proof.
  intros d Hd HT HE. unfold binary_round_aux.
  rewrite (shr_fexp_exact P T E) by (fold d; lia). fold d.
  cbn [shr_m loc_of_shr_record round_nearest_even].
  rewrite (shr_fexp_exact P (Z.to_nat (53 - d))) by (fold d; lia). fold d.
  cbn [shr_m]. replace (Z.to_nat (53 - d)) with (Z.to_nat (53 - d)) by reflexivity.
  assert (Hle : (E + (d + Z.of_nat T - 53) + (d + Z.of_nat (Z.to_nat (53 - d)) - 53)
                 <=? F64.emax - F64.prec)%Z = true).
  { apply Z.leb_le. unfold F64.emax, F64.prec. lia. }
  rewrite Hle. f_equal. lia.
Qed.

Lemma binary_round_exact (s : bool) (P : positive) (T : nat) (E : Z) :
  let d := Zpos (digits2_pos P) in
  (d <= 53)%Z ->
  (-1074 <= E + (d + Z.of_nat T - 53) <= 971)%Z ->
  binary_round F64.prec F64.emax s (shl P T) E
  = S754_finite s (shl P (Z.to_nat (53 - d))) (E + (d + Z.of_nat T - 53)).
Proof.
  intros d Hd HE. unfold binary_round, shl_align. rewrite digits2_shl. fold d.
  assert (Hf : fexp F64.prec F64.emax (d + Z.of_nat T + E) = (d + Z.of_nat T + E - 53)%Z)
    by (unfold fexp, emin, F64.prec, F64.emax; lia).
  rewrite Hf.
  replace (d + Z.of_nat T + E - 53 - E)%Z with (d + Z.of_nat T - 53)%Z by lia.
  destruct (d + Z.of_nat T - 53)%Z as [|n|n] eqn:En.
  - rewrite (binary_round_aux_exact s P T E) by (fold d; lia). fold d. f_equal. lia.
  - rewrite (binary_round_aux_exact s P T E) by (fold d; lia). fold d. f_equal. lia.
  - rewrite Pos_iter_shl, shl_plus.
    rewrite (binary_round_aux_exact s P (T + Pos.to_nat n)) by (fold d; lia). fold d.
    f_equal. lia.
Qed.

Lemma digits2_mono (p q : positive) :
  (Zpos p <= Zpos q)%Z -> (Zpos (digits2_pos p) <= Zpos (digits2_pos q))%Z.
Proof.
  intros H. apply digits2_le; [lia |].
  destruct (digits2_bounds q) as [_ Hq]. lia.
Qed.

(** The double nearest to an integer whose significant bits fit in 53 is
    that integer. *)
Lemma of_Z_shl (P : positive) (T : nat) :
  let d := Zpos (digits2_pos P) in
  (d <= 53)%Z -> (Z.of_nat T <= 900)%Z ->
  F64.of_Z (Zpos (shl P T))
  = S754_finite false (shl P (Z.to_nat (53 - d))) (d + Z.of_nat T - 53).
Proof.
  intros d Hd HT. unfold F64.of_Z, binary_normalize.
  rewrite (binary_round_exact false P T 0) by (fold d; lia). reflexivity.
Qed.

Lemma Q2Qc_eq (p q : Q) : p == q -> Q2Qc p = Q2Qc q.
Proof. intros H. apply Qc_is_canon. simpl. now rewrite !Qred_correct. Qed.

Lemma value_finite (m : positive) (e z : Z) :
  (0 <= e -> z = Zpos m * 2 ^ e)%Z ->
  (e < 0 -> Zpos m = z * 2 ^ (- e))%Z ->
  F64.value (S754_finite false m e) = Some (Qc_of_Z z).
Proof.
  intros Hpos Hneg. unfold F64.value, Qc_of_Z. f_equal. destruct e as [|k|k].
  - rewrite (Hpos ltac:(lia)). reflexivity.
  - rewrite (Hpos ltac:(lia)). reflexivity.
  - apply Q2Qc_eq. unfold Qeq. cbn [Qnum Qden inject_Z].
    rewrite (Hneg ltac:(lia)), Pos2Z.inj_pow. cbn [Z.opp]. lia.
Qed.

Lemma value_of_Z_shl (P : positive) (T : nat) :
  (Zpos (digits2_pos P) <= 53)%Z -> (Z.of_nat T <= 900)%Z ->
  F64.value (F64.of_Z (Zpos (shl P T))) = Some (Qc_of_Z (Zpos (shl P T))).
Proof.
  intros Hd HT. rewrite of_Z_shl by assumption.
  set (d := Zpos (digits2_pos P)) in *.
  apply value_finite; intros He; rewrite !shl_Z.
  - replace (Z.of_nat T) with (Z.of_nat (Z.to_nat (53 - d)) + (d + Z.of_nat T - 53))%Z
      at 1 by lia.
    rewrite Z.pow_add_r by lia. lia.
  - replace (Z.of_nat (Z.to_nat (53 - d))) with (Z.of_nat T + - (d + Z.of_nat T - 53))%Z
      by lia.
    rewrite Z.pow_add_r by lia. lia.
Qed.

(** The product of two such doubles is the product of the integers when
    its significant bits fit in 53 as well. *)
Lemma mul_shl (P1 P2 : positive) (T1 T2 : nat) :
  (Zpos (digits2_pos (P1 * P2)) <= 53)%Z ->
  (Z.of_nat T1 <= 400)%Z -> (Z.of_nat T2 <= 400)%Z ->
  F64.mul (F64.of_Z (Zpos (shl P1 T1))) (F64.of_Z (Zpos (shl P2 T2)))
  = F64.of_Z (Zpos (shl (P1 * P2) (T1 + T2))).
Proof.
  intros Hd HT1 HT2.
  assert (H1 : (Zpos (digits2_pos P1) <= Zpos (digits2_pos (P1 * P2)))%Z)
    by (apply digits2_mono; nia).
  assert (H2 : (Zpos (digits2_pos P2) <= Zpos (digits2_pos (P1 * P2)))%Z)
    by (apply digits2_mono; nia).
  rewrite !of_Z_shl by lia.
  set (d1 := Zpos (digits2_pos P1)) in *. set (d2 := Zpos (digits2_pos P2)) in *.
  set (d := Zpos (digits2_pos (P1 * P2))) in *.
  unfold F64.mul, SFmul. cbn [xorb]. rewrite shl_mul.
  assert (Hdd : (d1 + d2 - 1 <= d)%Z).
  { destruct (digits2_bounds P1) as [L1 _], (digits2_bounds P2) as [L2 _],
      (digits2_bounds (P1 * P2)) as [_ U]. fold d1 d2 d in L1, L2, U.
    assert (Hp : (2 ^ (d1 - 1) * 2 ^ (d2 - 1) <= Zpos (P1 * P2))%Z)
      by (rewrite Pos2Z.inj_mul; apply Z.mul_le_mono_nonneg; lia).
    rewrite <- Z.pow_add_r in Hp by (unfold d1, d2; lia).
    assert (Hlt : (2 ^ (d1 - 1 + (d2 - 1)) < 2 ^ d)%Z) by lia.
    apply Z.pow_lt_mono_r_iff in Hlt; [| lia | unfold d; lia]. lia. }
  rewrite (binary_round_aux_exact false (P1 * P2)) by (fold d; lia). fold d.
  f_equal. lia.
Qed.

Lemma shl_add (p q : positive) (k : nat) :
  (shl p k + shl q k)%positive = shl (p + q) k.
Proof.
  apply Pos2Z.inj. rewrite Pos2Z.inj_add, !shl_Z, Pos2Z.inj_add. lia.
Qed.

Lemma shl_align_shl (P : positive) (k : nat) (e ez : Z) :
  (ez <= e)%Z ->
  fst (shl_align (shl P k) e ez) = shl P (k + Z.to_nat (e - ez)).
Proof.
  intros H. unfold shl_align. destruct (ez - e)%Z as [|n|n] eqn:E; try lia; cbn [fst].
  - replace (Z.to_nat (e - ez)) with 0%nat by lia. now rewrite Nat.add_0_r.
  - rewrite Pos_iter_shl, shl_plus. f_equal. lia.
Qed.

(** The sum of two such doubles written with the same number of zero
    bits is the sum of the integers when its significant bits fit. *)
Lemma add_shl (P1 P2 : positive) (T : nat) :
  (Zpos (digits2_pos (P1 + P2)) <= 53)%Z -> (Z.of_nat T <= 900)%Z ->
  F64.add (F64.of_Z (Zpos (shl P1 T))) (F64.of_Z (Zpos (shl P2 T)))
  = F64.of_Z (Zpos (shl (P1 + P2) T)).
Proof.
  intros Hd HT.
  assert (H1 : (Zpos (digits2_pos P1) <= Zpos (digits2_pos (P1 + P2)))%Z)
    by (apply digits2_mono; lia).
  assert (H2 : (Zpos (digits2_pos P2) <= Zpos (digits2_pos (P1 + P2)))%Z)
    by (apply digits2_mono; lia).
  rewrite !of_Z_shl by lia.
  set (d1 := Zpos (digits2_pos P1)) in *. set (d2 := Zpos (digits2_pos P2)) in *.
  set (d := Zpos (digits2_pos (P1 + P2))) in *.
  unfold F64.add, SFadd. cbn [cond_Zopp].
  set (ez := Z.min (d1 + Z.of_nat T - 53) (d2 + Z.of_nat T - 53)).
  rewrite !shl_align_shl by (unfold ez; lia).
  replace (Z.to_nat (53 - d1) + Z.to_nat (d1 + Z.of_nat T - 53 - ez))%nat
    with (Z.to_nat (Z.of_nat T - ez)) by lia.
  replace (Z.to_nat (53 - d2) + Z.to_nat (d2 + Z.of_nat T - 53 - ez))%nat
    with (Z.to_nat (Z.of_nat T - ez)) by lia.
  rewrite <- Pos2Z.inj_add, shl_add. cbn [binary_normalize].
  rewrite (binary_round_exact false (P1 + P2)) by (fold d; lia). fold d.
  f_equal. lia.
Qed.

(** Halving such a double that ends on a zero bit is exact. *)
Lemma div_2_shl (P : positive) (T : nat) :
  (Zpos (digits2_pos P) <= 53)%Z -> (Z.of_nat T <= 800)%Z ->
  F64.div (F64.of_Z (Zpos (shl P (S T)))) (F64.of_Z 2) = F64.of_Z (Zpos (shl P T)).
Proof.
  intros Hd HT.
  rewrite (of_Z_shl P (S T)), (of_Z_shl P T) by lia.
  set (d := Zpos (digits2_pos P)) in *.
  change (F64.of_Z 2) with (S754_finite false (shl 1 52) (-51)).
  unfold F64.div, SFdiv, SFdiv_core_binary. cbn [xorb Zdigits2].
  rewrite !digits2_shl. fold d. cbn [digits2_pos].
  set (k := Z.to_nat (53 - d)). set (e1 := (d + Z.of_nat (S T) - 53)%Z).
  assert (Hk : (d + Z.of_nat k = 53)%Z) by lia.
  replace (fexp F64.prec F64.emax (d + Z.of_nat k + e1 - (1 + Z.of_nat 52 + -51)))
    with (e1 - 2)%Z by (unfold fexp, emin, F64.prec, F64.emax; lia).
  replace (Z.min (e1 - 2) (e1 - -51)) with (e1 - 2)%Z by lia.
  replace (e1 - -51 - (e1 - 2))%Z with 53%Z by lia.
  assert (Hq : Z.div_eucl (Z.shiftl (Zpos (shl P k)) 53) (Zpos (shl 1 52))
               = (Zpos (shl P (S k)), 0%Z)).
  { assert (Hs : Z.shiftl (Zpos (shl P k)) 53 = (Zpos (shl P (S k)) * Zpos (shl 1 52))%Z).
    { rewrite Z.shiftl_mul_pow2 by lia. rewrite shl_S, Pos2Z.inj_xO.
      change (Zpos (shl 1 52)) with (2 ^ 52)%Z. lia. }
    rewrite Hs.
    pose proof (Z.div_mod (Zpos (shl P (S k)) * Zpos (shl 1 52)) (Zpos (shl 1 52))
                  ltac:(lia)) as Hdm.
    unfold Z.div, Z.modulo in Hdm.
    pose proof (Z.div_mul (Zpos (shl P (S k))) (Zpos (shl 1 52)) ltac:(lia)) as Hdiv.
    pose proof (Z.mod_mul (Zpos (shl P (S k))) (Zpos (shl 1 52)) ltac:(lia)) as Hmod.
    unfold Z.div in Hdiv. unfold Z.modulo in Hmod.
    destruct (Z.div_eucl (Zpos (shl P (S k)) * Zpos (shl 1 52)) (Zpos (shl 1 52)))
      as [q r]. cbn [fst snd] in Hdiv, Hmod. now subst. }
  rewrite Hq.
  assert (Hloc : new_location (Zpos (shl 1 52)) 0 = loc_Exact).
  { unfold new_location. destruct (Z.even (Zpos (shl 1 52))); reflexivity. }
  rewrite Hloc.
  rewrite (binary_round_aux_exact false P (S k)) by (fold d; unfold e1; lia). fold d.
  f_equal. unfold e1. lia.
Qed.

(** What the operations give is NaN or carries the sign they were
    asked for. *)
Lemma binary_round_aux_sign (s : bool) (m e : Z) (l : location) :
  match binary_round_aux F64.prec F64.emax s m e l with
  | S754_zero s' | S754_infinity s' | S754_finite s' _ _ => s' = s
  | S754_nan => True
  end.
Proof.
  unfold binary_round_aux.
  destruct (shr_fexp F64.prec F64.emax m e l) as [mrs' e'].
  destruct (shr_fexp F64.prec F64.emax _ e' loc_Exact) as [mrs'' e''].
  destruct (shr_m mrs''); [reflexivity | | exact I].
  destruct (e'' <=? F64.emax - F64.prec)%Z; reflexivity.
Qed.

Lemma not_negative_round_aux (m e : Z) (l : location) :
  F64.not_negative (binary_round_aux F64.prec F64.emax false m e l).
Proof.
  pose proof (binary_round_aux_sign false m e l) as H. unfold F64.not_negative.
  destruct (binary_round_aux F64.prec F64.emax false m e l); exact H.
Qed.

Lemma not_negative_of_Z (z : Z) : (0 <= z)%Z -> F64.not_negative (F64.of_Z z).
Proof.
  intros H. unfold F64.of_Z, binary_normalize. destruct z as [|p|p]; [reflexivity | | lia].
  unfold binary_round. destruct (shl_align _ _ _) as [mz ez].
  apply not_negative_round_aux.
Qed.

Lemma not_negative_mul (x y : spec_float) :
  F64.not_negative x -> F64.not_negative y -> F64.not_negative (F64.mul x y).
Proof.
  unfold F64.mul, SFmul.
  destruct x as [sx | sx | | sx mx ex], y as [sy | sy | | sy my ey]; cbn [F64.not_negative];
    intros Hx Hy; subst; try exact I; try reflexivity.
  apply not_negative_round_aux.
Qed.

Lemma not_negative_add (x y : spec_float) :
  F64.not_negative x -> F64.not_negative y -> F64.not_negative (F64.add x y).
Proof.
  unfold F64.add, SFadd.
  destruct x as [sx | sx | | sx mx ex], y as [sy | sy | | sy my ey]; cbn [F64.not_negative];
    intros Hx Hy; subst; try exact I; try reflexivity.
  cbn [cond_Zopp]. rewrite <- Pos2Z.inj_add. cbn [binary_normalize].
  unfold binary_round. destruct (shl_align _ _ _) as [mz ez].
  apply not_negative_round_aux.
Qed.

Lemma not_negative_div (x y : spec_float) :
  F64.not_negative x -> F64.not_negative y -> F64.not_negative (F64.div x y).
Proof.
  unfold F64.div, SFdiv.
  destruct x as [sx | sx | | sx mx ex], y as [sy | sy | | sy my ey]; cbn [F64.not_negative];
    intros Hx Hy; subst; try exact I; try reflexivity.
  destruct (SFdiv_core_binary _ _ _ _ _ _) as [[mz ez] lz].
  apply not_negative_round_aux.
Qed.

(** *** The salaries in float64 *)

Lemma of_Z_pos_shl (p : positive) (k : Z) (T : nat) :
  Zpos p = (k * 2 ^ Z.of_nat T)%Z ->
  exists P, k = Zpos P /\ p = shl P T.
Proof.
  intros H. destruct k as [|P|P]; try lia.
  exists P. split; [reflexivity |]. apply Pos2Z.inj. now rewrite shl_Z.
Qed.

Lemma of_Z_scaled (k : Z) (T : nat) :
  (0 <= k < 2 ^ 53)%Z -> (Z.of_nat T <= 900)%Z ->
  F64.value (F64.of_Z (k * 2 ^ Z.of_nat T)) = Some (Qc_of_Z (k * 2 ^ Z.of_nat T)).
Proof.
  intros Hk HT. destruct k as [|P|P]; [reflexivity | | lia].
  rewrite <- shl_Z. apply value_of_Z_shl; [| exact HT].
  apply digits2_le; lia.
Qed.

Lemma mul_1000 (n : Z) :
  (0 <= n)%Z -> (n * 125 < 2 ^ 53)%Z ->
  F64.mul (F64.of_Z n) (F64.of_Z 1000) = F64.of_Z (n * 1000)
  /\ F64.value (F64.of_Z (n * 1000)) = Some (Qc_of_Z (n * 1000)).
Proof.
  intros Hn Hb. split.
  - destruct n as [|p|p]; [reflexivity | | lia].
    change (Zpos p) with (Zpos (shl p 0)) at 1.
    change 1000%Z with (Zpos (shl 125 3)) at 1.
    rewrite mul_shl; [| apply digits2_le; lia | lia | lia].
    f_equal. rewrite shl_Z. cbn [Nat.add]. lia.
  - replace (n * 1000)%Z with (n * 125 * 2 ^ Z.of_nat 3)%Z by (cbn; lia).
    apply of_Z_scaled; lia.
Qed.

Lemma half_of_sum (a b : Z) :
  (0 <= a)%Z -> (0 <= b)%Z -> ((a + b) * 125 < 2 ^ 53)%Z ->
  F64.div (F64.add (F64.of_Z (a * 1000)) (F64.of_Z (b * 1000))) (F64.of_Z 2)
  = F64.of_Z ((a + b) * 500)
  /\ F64.value (F64.of_Z ((a + b) * 500)) = Some (Qc_of_Z ((a + b) * 500)).
Proof.
  intros Ha Hb Hab. split.
  - assert (Hhalf : forall p : positive,
               (Zpos p * 125 < 2 ^ 53)%Z ->
               F64.div (F64.of_Z (Zpos p * 1000)) (F64.of_Z 2) = F64.of_Z (Zpos p * 500)).
    { intros p Hp.
      replace (Zpos p * 1000)%Z with (Zpos (shl (p * 125) 3)) by (rewrite shl_Z; cbn; lia).
      replace (Zpos p * 500)%Z with (Zpos (shl (p * 125) 2)) by (rewrite shl_Z; cbn; lia).
      apply div_2_shl; [apply digits2_le; lia | lia]. }
    assert (Hfin : forall p : positive,
               (Zpos p * 125 < 2 ^ 53)%Z ->
               exists m e, F64.of_Z (Zpos p * 1000) = S754_finite false m e).
    { intros p Hp.
      replace (Zpos p * 1000)%Z with (Zpos (shl (p * 125) 3)) by (rewrite shl_Z; cbn; lia).
      rewrite of_Z_shl; [eauto | apply digits2_le; lia | lia]. }
    destruct a as [|pa|pa], b as [|pb|pb]; try lia.
    + reflexivity.
    + change (0 * 1000)%Z with 0%Z. change (F64.of_Z 0) with (S754_zero false).
      rewrite Z.add_0_l. destruct (Hfin pb ltac:(lia)) as (m & e & Hf).
      rewrite Hf at 1. cbn [F64.add SFadd]. rewrite <- Hf. apply Hhalf. lia.
    + change (0 * 1000)%Z with 0%Z. change (F64.of_Z 0) with (S754_zero false).
      rewrite Z.add_0_r. destruct (Hfin pa ltac:(lia)) as (m & e & Hf).
      rewrite Hf at 1. cbn [F64.add SFadd]. rewrite <- Hf. apply Hhalf. lia.
    + replace (Zpos pa * 1000)%Z with (Zpos (shl (pa * 125) 3)) by (rewrite shl_Z; cbn; lia).
      replace (Zpos pb * 1000)%Z with (Zpos (shl (pb * 125) 3)) by (rewrite shl_Z; cbn; lia).
      rewrite add_shl; [| apply digits2_le; lia | lia].
      replace ((Zpos pa + Zpos pb) * 500)%Z with (Zpos (shl (pa * 125 + pb * 125) 2))
        by (rewrite shl_Z; cbn; lia).
      apply div_2_shl; [apply digits2_le; lia | lia].
  - replace ((a + b) * 500)%Z with ((a + b) * 125 * 2 ^ Z.of_nat 2)%Z by (cbn; lia).
    apply of_Z_scaled; lia.
Qed.

(** ** The salary columns *)
Lemma Salary_Max_float64_of_search (s a b : string) :
  Re.search pat_range s = Some [a; b] ->
  Salary_Max_float64 (Some s) = F64.mul (F64.of_Z (int_of_digits b)) (F64.of_Z 1000).
Proof. intros H. unfold Salary_Max_float64, str_extract. now rewrite H. Qed.

Lemma Salary_Min_float64_of_search (s ds : string) :
  Re.search pat_number s = Some [ds] ->
  Salary_Min_float64 (Some s) = F64.mul (F64.of_Z (int_of_digits ds)) (F64.of_Z 1000).
Proof. intros H. unfold Salary_Min_float64, str_extract. now rewrite H. Qed.

Lemma within_float64 (ds : string) (x : spec_float) (q : float64) :
  is_number ds ->
  x = F64.mul (F64.of_Z (int_of_digits ds)) (F64.of_Z 1000) ->
  q = Some (Qc_of_Z (int_of_digits ds * 1000)) ->
  (int_of_digits ds * 125 < 2 ^ 53)%Z ->
  F64.value x = Some (Qc_of_Z (int_of_digits ds * 1000)) /\ q = F64.value x.
Proof.
  intros Hds -> -> Hb.
  destruct (mul_1000 (int_of_digits ds) (int_of_digits_nonneg ds Hds) Hb) as [-> ->].
  split; reflexivity.
Qed.

(** C2 (as amended). When the text holds [$<a>K-$<b>K], the upper
    salary is the float64 product of [b], the second number of the
    leftmost such place, and 1000 (a text that holds the range has a
    leftmost place, and a text that starts with the range has it there);
    the product is [b * 1000] exactly when [b * 125] is below [2^53],
    and there the exact model agrees with it; when the text holds no
    such range, the upper salary is NaN. *)
Theorem salary_max_is_second_number (s : string) :
  (forall pre a b post,
      first_range s pre a b post ->
      Salary_Max_float64 (Some s)
      = F64.mul (F64.of_Z (int_of_digits b)) (F64.of_Z 1000)
      /\ ((int_of_digits b * 125 < 2 ^ 53)%Z ->
          F64.value (Salary_Max_float64 (Some s))
          = Some (Qc_of_Z (int_of_digits b * 1000))
          /\ salary_max (Some s) = F64.value (Salary_Max_float64 (Some s))))
  /\ ((exists pre a b post, range_at s pre a b post) ->
      exists pre a b post, first_range s pre a b post)
  /\ (forall a b post,
         is_number a -> is_number b ->
         s = ("$" ++ a ++ "K-$" ++ b ++ "K" ++ post)%string ->
         first_range s "" a b post)
  /\ ((forall pre a b post, ~ range_at s pre a b post) ->
      Salary_Max_float64 (Some s) = S754_nan).
Proof.
  split; [| split; [| split]].
  - intros pre a b post H.
    pose proof (search_first_range s pre a b post H) as Hs.
    split; [now apply (Salary_Max_float64_of_search s a b) |].
    apply (within_float64 b).
    + apply H.
    + now apply (Salary_Max_float64_of_search s a b).
    + now apply (salary_max_of_search s a b).
  - apply range_at_first.
  - intros a b post Ha Hb Hs. split; [| intros; simpl; lia].
    split; [exact Hs | split; assumption].
  - intros H. unfold Salary_Max_float64, str_extract.
    now rewrite (search_no_range s H).
Qed.

(** C2 (as stated) fails where float64 rounds: the upper bound
    72057594037929 gives 72057594037928992, not 72057594037929000; and
    an upper bound of 310 digits gives infinity. *)
Lemma salary_max_is_rounded :
  first_range "$1K-$72057594037929K" "" "1" "72057594037929" ""
  /\ F64.value (Salary_Max_float64 (Some "$1K-$72057594037929K"))
     = Some (Qc_of_Z 72057594037928992)
  /\ F64.value (Salary_Max_float64 (Some "$1K-$72057594037929K"))
     <> Some (Qc_of_Z (int_of_digits "72057594037929" * 1000))
  /\ Salary_Max_float64 (Some ("$1K-$1" ++ zeros 309 ++ "K")%string) = S754_infinity false.
Proof.
  assert (E : F64.value (Salary_Max_float64 (Some "$1K-$72057594037929K"))
              = Some (Qc_of_Z 72057594037928992)).
  { vm_compute. apply (f_equal Some), Qc_is_canon. reflexivity. }
  split; [apply find_range_first; reflexivity |]. split; [exact E |]. split.
  - rewrite E. intros H. apply Some_Qc_of_Z_inj in H. vm_compute in H. discriminate H.
  - vm_compute. reflexivity.
Qed.

Lemma salary_max_is_second_number_witness :
  (Salary_Max_float64 (Some "Pay: $80K-$120K (Glassdoor est.)")
   = F64.mul (F64.of_Z (int_of_digits "120")) (F64.of_Z 1000)
   /\ F64.value (Salary_Max_float64 (Some "Pay: $80K-$120K (Glassdoor est.)"))
      = Some (Qc_of_Z (int_of_digits "120" * 1000))
   /\ salary_max (Some "Pay: $80K-$120K (Glassdoor est.)")
      = F64.value (Salary_Max_float64 (Some "Pay: $80K-$120K (Glassdoor est.)")))
  /\ (exists pre a b post, first_range "Pay: $80K-$120K or $90K-$130K" pre a b post)
  /\ first_range "$137K-$171K (Glassdoor est.)" "" "137" "171" " (Glassdoor est.)"
  /\ Salary_Max_float64 (Some "Unknown / Non-Applicable") = S754_nan.
Proof.
  split; [| split; [| split]].
  - destruct (proj1 (salary_max_is_second_number "Pay: $80K-$120K (Glassdoor est.)")
                "Pay: " "80" "120" " (Glassdoor est.)") as [H1 H2].
    { apply find_range_first. reflexivity. }
    split; [exact H1 |]. apply H2. vm_compute. reflexivity.
  - apply (proj1 (proj2 (salary_max_is_second_number "Pay: $80K-$120K or $90K-$130K"))).
    exists "Pay: $80K-$120K or ", "90", "130", "".
    repeat split; (reflexivity || discriminate).
  - apply (proj1 (proj2 (proj2 (salary_max_is_second_number
                                  "$137K-$171K (Glassdoor est.)")))
             "137" "171" " (Glassdoor est.)");
      [split; [discriminate | reflexivity] ..| reflexivity].
  - apply (proj2 (proj2 (proj2 (salary_max_is_second_number "Unknown / Non-Applicable")))).
    intros pre a b post. apply no_digit_no_range. reflexivity.
Defined.

(** C3 (as amended). The lower salary is the float64 product of the
    first decimal integer of the text and 1000: the first run of digits
    met from the left, wherever it stands (every text with a digit has
    one); the product is that integer times 1000 exactly when the
    integer times 125 is below [2^53], and there the exact model agrees
    with it; it is NaN when the text has no digit; and it need not be
    the lower bound [a] of the range [$<a>K-$<b>K] found in the text. *)
Theorem salary_min_is_first_number :
  (forall s pre ds post,
      first_number s pre ds post ->
      Salary_Min_float64 (Some s)
      = F64.mul (F64.of_Z (int_of_digits ds)) (F64.of_Z 1000)
      /\ ((int_of_digits ds * 125 < 2 ^ 53)%Z ->
          F64.value (Salary_Min_float64 (Some s))
          = Some (Qc_of_Z (int_of_digits ds * 1000))
          /\ salary_min (Some s) = F64.value (Salary_Min_float64 (Some s))))
  /\ (forall s, no_digit s = false -> exists pre ds post, first_number s pre ds post)
  /\ (forall s, no_digit s = true -> Salary_Min_float64 (Some s) = S754_nan)
  /\ (exists s pre a b post,
         first_range s pre a b post /\
         F64.value (Salary_Min_float64 (Some s))
         <> Some (Qc_of_Z (int_of_digits a * 1000))).
Proof.
  split; [| split; [| split]].
  - intros s pre ds post H.
    pose proof (search_first_number s pre ds post H) as Hs.
    split; [now apply Salary_Min_float64_of_search |].
    apply (within_float64 ds).
    + apply H.
    + now apply Salary_Min_float64_of_search.
    + now apply (salary_min_first s pre ds post).
  - apply first_number_exists.
  - intros s H. unfold Salary_Min_float64, str_extract.
    now rewrite (search_no_digit s H).
  - exists "2 openings: $80K-$120K", "2 openings: ", "80", "120", "".
    split; [apply find_range_first; reflexivity |].
    assert (E : F64.value (Salary_Min_float64 (Some "2 openings: $80K-$120K"))
                = Some (Qc_of_Z 2000)).
    { vm_compute. apply (f_equal Some), Qc_is_canon. reflexivity. }
    rewrite E. intros H. apply Some_Qc_of_Z_inj in H. vm_compute in H. discriminate H.
Qed.

(** C3 (as stated) fails where float64 rounds: the first number
    9007199254740993 is read as 9007199254740992, so the lower salary
    is 9007199254740992000; and a first number of 310 digits gives
    infinity. *)
Lemma salary_min_is_rounded :
  first_number "9007199254740993 per year" "" "9007199254740993" " per year"
  /\ F64.value (Salary_Min_float64 (Some "9007199254740993 per year"))
     = Some (Qc_of_Z 9007199254740992000)
  /\ F64.value (Salary_Min_float64 (Some "9007199254740993 per year"))
     <> Some (Qc_of_Z (int_of_digits "9007199254740993" * 1000))
  /\ Salary_Min_float64 (Some ("1" ++ zeros 309)%string) = S754_infinity false.
Proof.
  assert (E : F64.value (Salary_Min_float64 (Some "9007199254740993 per year"))
              = Some (Qc_of_Z 9007199254740992000)).
  { vm_compute. apply (f_equal Some), Qc_is_canon. reflexivity. }
  split; [repeat split; (reflexivity || discriminate) |]. split; [exact E |]. split.
  - rewrite E. intros H. apply Some_Qc_of_Z_inj in H. vm_compute in H. discriminate H.
  - vm_compute. reflexivity.
Qed.

Lemma salary_min_is_first_number_witness :
  (Salary_Min_float64 (Some "$80K-$120K (Glassdoor est.)")
   = F64.mul (F64.of_Z (int_of_digits "80")) (F64.of_Z 1000)
   /\ F64.value (Salary_Min_float64 (Some "$80K-$120K (Glassdoor est.)"))
      = Some (Qc_of_Z (int_of_digits "80" * 1000))
   /\ salary_min (Some "$80K-$120K (Glassdoor est.)")
      = F64.value (Salary_Min_float64 (Some "$80K-$120K (Glassdoor est.)")))
  /\ (exists pre ds post, first_number "Up to $95K" pre ds post)
  /\ Salary_Min_float64 (Some "Unknown / Non-Applicable") = S754_nan.
Proof.
  split; [| split].
  - destruct (proj1 salary_min_is_first_number
                "$80K-$120K (Glassdoor est.)" "$" "80" "K-$120K (Glassdoor est.)")
      as [H1 H2].
    { repeat split; (reflexivity || discriminate). }
    split; [exact H1 |]. apply H2. vm_compute. reflexivity.
  - apply (proj1 (proj2 salary_min_is_first_number) "Up to $95K"). reflexivity.
  - apply (proj1 (proj2 (proj2 salary_min_is_first_number))). reflexivity.
Defined.

Lemma search_None_no_range (s : string) :
  Re.search pat_range s = None ->
  forall pre a b post, ~ range_at s pre a b post.
Proof.
  intros Hs pre a b post H.
  destruct (range_at_first s) as (p & a1 & b1 & q & H1); [eauto|].
  apply search_first_range in H1. congruence.
Qed.

(** What [astype(float)] receives from the two patterns is a decimal
    integer, so the conversion never fails. *)
Lemma extracted_number_is_number (s ds : string) :
  str_extract pat_number 0 (Some s) = Some ds -> is_number ds.
Proof.
  unfold str_extract. revert ds.
  induction s as [|c s IH]; intros ds; rewrite search_pat_number.
  - discriminate.
  - destruct (starts_with_digit (String c s)) eqn:E.
    + cbn [nth_error]. intros H. injection H as <-.
      split; [exact (span_digits_nonempty _ E) | exact (span_digits_all (String c s))].
    + apply IH.
Qed.

Lemma extracted_range_is_number (s b : string) :
  str_extract pat_range 1 (Some s) = Some b -> is_number b.
Proof.
  unfold str_extract. revert b.
  induction s as [|c s IH]; intros b; rewrite search_pat_range.
  - destruct (range_here "") as [[[a' b'] post]|] eqn:E; [| discriminate].
    cbn [nth_error]. intros H. injection H as <-.
    now apply range_here_spec in E as (_ & _ & Hb).
  - destruct (range_here (String c s)) as [[[a' b'] post]|] eqn:E; [| apply IH].
    cbn [nth_error]. intros H. injection H as <-.
    now apply range_here_spec in E as (_ & _ & Hb).
Qed.

Lemma avg_salary_nan (est : option string) :
  avg_salary est = NaN <-> salary_min est = NaN \/ salary_max est = NaN.
Proof.
  unfold avg_salary, NaN.
  destruct (salary_min est) as [lo|], (salary_max est) as [hi|]; simpl;
    split; auto; try discriminate; intros [H|H]; discriminate.
Qed.



(** ** Cleaning and filtering *)

Lemma notna_true {A : Type} (cell : option A) : notna cell = true <-> cell <> None.
Proof. destruct cell; simpl; split; congruence. Qed.

Lemma has_critical_present (r : Row) : has_critical r = true <-> present r.
Proof.
  unfold has_critical, present, NaN. rewrite !andb_true_iff, !notna_true. tauto.
Qed.

Lemma has_critical_raw (r : RawRow) :
  has_critical (add_salary_columns r) = negb (misses_critical r).
Proof.
  unfold has_critical, misses_critical, isna. simpl.
  destruct (raw_Job_Title r), (raw_Sector r), (raw_Rating r); reflexivity.
Qed.

Lemma filter_map_comm {A B : Type} (f : A -> B) (p : B -> bool) (l : list A) :
  filter p (map f l) = map f (filter (fun a => p (f a)) l).
Proof.
  induction l as [|a l IH]; simpl; [reflexivity|].
  destruct (p (f a)); simpl; now rewrite IH.
Qed.

Lemma filter_split_length {A : Type} (p : A -> bool) (l : list A) :
  List.length l =
    (List.length (filter p l) + List.length (filter (fun a => negb (p a)) l))%nat.
Proof.
  induction l as [|a l IH]; simpl; [reflexivity|].
  destruct (p a); simpl; lia.
Qed.

Lemma filter_selects {A : Type} (p : A -> bool) (l : list A) :
  selects (fun a => p a = true) l (filter p l).
Proof.
  induction l as [|a l IH]; simpl; [constructor|].
  destruct (p a) eqn:E; [now apply selects_keep |].
  apply selects_drop; [congruence | exact IH].
Qed.

Lemma selects_iff {A : Type} (P Q : A -> Prop) (l l' : list A) :
  (forall a, P a <-> Q a) -> selects P l l' -> selects Q l l'.
Proof.
  intros H. induction 1 as [|a l l' Ha _ IH|a l l' Ha _ IH].
  - constructor.
  - apply selects_keep; [now apply H | exact IH].
  - apply selects_drop; [now rewrite <- H | exact IH].
Qed.

Lemma isin_In (cell : option string) (values : list string) :
  isin cell values = true <-> exists s, cell = Some s /\ In s values.
Proof.
  destruct cell as [s|]; simpl.
  - rewrite existsb_exists. split.
    + intros (x & Hx & E). apply String.eqb_eq in E. subst x. eauto.
    + intros (x & Hx & Hin). injection Hx as <-. exists s. split; [exact Hin|].
      apply String.eqb_refl.
  - split; [discriminate | intros (s & H & _); discriminate].
Qed.

Lemma fge_le (x : float64) (m : Qc) :
  fge x m = true <-> exists a, x = Some a /\ (m <= a)%Qc.
Proof.
  destruct x as [a|]; simpl.
  - rewrite Qc_leb_le. split; [eauto | intros (b & Hb & H); now injection Hb as <-].
  - split; [discriminate | intros (a & H & _); discriminate].
Qed.

Lemma keep_meets (sectors sizes : list string) (m : Qc) (r : Row) :
  keep sectors sizes m r = true <-> meets sectors sizes m r.
Proof.
  unfold keep, meets. rewrite !andb_true_iff, !isin_In, fge_le. tauto.
Qed.

(** C5. Every record of the cleaned dataset has job title, sector and
    rating present; cleaning keeps exactly the source rows that have all
    three, in their order, so the number of rows dropped is the number of
    source rows that miss at least one of them; and the exclusion comes
    before any filtering: no filtered view holds a record that misses one. *)
Theorem df_clean_drops_incomplete_rows (df : list RawRow) :
  Forall present (df_clean df)
  /\ df_clean df = preprocess (filter (fun r => negb (misses_critical r)) df)
  /\ selects present (preprocess df) (df_clean df)
  /\ (List.length df - List.length (df_clean df))%nat
       = List.length (filter misses_critical df)
  /\ (List.length (df_clean df) <= List.length df)%nat
  /\ (forall sectors sizes m,
         Forall present (filtered_df (df_clean df) sectors sizes m) /\
         forall r, In r (filtered_df (df_clean df) sectors sizes m) ->
                   In r (df_clean df)).
Proof.
  assert (Hall : Forall present (df_clean df)).
  { apply Forall_forall. intros r Hr. apply filter_In in Hr as [_ Hr].
    now apply has_critical_present. }
  assert (Heq : df_clean df = preprocess (filter (fun r => negb (misses_critical r)) df)).
  { unfold df_clean, dropna_critical, preprocess. rewrite filter_map_comm.
    f_equal. apply filter_ext. intros r. apply has_critical_raw. }
  assert (Hlen : List.length df =
                 (List.length (df_clean df) + List.length (filter misses_critical df))%nat).
  { rewrite Heq. unfold preprocess. rewrite length_map.
    rewrite (filter_split_length (fun r => negb (misses_critical r)) df) at 1.
    f_equal. f_equal. apply filter_ext. intros r. apply negb_involutive. }
  repeat split.
  - exact Hall.
  - exact Heq.
  - eapply selects_iff; [| apply filter_selects]. intros r. apply has_critical_present.
  - lia.
  - lia.
  - apply Forall_forall. intros r Hr. apply filter_In in Hr as [Hr _].
    now apply (proj1 (Forall_forall _ _) Hall).
  - intros r Hr. now apply filter_In in Hr as [Hr _].
Qed.

(** C1. The filter keeps a record if and only if its sector is one of
    the selected sectors, its size is one of the selected sizes and its
    rating is at least the minimum rating: the view is the cleaned dataset
    without the records that fail, the others at their place and in their
    order; with no sector selected (or no size) the view is empty. *)
Theorem filtered_df_keeps_matching_records
    (clean : DataFrame) (sectors sizes : list string) (min_rating : Qc) :
  (forall r, In r (filtered_df clean sectors sizes min_rating) <->
             In r clean /\ meets sectors sizes min_rating r)
  /\ selects (meets sectors sizes min_rating) clean
       (filtered_df clean sectors sizes min_rating)
  /\ filtered_df clean [] sizes min_rating = []
  /\ filtered_df clean sectors [] min_rating = [].
Proof.
  split; [| split; [| split]].
  - intros r. unfold filtered_df. rewrite filter_In, keep_meets. reflexivity.
  - eapply selects_iff; [| apply filter_selects]. intros r. apply keep_meets.
  - unfold filtered_df. induction clean as [|r l IH]; simpl; [reflexivity|].
    unfold keep at 1. destruct (Sector r); simpl; exact IH.
  - unfold filtered_df. induction clean as [|r l IH]; simpl; [reflexivity|].
    unfold keep at 1. destruct (Sector r), (Size r); simpl;
      rewrite ?andb_false_r; exact IH.
Qed.

(** ** Pages *)

Lemma iloc_slice_nonneg {A : Type} (start stop : Z) (l : list A) :
  (0 <= start <= stop)%Z ->
  iloc_slice start stop l =
    firstn (Z.to_nat (Z.min stop (Z.of_nat (List.length l)))
            - Z.to_nat (Z.min start (Z.of_nat (List.length l))))
           (skipn (Z.to_nat start) l).
Proof.
  intros H. unfold iloc_slice, slice_bound.
  destruct (Z.ltb_spec start 0) as [?|_]; [lia|].
  destruct (Z.ltb_spec stop 0) as [?|_]; [lia|].
  rewrite Z2Nat.inj_sub by lia.
  destruct (Z.le_gt_cases start (Z.of_nat (List.length l))) as [Hs|Hs].
  - now rewrite (Z.min_l start) by lia.
  - rewrite (Z.min_r start), (Z.min_r stop) by lia.
    rewrite Nat.sub_diag. reflexivity.
Qed.

Lemma paginate_nth_error {A : Type} (view : list A) (page_size page_number : Z) (i : nat) :
  (0 < page_size)%Z -> (1 <= page_number)%Z ->
  nth_error (paginate view page_size page_number) i =
    if (Z.of_nat i <? page_size)%Z
    then nth_error view (Z.to_nat ((page_number - 1) * page_size) + i)
    else None.
Proof.
  intros Hps Hpn. unfold paginate.
  rewrite iloc_slice_nonneg by nia.
  rewrite nth_error_firstn, nth_error_skipn.
  set (start := ((page_number - 1) * page_size)%Z).
  assert (0 <= start)%Z by (unfold start; nia).
  destruct (Z.ltb_spec (Z.of_nat i) page_size) as [Hi|Hi];
    destruct (Nat.ltb_spec i
                (Z.to_nat (Z.min (start + page_size) (Z.of_nat (List.length view)))
                 - Z.to_nat (Z.min start (Z.of_nat (List.length view))))) as [Hj|Hj];
    try reflexivity.
  - symmetry. apply nth_error_None. lia.
  - lia.
Qed.

Lemma paginate_length {A : Type} (view : list A) (page_size page_number : Z) :
  (0 < page_size)%Z -> (1 <= page_number)%Z ->
  Z.of_nat (List.length (paginate view page_size page_number)) =
    Z.max 0 (Z.min page_size
               (Z.of_nat (List.length view) - (page_number - 1) * page_size)).
Proof.
  intros Hps Hpn. unfold paginate.
  rewrite iloc_slice_nonneg by nia.
  rewrite length_firstn, length_skipn. nia.
Qed.

Lemma total_pages_ceil (len page_size : Z) :
  (0 <= len)%Z -> (0 < page_size)%Z ->
  exists k, total_pages len page_size = Some k /\
            (len <= k * page_size < len + page_size)%Z.
Proof.
  intros Hl Hps. unfold total_pages.
  destruct (Z.eqb_spec page_size 0) as [?|_]; [lia|].
  pose proof (Z.div_mod len page_size ltac:(lia)) as Hdm.
  pose proof (Z.mod_pos_bound len page_size Hps) as Hb.
  eexists. split; [reflexivity|].
  destruct (Z.eqb_spec (len mod page_size) 0); nia.
Qed.

(** C6. Page [page_number] (counted from 1) of a view holds, in order,
    the records at the indices from [(page_number-1)*page_size] up to but
    not including [page_number*page_size], as far as the view has them;
    the number of pages is the least whole number of pages that hold the
    view, zero for an empty view; of 25 records in pages of 10, page 1
    holds the first ten and page 3 the last five. *)
Theorem paginate_covers_index_range :
  (forall (A : Type) (view : list A) (page_size page_number : Z),
      (0 < page_size)%Z -> (1 <= page_number)%Z ->
      (forall i : nat,
          nth_error (paginate view page_size page_number) i =
            if (Z.of_nat i <? page_size)%Z
            then nth_error view (Z.to_nat ((page_number - 1) * page_size) + i)
            else None)
      /\ Z.of_nat (List.length (paginate view page_size page_number)) =
           Z.max 0 (Z.min page_size
                      (Z.of_nat (List.length view) - (page_number - 1) * page_size)))
  /\ (forall (A : Type) (view : list A) (page_size : Z),
         (0 < page_size)%Z ->
         exists k,
           total_pages (Z.of_nat (List.length view)) page_size = Some k /\
           (Z.of_nat (List.length view) <= k * page_size)%Z /\
           (forall j, (Z.of_nat (List.length view) <= j * page_size)%Z -> (k <= j)%Z) /\
           (view = [] -> k = 0%Z))
  /\ (forall (A : Type) (view : list A),
         List.length view = 25%nat ->
         total_pages 25 10 = Some 3%Z /\
         paginate view 10 1 = firstn 10 view /\
         paginate view 10 3 = skipn 20 view /\
         List.length (paginate view 10 3) = 5%nat).
Proof.
  split; [| split].
  - intros A view ps pn Hps Hpn. split.
    + intros i. now apply paginate_nth_error.
    + now apply paginate_length.
  - intros A view ps Hps.
    destruct (total_pages_ceil (Z.of_nat (List.length view)) ps) as (k & Hk & Hle & Hlt);
      [lia | lia |].
    exists k. repeat split; trivial.
    + intros j Hj. nia.
    + intros ->. simpl in *. nia.
  - intros A view Hlen. split; [reflexivity|].
    assert (H1 : paginate view 10 1 = firstn 10 view).
    { unfold paginate. rewrite iloc_slice_nonneg by lia. rewrite Hlen. reflexivity. }
    assert (H3 : paginate view 10 3 = firstn 5 (skipn 20 view)).
    { unfold paginate. rewrite iloc_slice_nonneg by lia. rewrite Hlen. reflexivity. }
    rewrite H1, H3. repeat split.
    + apply firstn_all2. rewrite length_skipn. lia.
    + rewrite length_firstn, length_skipn. lia.
Qed.

Lemma paginate_covers_index_range_witness :
  ((forall i : nat,
       nth_error (paginate [1; 2; 3; 4; 5; 6; 7]%nat 5 2) i =
         if (Z.of_nat i <? 5)%Z
         then nth_error [1; 2; 3; 4; 5; 6; 7]%nat (Z.to_nat ((2 - 1) * 5) + i)
         else None)
   /\ Z.of_nat (List.length (paginate [1; 2; 3; 4; 5; 6; 7]%nat 5 2)) =
        Z.max 0 (Z.min 5 (Z.of_nat (List.length [1; 2; 3; 4; 5; 6; 7]%nat) - (2 - 1) * 5)))
  /\ (exists k,
         total_pages (Z.of_nat (List.length [1; 2; 3; 4; 5; 6; 7]%nat)) 5 = Some k /\
         (Z.of_nat (List.length [1; 2; 3; 4; 5; 6; 7]%nat) <= k * 5)%Z /\
         (forall j, (Z.of_nat (List.length [1; 2; 3; 4; 5; 6; 7]%nat) <= j * 5)%Z ->
                    (k <= j)%Z) /\
         ([1; 2; 3; 4; 5; 6; 7]%nat = [] -> k = 0%Z))
  /\ (total_pages 25 10 = Some 3%Z /\
      paginate (seq 0 25) 10 1 = firstn 10 (seq 0 25) /\
      paginate (seq 0 25) 10 3 = skipn 20 (seq 0 25) /\
      List.length (paginate (seq 0 25) 10 3) = 5%nat).
Proof.
  split; [| split].
  - apply (proj1 paginate_covers_index_range); lia.
  - apply (proj1 (proj2 paginate_covers_index_range)); lia.
  - apply (proj2 (proj2 paginate_covers_index_range)). reflexivity.
Defined.

(** ** Summary metrics *)

Lemma Qc_sum_fillna0 (col : list float64) :
  Qc_sum (map fillna0 col) = Qc_sum (dropna col).
Proof.
  induction col as [|[a|] col IH]; simpl.
  - reflexivity.
  - now rewrite IH.
  - rewrite IH. apply Qcplus_0_l.
Qed.

Lemma count_notna_dropna (col : list float64) :
  count_notna col = List.length (dropna col).
Proof.
  unfold count_notna. induction col as [|[a|] col IH]; simpl; auto.
Qed.

Lemma mean_dropna (col : list float64) :
  mean col =
    match dropna col with
    | [] => NaN
    | _ :: _ =>
        Some (Qc_sum (dropna col) / Qc_of_Z (Z.of_nat (List.length (dropna col))))%Qc
    end.
Proof.
  unfold mean. rewrite Qc_sum_fillna0, count_notna_dropna.
  destruct (dropna col); reflexivity.
Qed.

(** C10. The mean average salary of a view is the sum of the average
    salaries that are numbers divided by how many they are: the records
    whose average salary is NaN are left out (they neither count as zero
    nor turn the mean into NaN), and the mean is NaN only when no record
    of the view has an average salary. *)
Theorem mean_avg_salary_skips_nan :
  (forall view : DataFrame,
      dropna (column Avg_Salary view) <> [] ->
      mean_avg_salary (summary_metrics view) =
        Some (Qc_sum (dropna (column Avg_Salary view))
              / Qc_of_Z (Z.of_nat (List.length (dropna (column Avg_Salary view)))))%Qc)
  /\ (forall view : DataFrame,
         mean_avg_salary (summary_metrics view) = NaN <->
         dropna (column Avg_Salary view) = [])
  /\ (forall a : Qc, mean [Some a; NaN] = Some a /\ mean [NaN; Some a] = Some a).
Proof.
  split; [| split].
  - intros view H. cbn [summary_metrics mean_avg_salary]. rewrite mean_dropna.
    destruct (dropna (column Avg_Salary view)); [congruence | reflexivity].
  - intros view. cbn [summary_metrics mean_avg_salary]. rewrite mean_dropna.
    destruct (dropna (column Avg_Salary view)); split; (reflexivity || discriminate).
  - intros a. rewrite !mean_dropna. simpl.
    change (Qc_of_Z 1) with 1%Qc. split; f_equal; field; apply Q_apart_0_1.
Qed.

Lemma mean_avg_salary_skips_nan_witness :
  mean_avg_salary
    (summary_metrics
       [add_salary_columns (posting (Some "$80K-$120K (Glassdoor est.)"));
        add_salary_columns (posting None);
        add_salary_columns (posting (Some "$60K-$100K (Glassdoor est.)"))])
  = Some (Qc_sum
            (dropna
               (column Avg_Salary
                  [add_salary_columns (posting (Some "$80K-$120K (Glassdoor est.)"));
                   add_salary_columns (posting None);
                   add_salary_columns (posting (Some "$60K-$100K (Glassdoor est.)"))]))
          / Qc_of_Z
              (Z.of_nat
                 (List.length
                    (dropna
                       (column Avg_Salary
                          [add_salary_columns (posting (Some "$80K-$120K (Glassdoor est.)"));
                           add_salary_columns (posting None);
                           add_salary_columns
                             (posting (Some "$60K-$100K (Glassdoor est.)"))])))))%Qc.
Proof.
  apply (proj1 mean_avg_salary_skips_nan). simpl. discriminate.
Defined.

(** ** Counting values *)

Section SortedLists.
Context {A : Type}.

Lemma StronglySorted_snoc (R : A -> A -> Prop) (l : list A) (x : A) :
    StronglySorted R l -> Forall (fun y => R y x) l -> StronglySorted R (l ++ [x]).
  Proof.
    induction 1 as [|a l Hl IH Ha]; intros Hx; simpl.
    - repeat constructor.
    - inversion Hx as [|? ? Hax Hlx]; subst. constructor.
      + now apply IH.
      + apply Forall_app. split; [exact Ha | now constructor].
  Qed.

Lemma StronglySorted_rev (R : A -> A -> Prop) (l : list A) :
    StronglySorted R l -> StronglySorted (fun a b => R b a) (rev l).
  Proof.
    induction 1 as [|a l Hl IH Ha]; simpl; [constructor|].
    apply StronglySorted_snoc; [exact IH | now apply Forall_rev].
  Qed.

Lemma StronglySorted_weaken (R R' : A -> A -> Prop) (l : list A) :
    (forall x y, In x l -> In y l -> R x y -> R' x y) ->
    StronglySorted R l -> StronglySorted R' l.
  Proof.
    intros H Hs. induction Hs as [|a l Hl IH Ha]; [constructor|].
    constructor.
    - apply IH. intros x y Hx Hy. apply H; now right.
    - apply Forall_forall. intros y Hy. apply H; [now left | now right |].
      now apply (proj1 (Forall_forall _ _) Ha).
  Qed.

Lemma StronglySorted_firstn (R : A -> A -> Prop) (n : nat) (l : list A) :
    StronglySorted R l -> StronglySorted R (firstn n l).
  Proof.
    intros Hs. revert n. induction Hs as [|a l Hl IH Ha]; intros [|n]; simpl;
      try constructor.
    - apply IH.
    - apply Forall_forall. intros y Hy.
      apply (proj1 (Forall_forall _ _) Ha).
      rewrite <- (firstn_skipn n l). apply in_or_app. now left.
  Qed.


Lemma StronglySorted_filter (R : A -> A -> Prop) (p : A -> bool) (l : list A) :
  StronglySorted R l -> StronglySorted R (filter p l).
Proof.
  induction 1 as [|a l Hl IH Ha]; simpl; [constructor|].
  destruct (p a); [| exact IH]. constructor; [exact IH|].
  apply Forall_forall. intros y Hy. apply filter_In in Hy as [Hy _].
  now apply (proj1 (Forall_forall _ _) Ha).
Qed.

Lemma StronglySorted_map {B : Type} (f : A -> B) (R : B -> B -> Prop) (l : list A) :
  StronglySorted (fun a b => R (f a) (f b)) l -> StronglySorted R (map f l).
Proof.
  induction 1 as [|a l Hl IH Ha]; simpl; constructor; [exact IH|].
  now apply Forall_map.
Qed.

End SortedLists.

Section CountOrder.

Variable pos : string * nat -> nat.

Lemma sorted_by_classes (o : list (string * nat)) :
  StronglySorted (fun x y => (snd x <= snd y)%nat) o ->
  (forall c, StronglySorted (fun a b => (pos b < pos a)%nat) (filter (count_is c) o)) ->
  StronglySorted (ascending_then_later pos) o.
Proof.
  induction 1 as [|x t Ht IH Hx]; intros Hcls; [constructor|].
  constructor.
  - apply IH. intros c. specialize (Hcls c). simpl in Hcls.
    destruct (count_is c x); [| exact Hcls]. now inversion Hcls.
  - specialize (Hcls (snd x)). simpl in Hcls. unfold count_is at 1 in Hcls.
    rewrite Nat.eqb_refl in Hcls. inversion Hcls as [|? ? _ Hpos]; subst.
    apply Forall_forall. intros y Hy.
    pose proof (proj1 (Forall_forall _ _) Hx y Hy) as Hle. cbv beta in Hle.
    destruct (Nat.eq_dec (snd y) (snd x)) as [E|E]; [| left; lia].
    right. split; [lia|].
    apply (proj1 (Forall_forall _ _) Hpos). apply filter_In. split; [exact Hy|].
    unfold count_is. now apply Nat.eqb_eq.
Qed.

Variable argsort : list (string * nat) -> list (string * nat).
Hypothesis argsort_sorts : sorts_by_count argsort.

Lemma sort_values_desc_perm (l : list (string * nat)) :
  Permutation (sort_values_desc argsort l) l.
Proof.
  unfold sort_values_desc. rewrite <- Permutation_rev.
  rewrite (proj1 (argsort_sorts (rev l))). symmetry. apply Permutation_rev.
Qed.

Hypothesis argsort_stable : stable_by_count argsort.

(** Sorting a table that stands in order of position by descending
    count keeps that order among equal counts. *)
Lemma sort_values_desc_ranked (l : list (string * nat)) :
  StronglySorted (fun a b => (pos a < pos b)%nat) l ->
  StronglySorted
    (fun x y => (snd y < snd x)%nat \/ (snd x = snd y /\ (pos x < pos y)%nat))
    (sort_values_desc argsort l).
Proof.
  intros H. unfold sort_values_desc.
  apply StronglySorted_rev in H.
  assert (Hasc : StronglySorted (ascending_then_later pos) (argsort (rev l))).
  { apply sorted_by_classes; [apply argsort_sorts |].
    intros c. rewrite argsort_stable. now apply StronglySorted_filter. }
  apply StronglySorted_rev in Hasc.
  apply (StronglySorted_weaken (fun a b => ascending_then_later pos b a)); [| exact Hasc].
  intros x y _ _. unfold ascending_then_later. lia.
Qed.

End CountOrder.

(** Insertion sort is such a sort, and a stable one. *)
Lemma insert_by_count_perm (x : string * nat) (l : list (string * nat)) :
  Permutation (insert_by_count x l) (x :: l).
Proof.
  induction l as [|y t IH]; simpl; [reflexivity|].
  destruct (count_leb x y); [reflexivity|].
  rewrite IH. apply perm_swap.
Qed.

Lemma insertion_sort_perm (l : list (string * nat)) : Permutation (insertion_sort l) l.
Proof.
  induction l as [|x t IH]; simpl; [reflexivity|].
  rewrite insert_by_count_perm. now constructor.
Qed.

Lemma insert_by_count_sorted (x : string * nat) (s : list (string * nat)) :
  StronglySorted (fun a b => (snd a <= snd b)%nat) s ->
  StronglySorted (fun a b => (snd a <= snd b)%nat) (insert_by_count x s).
Proof.
  induction 1 as [|y t Ht IH Hy]; simpl; [repeat constructor|].
  unfold count_leb. destruct (Nat.leb_spec (snd x) (snd y)) as [Hle|Hgt].
  - constructor; [now constructor |]. constructor; [exact Hle|].
    eapply Forall_impl; [| exact Hy]. simpl. intros z Hz. lia.
  - constructor; [exact IH |].
    apply Forall_forall. intros z Hz.
    apply (Permutation_in _ (insert_by_count_perm x t)) in Hz.
    destruct Hz as [<-|Hz]; [lia |].
    now apply (proj1 (Forall_forall _ _) Hy).
Qed.

Lemma insertion_sort_sorts : sorts_by_count insertion_sort.
Proof.
  intros l. split; [apply insertion_sort_perm|].
  induction l as [|x t IH]; simpl; [constructor|].
  now apply insert_by_count_sorted.
Qed.

Lemma insert_by_count_filter (c : nat) (x : string * nat) (s : list (string * nat)) :
  filter (count_is c) (insert_by_count x s) = filter (count_is c) (x :: s).
Proof.
  induction s as [|y t IH]; [reflexivity|]. cbn [insert_by_count].
  unfold count_leb. destruct (Nat.leb_spec (snd x) (snd y)) as [Hle|Hgt];
    [reflexivity|].
  cbn [filter] in *. rewrite IH. unfold count_is.
  destruct (Nat.eqb_spec (snd x) c), (Nat.eqb_spec (snd y) c);
    try reflexivity. lia.
Qed.

Lemma insertion_sort_stable : stable_by_count insertion_sort.
Proof.
  intros l c. induction l as [|x t IH]; [reflexivity|].
  cbn [insertion_sort]. rewrite insert_by_count_filter. simpl. now rewrite IH.
Qed.


Lemma existsb_eqb_In (x : string) (l : list string) :
  existsb (String.eqb x) l = true <-> In x l.
Proof.
  rewrite existsb_exists. split.
  - intros (y & Hy & E). apply String.eqb_eq in E. now subst.
  - intros H. exists x. split; [exact H | apply String.eqb_refl].
Qed.

Lemma existsb_eqb_notIn (x : string) (l : list string) :
  existsb (String.eqb x) l = false <-> ~ In x l.
Proof.
  rewrite <- existsb_eqb_In. destruct (existsb (String.eqb x) l); split; congruence.
Qed.

Lemma unique_from_ext (s1 s2 l : list string) :
  (forall x, In x s1 <-> In x s2) -> unique_from s1 l = unique_from s2 l.
Proof.
  revert s1 s2. induction l as [|x t IH]; intros s1 s2 H; simpl; [reflexivity|].
  assert (E : existsb (String.eqb x) s1 = existsb (String.eqb x) s2).
  { destruct (existsb (String.eqb x) s2) eqn:E2.
    - apply existsb_eqb_In. apply H. now apply existsb_eqb_In.
    - apply existsb_eqb_notIn. rewrite H. now apply existsb_eqb_notIn. }
  rewrite E. destruct (existsb (String.eqb x) s2).
  - now apply IH.
  - f_equal. apply IH. intros y. simpl. now rewrite H.
Qed.

Lemma unique_from_In (seen l : list string) (k : string) :
  In k (unique_from seen l) <-> In k l /\ ~ In k seen.
Proof.
  revert seen. induction l as [|x t IH]; intros seen; simpl; [tauto|].
  destruct (existsb (String.eqb x) seen) eqn:E.
  - apply existsb_eqb_In in E. rewrite IH. split.
    + intros [H1 H2]. tauto.
    + intros [[->|H1] H2]; tauto.
  - apply existsb_eqb_notIn in E. simpl. rewrite IH. simpl. split.
    + intros [->|[H1 H2]]; [tauto|]. split; [tauto|]. tauto.
    + intros [[->|H1] H2]; [tauto|].
      destruct (string_dec x k) as [->|Hne]; [tauto|]. right. tauto.
Qed.

Lemma unique_from_NoDup (seen l : list string) : NoDup (unique_from seen l).
Proof.
  revert seen. induction l as [|x t IH]; intros seen; simpl; [constructor|].
  destruct (existsb (String.eqb x) seen); [apply IH|].
  constructor; [| apply IH].
  rewrite unique_from_In. simpl. tauto.
Qed.

Lemma dropna_In {A : Type} (col : list (option A)) (a : A) :
  In a (dropna col) <-> In (Some a) col.
Proof.
  induction col as [|[b|] t IH]; simpl; [tauto | |].
  - rewrite IH. split; intros [H|H]; auto; left; congruence.
  - rewrite IH. split; [auto | intros [H|H]; [discriminate | exact H]].
Qed.

Lemma cell_is_true (v : string) (cell : option string) :
  cell_is v cell = true <-> cell = Some v.
Proof.
  destruct cell as [x|]; simpl; [| split; discriminate].
  rewrite String.eqb_eq. split; congruence.
Qed.

Lemma cell_is_false (v x : string) : x <> v -> cell_is v (Some x) = false.
Proof. intros H. simpl. now apply String.eqb_neq. Qed.

Lemma occurrences_cons (v : string) (cell : option string) (col : list (option string)) :
  occurrences v (cell :: col) =
    ((if cell_is v cell then 1 else 0) + occurrences v col)%nat.
Proof. unfold occurrences. simpl. now destruct (cell_is v cell). Qed.

Lemma occurrences_pos (v : string) (col : list (option string)) :
  In (Some v) col -> (0 < occurrences v col)%nat.
Proof.
  induction col as [|cell t IH]; simpl; [tauto|]. rewrite occurrences_cons.
  intros [->|H].
  - simpl. rewrite String.eqb_refl. lia.
  - specialize (IH H). lia.
Qed.

(** Bumping a key of the table adds one to its entry and leaves the
    others; bumping a new key appends it with count one. *)
Lemma bump_old (k : string) (tbl : list (string * nat)) :
  NoDup (map fst tbl) -> In k (map fst tbl) ->
  bump k tbl =
    map (fun e => (fst e, ((if String.eqb k (fst e) then 1 else 0) + snd e)%nat)) tbl.
Proof.
  induction tbl as [|[k' n] t IH]; simpl; [tauto|].
  intros Hnd Hin. inversion Hnd as [|? ? Hk' Ht]; subst.
  destruct (String.eqb k k') eqn:E.
  - apply String.eqb_eq in E. subst k'. simpl. f_equal.
    rewrite <- (map_id t) at 1. apply map_ext_in. intros [k2 n2] H2. simpl.
    destruct (String.eqb k k2) eqn:E2; [| reflexivity].
    apply String.eqb_eq in E2. subst k2. exfalso. apply Hk'.
    now apply (in_map fst) in H2.
  - simpl. f_equal. apply IH; [exact Ht |].
    destruct Hin as [->|Hin]; [| exact Hin]. now rewrite String.eqb_refl in E.
Qed.

Lemma bump_new (k : string) (tbl : list (string * nat)) :
  ~ In k (map fst tbl) -> bump k tbl = tbl ++ [(k, 1%nat)].
Proof.
  induction tbl as [|[k' n] t IH]; simpl; [reflexivity|].
  intros H. destruct (String.eqb k k') eqn:E.
  - apply String.eqb_eq in E. subst. tauto.
  - f_equal. apply IH. tauto.
Qed.

(** The counting table in closed form: the first table advanced by the
    counts of the column, then the new values in order of first
    appearance, each with its count. *)
Lemma fold_count_cell (col : list (option string)) (acc : list (string * nat)) :
  NoDup (map fst acc) ->
  fold_left count_cell col acc =
    map (fun e => (fst e, (occurrences (fst e) col + snd e)%nat)) acc
    ++ map (fun k => (k, occurrences k col))
         (unique_from (map fst acc) (dropna col)).
Proof.
  revert acc. induction col as [|[x|] t IH]; intros acc Hnd.
  - simpl. rewrite app_nil_r. rewrite <- (map_id acc) at 1.
    apply map_ext. now intros [k n].
  - cbn [fold_left count_cell dropna unique_from].
    destruct (existsb (String.eqb x) (map fst acc)) eqn:E.
    + apply existsb_eqb_In in E.
      assert (Hkeys : map fst (bump x acc) = map fst acc).
      { rewrite (bump_old x acc Hnd E), map_map. reflexivity. }
      rewrite IH by (now rewrite Hkeys). rewrite Hkeys. f_equal.
      * rewrite (bump_old x acc Hnd E), map_map. apply map_ext.
        intros [k n]. simpl. rewrite occurrences_cons. simpl.
        rewrite (String.eqb_sym x k). f_equal. lia.
      * apply map_ext_in. intros k Hk. apply unique_from_In in Hk as [_ Hk].
        rewrite occurrences_cons, cell_is_false; [reflexivity|].
        intros ->. tauto.
    + apply existsb_eqb_notIn in E.
      assert (Hkeys : map fst (bump x acc) = map fst acc ++ [x]).
      { rewrite (bump_new x acc E), map_app. reflexivity. }
      rewrite IH.
      2:{ rewrite Hkeys. apply NoDup_app; [exact Hnd | repeat constructor; simpl; tauto |].
          intros y Hy [<-|[]]. tauto. }
      rewrite Hkeys, (bump_new x acc E), map_app, <- app_assoc. f_equal.
      * apply map_ext_in. intros [k n] Hk. simpl.
        rewrite occurrences_cons, cell_is_false; [reflexivity|].
        intros ->. apply E. now apply (in_map fst) in Hk.
      * simpl. rewrite occurrences_cons. simpl. rewrite String.eqb_refl.
        f_equal; [f_equal; lia |].
        rewrite (unique_from_ext (map fst acc ++ [x]) (x :: map fst acc)).
        2:{ intros y. rewrite in_app_iff. simpl. tauto. }
        apply map_ext_in. intros k Hk. apply unique_from_In in Hk as [_ Hk].
        rewrite occurrences_cons, cell_is_false; [reflexivity|].
        intros ->. apply Hk. now left.
  - cbn [fold_left count_cell dropna]. rewrite IH by exact Hnd. reflexivity.
Qed.

Lemma value_counts_arraylike_closed (col : list (option string)) :
  value_counts_arraylike col =
    map (fun k => (k, occurrences k col)) (unique (dropna col)).
Proof.
  unfold value_counts_arraylike, unique.
  rewrite fold_count_cell by constructor. reflexivity.
Qed.

Lemma first_index_other (a x : string) (t : list (option string)) :
  x <> a -> first_index a (Some x :: t) = S (first_index a t).
Proof. intros H. cbn [first_index]. now rewrite (cell_is_false a x H). Qed.

Lemma first_index_here (x : string) (t : list (option string)) :
  first_index x (Some x :: t) = 0%nat.
Proof. cbn [first_index cell_is]. now rewrite String.eqb_refl. Qed.

(** The values of [unique] stand in order of first appearance. *)
Lemma unique_from_first_index (seen : list string) (col : list (option string)) :
  StronglySorted (fun a b => (first_index a col < first_index b col)%nat)
    (unique_from seen (dropna col)).
Proof.
  revert seen. induction col as [|[x|] t IH]; intros seen.
  - constructor.
  - cbn [dropna unique_from].
    assert (Hshift : forall sn,
               StronglySorted
                 (fun a b => (first_index a (Some x :: t) < first_index b (Some x :: t))%nat)
                 (unique_from sn (dropna t)) \/ ~ In x sn).
    { intros sn. destruct (in_dec string_dec x sn) as [Hin|Hout]; [left | now right].
      apply (StronglySorted_weaken
               (fun a b => (first_index a t < first_index b t)%nat)); [| apply IH].
      intros a b Ha Hb Hab. apply unique_from_In in Ha as [_ Ha].
      apply unique_from_In in Hb as [_ Hb].
      rewrite !first_index_other by (intros ->; tauto). lia. }
    destruct (existsb (String.eqb x) seen) eqn:E.
    + apply existsb_eqb_In in E. destruct (Hshift seen) as [H|H]; tauto.
    + constructor.
      * destruct (Hshift (x :: seen)) as [H|H]; [exact H | simpl in H; tauto].
      * apply Forall_forall. intros b Hb. apply unique_from_In in Hb as [_ Hb].
        rewrite first_index_here, first_index_other; [lia|].
        intros ->. apply Hb. now left.
  - cbn [dropna].
    apply (StronglySorted_weaken
             (fun a b => (first_index a t < first_index b t)%nat)); [| apply IH].
    intros a b _ _ Hab. simpl. lia.
Qed.


Lemma value_counts_perm argsort (col : list (option string)) :
  sorts_by_count argsort ->
  Permutation (value_counts argsort col)
    (map (fun k => (k, occurrences k col)) (unique (dropna col))).
Proof.
  intros Hs. unfold value_counts. rewrite (sort_values_desc_perm argsort Hs).
  now rewrite value_counts_arraylike_closed.
Qed.

Lemma value_counts_In argsort (col : list (option string)) (v : string) (c : nat) :
  sorts_by_count argsort ->
  In (v, c) (value_counts argsort col) <-> In (Some v) col /\ c = occurrences v col.
Proof.
  intros Hs. split.
  - intros H. apply (Permutation_in _ (value_counts_perm argsort col Hs)) in H.
    apply in_map_iff in H as (k & Hk & Hin). injection Hk as -> <-.
    apply unique_from_In in Hin as [Hin _]. now apply dropna_In in Hin.
  - intros [Hin ->].
    apply (Permutation_in _ (Permutation_sym (value_counts_perm argsort col Hs))).
    apply in_map_iff. exists v. split; [reflexivity|].
    apply unique_from_In. split; [now apply dropna_In | simpl; tauto].
Qed.

Lemma value_counts_sorted argsort (col : list (option string)) :
  sorts_by_count argsort -> stable_by_count argsort ->
  StronglySorted (ranks_before col) (value_counts argsort col).
Proof.
  intros Hs Hst. unfold value_counts.
  apply (sort_values_desc_ranked (fun e => first_index (fst e) col) argsort Hs Hst).
  rewrite value_counts_arraylike_closed. apply StronglySorted_map. simpl.
  apply unique_from_first_index.
Qed.

Lemma filter_count_head (c : nat) (x : string * nat) (l l' : list (string * nat)) :
  filter (count_is c) l = x :: l' -> In x l /\ snd x = c.
Proof.
  intros H. assert (Hin : In x (filter (count_is c) l)) by (rewrite H; now left).
  apply filter_In in Hin as [Hin Hc]. split; [exact Hin |].
  now apply Nat.eqb_eq in Hc.
Qed.

(** Two stable sorts of one table agree. *)
Lemma stable_sort_unique (l1 : list (string * nat)) :
  forall l2,
    StronglySorted (fun x y => (snd x <= snd y)%nat) l1 ->
    StronglySorted (fun x y => (snd x <= snd y)%nat) l2 ->
    (forall c, filter (count_is c) l1 = filter (count_is c) l2) ->
    l1 = l2.
Proof.
  induction l1 as [|x t1 IH]; intros l2 H1 H2 Hc.
  - destruct l2 as [|y t2]; [reflexivity |]. exfalso.
    specialize (Hc (snd y)). cbn [filter] in Hc.
    assert (Hyy : count_is (snd y) y = true) by apply Nat.eqb_refl.
    rewrite Hyy in Hc. discriminate Hc.
  - destruct l2 as [|y t2].
    + exfalso. specialize (Hc (snd x)). cbn [filter] in Hc.
      assert (Hxx : count_is (snd x) x = true) by apply Nat.eqb_refl.
      rewrite Hxx in Hc. discriminate Hc.
    + inversion H1 as [|? ? Ht1 Hx]; subst. inversion H2 as [|? ? Ht2 Hy]; subst.
      assert (Hxy : x = y).
      { pose proof (Hc (snd x)) as Hcx. pose proof (Hc (snd y)) as Hcy.
        cbn [filter] in Hcx, Hcy.
        assert (Hxx : count_is (snd x) x = true) by apply Nat.eqb_refl.
        assert (Hyy : count_is (snd y) y = true) by apply Nat.eqb_refl.
        rewrite Hxx in Hcx. rewrite Hyy in Hcy.
        destruct (count_is (snd x) y) eqn:Ey; [now injection Hcx |].
        destruct (count_is (snd y) x) eqn:Ex.
        { unfold count_is in Ex, Ey. apply Nat.eqb_eq in Ex.
          apply Nat.eqb_neq in Ey. congruence. }
        symmetry in Hcx. apply filter_count_head in Hcx as [Hin2 _].
        apply filter_count_head in Hcy as [Hin1 _].
        pose proof (proj1 (Forall_forall _ _) Hx y Hin1) as Hle1.
        pose proof (proj1 (Forall_forall _ _) Hy x Hin2) as Hle2.
        cbv beta in Hle1, Hle2. unfold count_is in Ey. apply Nat.eqb_neq in Ey. lia. }
      subst y. f_equal. apply IH; [exact Ht1 | exact Ht2 |].
      intros c. specialize (Hc c). cbn [filter] in Hc.
      destruct (count_is c x); [now injection Hc | exact Hc].
Qed.

(** Every stable sort of the counts gives the table that
    [stable_argsort] gives. *)
Lemma value_counts_of_stable_sort argsort (col : list (option string)) :
  sorts_by_count argsort -> stable_by_count argsort ->
  value_counts argsort col = value_counts stable_argsort col.
Proof.
  intros Hs Hst. unfold value_counts, sort_values_desc. f_equal.
  apply stable_sort_unique.
  - apply Hs.
  - apply insertion_sort_sorts.
  - intros c. rewrite Hst. symmetry. apply insertion_sort_stable.
Qed.

(** Every sort of the counts, stable or not, puts the more frequent
    values first. *)
Lemma value_counts_descending argsort (col : list (option string)) :
  sorts_by_count argsort ->
  StronglySorted (fun x y => (snd y <= snd x)%nat) (value_counts argsort col).
Proof.
  intros Hs. unfold value_counts, sort_values_desc.
  apply (StronglySorted_rev (fun x y => (snd x <= snd y)%nat)). apply Hs.
Qed.


Example job_counts_example :
  top_n_by_count stable_argsort
    [Some "Analyst"; Some "Engineer"; None; Some "Scientist"; Some "Engineer";
     Some "Scientist"; Some "Manager"] 3
  = [("Engineer", 2%nat); ("Scientist", 2%nat); ("Analyst", 1%nat)].
Proof. reflexivity. Qed.

(** Eighteen titles met once each are charted in the order they were
    met, the first ten of them shown. *)
Example eighteen_titles_example :
  map fst (top_n_by_count stable_argsort eighteen_titles 10)
  = ["Data Scientist"; "Data Analyst"; "Data Engineer"; "ML Engineer";
     "Research Scientist"; "Statistician"; "BI Analyst"; "Quantitative Analyst";
     "Data Architect"; "Analytics Manager"].
Proof. reflexivity. Qed.

(** ** The empty view *)

(** C7. A filter that matches no record is not an error: with an empty
    view the count and the number of companies are zero, both means are
    NaN, there are zero pages, the table is empty, and the counting
    charts have no entry. *)
Theorem empty_view_reports_empty_results
    (argsort : list (string * nat) -> list (string * nat))
    (clean : DataFrame) (sectors sizes : list string) (min_rating : Qc)
    (page_size : Z) :
  sorts_by_count argsort ->
  filtered_df clean sectors sizes min_rating = [] ->
  (0 < page_size)%Z ->
  let view := filtered_df clean sectors sizes min_rating in
  summary_metrics view =
    {| total_jobs := 0; avg_rating := NaN; mean_avg_salary := NaN;
       unique_companies := 0 |}
  /\ total_pages (Z.of_nat (List.length view)) page_size = Some 0%Z
  /\ map display_columns view = []
  /\ job_counts argsort view = []
  /\ sector_counts argsort view = [].
Proof.
  intros Hs Hempty Hps view. subst view. rewrite Hempty.
  assert (Hnil : value_counts argsort [] = []).
  { apply Permutation_nil. symmetry.
    apply (value_counts_perm argsort [] Hs). }
  split; [reflexivity |]. split; [| split; [reflexivity |]].
  - unfold total_pages. destruct (Z.eqb_spec page_size 0) as [?|_]; [lia|].
    reflexivity.
  - unfold job_counts, sector_counts, top_n_by_count, column. simpl.
    now rewrite Hnil.
Qed.

Lemma empty_view_reports_empty_results_witness :
  let view :=
    filtered_df [add_salary_columns (posting (Some "$80K-$120K"))]
      [] ["Large"] (Qc_of_Z 3) in
  summary_metrics view =
    {| total_jobs := 0; avg_rating := NaN; mean_avg_salary := NaN;
       unique_companies := 0 |}
  /\ total_pages (Z.of_nat (List.length view)) 10 = Some 0%Z
  /\ map display_columns view = []
  /\ job_counts insertion_sort view = []
  /\ sector_counts insertion_sort view = [].
Proof.
  apply (empty_view_reports_empty_results insertion_sort
           [add_salary_columns (posting (Some "$80K-$120K"))]
           [] ["Large"] (Qc_of_Z 3) 10);
    [apply insertion_sort_sorts | reflexivity | lia].
Defined.

(** ** Printing and reading numbers *)
Lemma digit_char_digit (d : Z) :
  (0 <= d < 10)%Z ->
  Re.is_digit (digit_char d) = true /\ digit_value (digit_char d) = d.
Proof.
  intros H.
  assert (E : (d = 0 \/ d = 1 \/ d = 2 \/ d = 3 \/ d = 4 \/ d = 5 \/ d = 6 \/ d = 7
               \/ d = 8 \/ d = 9)%Z) by lia.
  repeat (destruct E as [-> | E]; [split; reflexivity |]). subst d. split; reflexivity.
Qed.

Lemma digits_from_S (f : nat) (z : Z) (acc : string) :
  digits_from (S f) z acc =
    if (z <? 10)%Z then String (digit_char (z mod 10)) acc
    else digits_from f (z / 10) (String (digit_char (z mod 10)) acc).
Proof. reflexivity. Qed.

Lemma digits_from_value (f : nat) :
  forall z acc,
    (0 <= z < 10 * 2 ^ Z.of_nat f)%Z ->
    int_of_digits_from 0 (digits_from (S f) z acc) = int_of_digits_from z acc.
Proof.
  induction f as [|f IH]; intros z acc Hz;
    rewrite digits_from_S;
    pose proof (digit_char_digit (z mod 10) (Z.mod_pos_bound z 10 eq_refl)) as [_ Hd];
    destruct (Z.ltb_spec z 10) as [Hlt | Hge];
    try (cbn [int_of_digits_from]; rewrite Hd, Z.mod_small by lia; reflexivity).
  - exfalso. cbn in Hz. lia.
  - rewrite IH.
    + cbn [int_of_digits_from]. rewrite Hd.
      f_equal. pose proof (Z.div_mod z 10). lia.
    + rewrite Nat2Z.inj_succ, Z.pow_succ_r in Hz by lia.
      assert (0 < 2 ^ Z.of_nat f)%Z by (apply Z.pow_pos_nonneg; lia).
      split; [apply Z.div_pos; lia |].
      apply Z.div_lt_upper_bound; lia.
Qed.

Lemma digits_from_app (f : nat) :
  forall z acc, digits_from f z acc = (digits_from f z "" ++ acc)%string.
Proof.
  induction f as [|f IH]; intros z acc; [reflexivity |].
  rewrite !digits_from_S. destruct (z <? 10)%Z; [reflexivity |].
  rewrite (IH _ (String _ acc)), (IH _ (String _ "")), string_app_assoc. reflexivity.
Qed.

Lemma all_digits_app (s t : string) :
  all_digits (s ++ t) = all_digits s && all_digits t.
Proof.
  induction s as [|c s IH]; [reflexivity |]. cbn [append all_digits].
  now rewrite IH, andb_assoc.
Qed.

Lemma digits_from_all_digits (f : nat) :
  forall z, (0 <= z)%Z -> all_digits (digits_from f z "") = true.
Proof.
  induction f as [|f IH]; intros z Hz; [reflexivity |].
  rewrite digits_from_S.
  pose proof (digit_char_digit (z mod 10) (Z.mod_pos_bound z 10 eq_refl)) as [Hd _].
  destruct (z <? 10)%Z.
  - cbn [all_digits]. now rewrite Hd.
  - rewrite digits_from_app, all_digits_app, IH by (apply Z.div_pos; lia).
    cbn [all_digits]. now rewrite Hd.
Qed.

Lemma digits_from_nonempty (f : nat) (z : Z) : digits_from (S f) z "" <> "".
Proof.
  rewrite digits_from_S. destruct (z <? 10)%Z; [discriminate |].
  rewrite digits_from_app. destruct (digits_from f (z / 10) ""); discriminate.
Qed.

Lemma digits_of_Z_number (z : Z) :
  (0 <= z)%Z ->
  is_number (digits_of_Z z) /\ int_of_digits (digits_of_Z z) = z.
Proof.
  intros Hz. unfold digits_of_Z. split; [split |].
  - apply digits_from_nonempty.
  - now apply digits_from_all_digits.
  - unfold int_of_digits. rewrite digits_from_value; [reflexivity |].
    split; [exact Hz |]. destruct (Z.eq_dec z 0) as [-> | Hn]; [reflexivity |].
    rewrite Z2Nat.id by apply Z.log2_nonneg.
    pose proof (Z.log2_spec z ltac:(lia)) as [_ H].
    pose proof (Z.pow_succ_r 2 (Z.log2 z) (Z.log2_nonneg z)).
    assert (0 < 2 ^ Z.log2 z)%Z by (apply Z.pow_pos_nonneg; [lia | apply Z.log2_nonneg]).
    unfold Z.succ in *. lia.
Qed.

Lemma fraction_digits_all_digits (f : nat) :
  forall r d, (0 <= r < d)%Z -> all_digits (fraction_digits f r d) = true.
Proof.
  induction f as [|f IH]; intros r d Hr; [reflexivity |].
  cbn [fraction_digits]. destruct (r =? 0)%Z; [reflexivity |].
  cbn [all_digits]. rewrite IH by (apply Z.mod_pos_bound; lia).
  assert (Hq : (0 <= 10 * r / d < 10)%Z).
  { split; [apply Z.div_pos; lia | apply Z.div_lt_upper_bound; lia]. }
  now rewrite (proj1 (digit_char_digit _ Hq)).
Qed.

(** Long division is exact when the remainder runs out before the fuel
    does: the digits written, read as a whole number over the power of
    ten of their count, are the fraction. *)
Lemma fraction_digits_exact (f : nat) :
  forall r d a,
    (0 <= r < d)%Z -> (d | r * 10 ^ Z.of_nat f)%Z ->
    (int_of_digits_from a (fraction_digits f r d) * d
     = (a * d + r) * 10 ^ Z.of_nat (String.length (fraction_digits f r d)))%Z.
Proof.
  induction f as [|f IH]; intros r d a Hr Hd.
  - cbn [fraction_digits int_of_digits_from String.length].
    cbn in Hd. rewrite Z.mul_1_r in Hd.
    assert (r = 0)%Z.
    { destruct Hd as [k Hk]. destruct (Z.eq_dec k 0) as [-> | Hk0]; [lia |]. nia. }
    cbn. lia.
  - cbn [fraction_digits]. destruct (Z.eqb_spec r 0) as [-> | Hr0].
    + cbn. lia.
    + cbn [int_of_digits_from String.length].
      assert (Hq : (0 <= 10 * r / d < 10)%Z).
      { split; [apply Z.div_pos; lia | apply Z.div_lt_upper_bound; lia]. }
      rewrite (proj2 (digit_char_digit _ Hq)).
      rewrite IH.
      * rewrite Nat2Z.inj_succ, Z.pow_succ_r by lia.
        pose proof (Z.div_mod (10 * r) d ltac:(lia)) as E.
        set (c := (10 * r / d)%Z) in *. set (r' := ((10 * r) mod d)%Z) in *.
        set (p := (10 ^ Z.of_nat (String.length (fraction_digits f r' d)))%Z).
        clearbody c r' p. nia.
      * apply Z.mod_pos_bound. lia.
      * rewrite Nat2Z.inj_succ, Z.pow_succ_r in Hd by lia.
        pose proof (Z.div_mod (10 * r) d ltac:(lia)) as E.
        replace (r * (10 * 10 ^ Z.of_nat f))%Z
          with (d * (10 * r / d) * 10 ^ Z.of_nat f
                + (10 * r) mod d * 10 ^ Z.of_nat f)%Z in Hd by nia.
        apply (Z.divide_add_cancel_r d (d * (10 * r / d) * 10 ^ Z.of_nat f)); [| exact Hd].
        exists (10 * r / d * 10 ^ Z.of_nat f)%Z. ring.
Qed.

(** A denominator that divides a power of ten divides the power of ten
    of its own size. *)
Lemma pow10_divisor (k : nat) :
  forall d, (0 < d)%Z -> (d | 10 ^ Z.of_nat k)%Z -> (d | 10 ^ d)%Z.
Proof.
  induction k as [|k IH]; intros d Hd Hk.
  - assert (d = 1)%Z by (apply Z.divide_1_r_nonneg; [lia | exact Hk]).
    subst d. exists 10%Z. reflexivity.
  - set (g := Z.gcd d 10).
    assert (Hg : (g = 1 \/ g = 2 \/ g = 5 \/ g = 10)%Z).
    { assert (Hg10 : (g | 10)%Z) by apply Z.gcd_divide_r.
      assert (Hpos : (0 < g)%Z).
      { pose proof (Z.gcd_nonneg d 10).
        assert (g <> 0)%Z by (unfold g; intros E; apply Z.gcd_eq_0_r in E; discriminate).
        unfold g in *. lia. }
      assert (Hle : (g <= 10)%Z) by (apply Z.divide_pos_le; [lia | exact Hg10]).
      apply Z.mod_divide in Hg10; [| lia].
      assert (E : (g = 1 \/ g = 2 \/ g = 3 \/ g = 4 \/ g = 5 \/ g = 6 \/ g = 7
                   \/ g = 8 \/ g = 9 \/ g = 10)%Z) by lia.
      clearbody g.
      repeat (destruct E as [-> | E]; [first [discriminate Hg10 | tauto] |]).
      subst g. tauto. }
    assert (Hgd : (g | d)%Z) by apply Z.gcd_divide_l.
    assert (Hg0 : (g <> 0)%Z) by lia.
    pose proof (Z.gcd_div_gcd d 10 g Hg0 eq_refl) as Hco.
    destruct Hgd as [d' Hd']. 
    assert (Hd'pos : (0 < d')%Z) by nia.
    assert (Hdiv : (d / g = d')%Z) by (rewrite Hd'; apply Z.div_mul; exact Hg0).
    rewrite Hdiv in Hco.
    assert (Hd'k : (d' | 10 ^ Z.of_nat k)%Z).
    { apply (Z.gauss d' (10 / g)); [| exact Hco].
      rewrite Nat2Z.inj_succ, Z.pow_succ_r in Hk by lia.
      destruct Hk as [c Hc].
      assert (H10 : (10 = g * (10 / g))%Z).
      { destruct Hg as [E | [E | [E | E]]]; rewrite E; reflexivity. }
      exists c. apply (Z.mul_reg_l _ _ g Hg0).
      rewrite Z.mul_assoc, <- H10, Hc, Hd'. ring. }
    specialize (IH d' Hd'pos Hd'k).
    destruct (Z.eq_dec g 1) as [E1 | E1].
    + rewrite E1, Z.mul_1_r in Hd'. now subst d'.
    + assert (Hlt : (d' + 1 <= d)%Z) by nia.
      apply (Z.divide_trans _ (10 ^ (d' + 1))).
      * rewrite Z.pow_add_r, Z.pow_1_r by lia.
        destruct IH as [a Ha]. destruct (Z.gcd_divide_r d 10) as [b Hb]. fold g in Hb.
        exists (a * b)%Z. rewrite Hd'.
        transitivity ((a * d') * (b * g))%Z; [| ring].
        rewrite <- Ha. f_equal. exact Hb.
      * exists (10 ^ (d - (d' + 1)))%Z. rewrite <- Z.pow_add_r by lia. f_equal. lia.
Qed.

Lemma digit_not_point (c : ascii) : Re.is_digit c = true -> Ascii.eqb c "." = false.
Proof.
  intros H. destruct (Ascii.eqb_spec c "."); [subst; discriminate H | reflexivity].
Qed.

Lemma split_dot_digits (ds rest : string) :
  all_digits ds = true -> split_dot (ds ++ String "." rest) = (ds, Some rest).
Proof.
  induction ds as [|c ds IH]; intros H; [reflexivity |].
  cbn [all_digits] in H. apply andb_true_iff in H as [Hc Hds].
  cbn [append split_dot]. rewrite (digit_not_point c Hc), (IH Hds). reflexivity.
Qed.

Lemma eqb_empty_false (s : string) : s <> "" -> String.eqb s "" = false.
Proof. intros H. now apply String.eqb_neq. Qed.

Lemma unsigned_numeral_point (ip fp : string) :
  is_number ip -> is_number fp ->
  unsigned_numeral (ip ++ String "." fp)
  = Some (Qc_of_Z (int_of_digits ip)
          + Qc_of_Z (int_of_digits fp)
            / Qc_of_Z (10 ^ Z.of_nat (String.length fp)))%Qc.
Proof.
  intros [Hi Hdi] [Hf Hdf]. unfold unsigned_numeral.
  rewrite (split_dot_digits ip fp Hdi). cbn [fst snd].
  now rewrite Hdi, Hdf, (eqb_empty_false ip Hi), (eqb_empty_false fp Hf).
Qed.

Lemma Qc_of_Z_nonzero (z : Z) : z <> 0%Z -> Qc_of_Z z <> 0%Qc.
Proof. intros H E. apply H. now apply (Qc_of_Z_inj z 0). Qed.

Lemma Qc_num_den (q : Qc) : (q * Qc_of_Z (Zpos (Qden q)))%Qc = Qc_of_Z (Qnum q).
Proof.
  apply Qc_is_canon. unfold Qc_of_Z, Qcmult, Q2Qc. cbn [this].
  rewrite !Qred_correct. unfold Qeq, Qmult, inject_Z. cbn [Qnum Qden].
  rewrite Pos.mul_1_r. lia.
Qed.

Lemma Qc_coprime (q : Qc) : Z.gcd (Zpos (Qden q)) (Qnum q) = 1%Z.
Proof. rewrite Z.gcd_comm. apply Qred_iff. apply canon. Qed.

Lemma decimal_num_den (k : nat) (q : Qc) :
  decimal k q -> (0 <= Qnum q)%Z /\ (Zpos (Qden q) | 10 ^ Z.of_nat k)%Z.
Proof.
  intros (N & HN & E).
  assert (HT : (0 < 10 ^ Z.of_nat k)%Z) by (apply Z.pow_pos_nonneg; lia).
  assert (Ez : (Qnum q * 10 ^ Z.of_nat k = N * Zpos (Qden q))%Z).
  { apply Qc_of_Z_inj. rewrite <- !Qc_of_Z_mult, <- E, <- Qc_num_den. ring. }
  split.
  - destruct (Z.lt_ge_cases (Qnum q) 0) as [Hneg | Hok]; [| exact Hok]. nia.
  - apply (Z.gauss _ (Qnum q)); [| apply Qc_coprime].
    exists N. exact Ez.
Qed.

Lemma unsigned_numeral_decimal (s : string) (q : Qc) :
  unsigned_numeral s = Some q -> exists k, decimal k q.
Proof.
  unfold unsigned_numeral. destruct (snd (split_dot s)) as [fp |].
  - destruct (all_digits (fst (split_dot s))) eqn:Hi; [| discriminate].
    destruct (negb (fst (split_dot s) =? "")%string); [| discriminate].
    destruct (all_digits fp) eqn:Hf; [| discriminate].
    destruct (negb (fp =? "")%string); [| discriminate].
    cbn [andb]. intros E. injection E as <-.
    exists (String.length fp),
      (int_of_digits (fst (split_dot s)) * 10 ^ Z.of_nat (String.length fp)
       + int_of_digits fp)%Z.
    assert (HT : (0 < 10 ^ Z.of_nat (String.length fp))%Z)
      by (apply Z.pow_pos_nonneg; lia).
    split.
    + pose proof (int_of_digits_from_nonneg _ 0 Hi (Z.le_refl 0)).
      pose proof (int_of_digits_from_nonneg _ 0 Hf (Z.le_refl 0)).
      unfold int_of_digits. nia.
    + rewrite <- Qc_of_Z_plus, <- Qc_of_Z_mult. field.
      apply Qc_of_Z_nonzero. lia.
  - destruct (all_digits (fst (split_dot s))) eqn:Hi; [| discriminate].
    destruct (negb (fst (split_dot s) =? "")%string); [| discriminate].
    cbn [andb]. intros E. injection E as <-.
    exists 0%nat, (int_of_digits (fst (split_dot s))). split.
    + exact (int_of_digits_from_nonneg _ 0 Hi (Z.le_refl 0)).
    + cbn. change (Qc_of_Z 1) with 1%Qc. ring.
Qed.

(** The text printed for a number that is not negative and has a
    finite decimal expansion reads back as the number. *)
Lemma unsigned_decimal_reads (k : nat) (q : Qc) :
  (0 <= Qnum q)%Z -> (Zpos (Qden q) | 10 ^ Z.of_nat k)%Z ->
  unsigned_numeral (unsigned_decimal (Qnum q) (Qden q)) = Some q.
Proof.
  intros Hn Hk. unfold unsigned_decimal. cbv zeta.
  set (d := Zpos (Qden q)). set (r := (Qnum q mod d)%Z).
  set (fp := fraction_digits (Pos.to_nat (Qden q)) r d).
  set (fp' := if (fp =? "")%string then "0" else fp).
  assert (Hd : (0 < d)%Z) by reflexivity.
  assert (Hr : (0 <= r < d)%Z) by (apply Z.mod_pos_bound; exact Hd).
  assert (Hexact : (int_of_digits fp * d = r * 10 ^ Z.of_nat (String.length fp))%Z).
  { unfold int_of_digits, fp.
    rewrite fraction_digits_exact; [f_equal; lia | exact Hr |].
    rewrite positive_nat_Z. fold d.
    apply Z.divide_mul_r. now apply (pow10_divisor k). }
  assert (Hfp' : is_number fp' /\
                 (int_of_digits fp' * d = r * 10 ^ Z.of_nat (String.length fp'))%Z).
  { unfold fp'. destruct (String.eqb_spec fp "") as [E | E].
    - assert (Hr0 : r = 0%Z).
      { rewrite E in Hexact. unfold int_of_digits in Hexact.
        cbn [int_of_digits_from String.length] in Hexact.
        change (10 ^ Z.of_nat 0)%Z with 1%Z in Hexact. lia. }
      split; [split; [discriminate | reflexivity] |]. rewrite Hr0. reflexivity.
    - split; [| exact Hexact]. split; [exact E |].
      now apply fraction_digits_all_digits. }
  destruct Hfp' as [Hnum Hval].
  assert (Hi : (0 <= Qnum q / d)%Z) by (apply Z.div_pos; lia).
  destruct (digits_of_Z_number _ Hi) as [Hinum Hival].
  change ("." ++ fp')%string with (String "." fp').
  rewrite (unsigned_numeral_point _ fp' Hinum Hnum), Hival. f_equal.
  assert (HT : (0 < 10 ^ Z.of_nat (String.length fp'))%Z)
    by (apply Z.pow_pos_nonneg; lia).
  set (T := (10 ^ Z.of_nat (String.length fp'))%Z) in *.
  assert (HTq : Qc_of_Z T <> 0%Qc) by (apply Qc_of_Z_nonzero; lia).
  assert (Hdq : Qc_of_Z d <> 0%Qc) by (apply Qc_of_Z_nonzero; lia).
  assert (E1 : (Qc_of_Z (int_of_digits fp') * Qc_of_Z d = Qc_of_Z r * Qc_of_Z T)%Qc).
  { now rewrite !Qc_of_Z_mult, Hval. }
  assert (E2 : (Qc_of_Z (Qnum q / d) * Qc_of_Z d + Qc_of_Z r = q * Qc_of_Z d)%Qc).
  { unfold d at 3. rewrite Qc_num_den, Qc_of_Z_mult, Qc_of_Z_plus. f_equal.
    unfold r. pose proof (Z.div_mod (Qnum q) d). lia. }
  assert (E3 : (Qc_of_Z (int_of_digits fp') / Qc_of_Z T = Qc_of_Z r / Qc_of_Z d)%Qc).
  { transitivity ((Qc_of_Z (int_of_digits fp') * Qc_of_Z d)
                  / (Qc_of_Z T * Qc_of_Z d))%Qc;
      [field; split; assumption |].
    rewrite E1. field. split; assumption. }
  rewrite E3.
  transitivity ((Qc_of_Z (Qnum q / d) * Qc_of_Z d + Qc_of_Z r) / Qc_of_Z d)%Qc;
    [field; assumption |].
  rewrite E2. field. assumption.
Qed.

Lemma numeral_unsigned (s : string) :
  (forall s', s <> String "-" s') -> numeral s = unsigned_numeral s.
Proof.
  intros H. destruct s as [|c s]; [reflexivity |].
  destruct c as [[] [] [] [] [] [] [] []]; try reflexivity.
  exfalso. apply (H s). reflexivity.
Qed.

Lemma unsigned_decimal_no_sign (n : Z) (d : positive) :
  (0 <= n)%Z -> forall s', unsigned_decimal n d <> String "-" s'.
Proof.
  intros Hn s' E. unfold unsigned_decimal in E. cbv zeta in E.
  assert (Hi : (0 <= n / Zpos d)%Z) by (apply Z.div_pos; lia).
  destruct (digits_of_Z_number _ Hi) as [[Hne Hall] _].
  destruct (digits_of_Z (n / Zpos d)) as [|c ds]; [now apply Hne |].
  cbn [append] in E. injection E as -> _.
  cbn [all_digits] in Hall. discriminate Hall.
Qed.

Lemma Qcopp_num_den (q : Qc) : Qnum (- q)%Qc = (- Qnum q)%Z /\ Qden (- q)%Qc = Qden q.
Proof.
  unfold Qcopp, Q2Qc. cbn [this]. rewrite Qred_opp, (canon q). split; reflexivity.
Qed.

(** What [numeral] reads, [shortest_decimal] prints in a form that
    [numeral] reads as the same number. *)
Lemma numeral_reads_back (s : string) (q : Qc) :
  numeral s = Some q -> numeral (shortest_decimal q) = Some q.
Proof.
  assert (Hpos : forall p : Qc,
             (exists k, decimal k p) -> numeral (shortest_decimal p) = Some p).
  { intros p [k Hp]. destruct (decimal_num_den k p Hp) as [Hn Hk].
    unfold shortest_decimal.
    destruct (Z.ltb_spec (Qnum p) 0) as [Hneg | _]; [lia |].
    rewrite Z.abs_eq by exact Hn. cbn [append].
    rewrite numeral_unsigned by (now apply unsigned_decimal_no_sign).
    now apply (unsigned_decimal_reads k). }
  intros H.
  assert (Hcases : (exists k, decimal k q) \/
                   (exists p, (exists k, decimal k p) /\ q = (- p)%Qc)).
  { destruct s as [|c s']; [left; now apply (unsigned_numeral_decimal "") |].
    destruct (Ascii.eqb_spec c "-") as [-> | Hc].
    - right. cbn [numeral] in H.
      destruct (unsigned_numeral s') as [p |] eqn:E; [| discriminate].
      injection H as <-. exists p. split; [| reflexivity].
      now apply (unsigned_numeral_decimal s').
    - left. apply (unsigned_numeral_decimal (String c s')).
      rewrite <- numeral_unsigned; [exact H |].
      intros s'' E. injection E as -> _. now apply Hc. }
  destruct Hcases as [Hq | (p & Hp & ->)]; [now apply Hpos |].
  destruct Hp as [k Hp]. destruct (decimal_num_den k p Hp) as [Hn Hk].
  destruct (Qcopp_num_den p) as [En Ed].
  destruct (Z.eq_dec (Qnum p) 0) as [E0 | E0].
  - assert (p = 0%Qc).
    { apply Qc_is_canon. unfold Qeq. rewrite E0. reflexivity. }
    subst p. reflexivity.
  - unfold shortest_decimal. rewrite En, Ed.
    destruct (Z.ltb_spec (- Qnum p) 0) as [_ | Hge]; [| lia].
    rewrite Z.abs_opp, Z.abs_eq by exact Hn.
    cbn [append numeral]. now rewrite (unsigned_decimal_reads k p Hn Hk).
Qed.

Example shortest_decimal_examples :
  map shortest_decimal [Qc_of_Z 4; Q2Qc (17 # 4); Q2Qc (7 # 2); Q2Qc (-1 # 2); Q2Qc (41 # 10)]
  = ["4.0"; "4.25"; "3.5"; "-0.5"; "4.1"].
Proof. reflexivity. Qed.

Lemma numeric_text_app (s t : string) :
  numeric_text (s ++ t) = numeric_text s && numeric_text t.
Proof.
  induction s as [|c s IH]; [reflexivity |]. cbn [append numeric_text].
  now rewrite IH, andb_assoc.
Qed.

Lemma all_digits_numeric (s : string) : all_digits s = true -> numeric_text s = true.
Proof.
  induction s as [|c s IH]; [reflexivity |]. cbn [all_digits numeric_text].
  intros H. apply andb_true_iff in H as [Hc Hs].
  unfold numeric_char. now rewrite Hc, (IH Hs).
Qed.

Lemma unsigned_decimal_numeric (n : Z) (d : positive) :
  (0 <= n)%Z ->
  numeric_text (unsigned_decimal n d) = true /\ unsigned_decimal n d <> "".
Proof.
  intros Hn. unfold unsigned_decimal. cbv zeta.
  assert (Hi : (0 <= n / Zpos d)%Z) by (apply Z.div_pos; lia).
  destruct (digits_of_Z_number _ Hi) as [[Hne Hall] _].
  split.
  - rewrite numeric_text_app, (all_digits_numeric _ Hall).
    cbn [append numeric_text andb].
    destruct (String.eqb _ ""); [reflexivity |].
    apply all_digits_numeric, fraction_digits_all_digits.
    apply Z.mod_pos_bound. reflexivity.
  - destruct (digits_of_Z (n / Zpos d)); [now contradiction Hne | discriminate].
Qed.

Lemma shortest_decimal_numeric (q : Qc) :
  numeric_text (shortest_decimal q) = true /\ shortest_decimal q <> "".
Proof.
  unfold shortest_decimal.
  destruct (unsigned_decimal_numeric (Z.abs (Qnum q)) (Qden q) (Z.abs_nonneg _))
    as [Hnum Hne].
  destruct (Qnum q <? 0)%Z; cbn [append].
  - split; [cbn [numeric_text]; now rewrite Hnum | discriminate].
  - now split.
Qed.

Lemma numeric_text_not_na (s : string) :
  numeric_text s = true -> s <> "" -> is_na plain s = false.
Proof.
  intros Hnum Hne. destruct (is_na plain s) eqn:E; [| reflexivity].
  exfalso. unfold is_na in E. apply existsb_eqb_In in E. simpl in E.
  repeat (destruct E as [E | E];
          [subst s; first [now apply Hne | vm_compute in Hnum; discriminate Hnum] |]).
  exact E.
Qed.

Lemma numeric_text_whole (s : string) : numeric_text s = true -> written_whole s = true.
Proof.
  intros H. unfold written_whole.
  assert (Hcr : holds carriage_return s = false).
  { induction s as [|c s IH]; [reflexivity |].
    cbn [numeric_text] in H. apply andb_true_iff in H as [Hc Hs].
    cbn [holds]. rewrite (IH Hs), orb_false_r.
    destruct (Ascii.eqb_spec c carriage_return) as [-> | _];
      [discriminate Hc | reflexivity]. }
  rewrite Hcr. apply orb_true_r.
Qed.

(** The conversions [plain] read a number back from the text they
    print for it. *)
Lemma plain_reads_numbers_back : reads_numbers_back plain.
Proof.
  intros s q H. destruct (shortest_decimal_numeric q) as [Hnum Hne].
  split; [| split].
  - now apply numeric_text_not_na.
  - exact (numeral_reads_back s q H).
  - now apply numeric_text_whole.
Qed.

(** ** The CSV export read back *)

Lemma special_false (c : ascii) :
  special c = false ->
  Ascii.eqb c delimiter = false /\ Ascii.eqb c quote_char = false /\
  Ascii.eqb c line_feed = false.
Proof.
  unfold special. intros H.
  apply orb_false_iff in H as [H H3]. apply orb_false_iff in H as [H1 H2]. auto.
Qed.

Lemma push_app (fld : string) (c : ascii) (s : string) :
  (push fld c ++ s)%string = (fld ++ String c s)%string.
Proof. unfold push. now rewrite string_app_assoc. Qed.

(** A field that was written without quotes and holds no carriage
    return is read up to the comma or the line feed that ends it. *)
Lemma tokenize_plain_field (s fld : string) (row : list string)
    (rows : list (list string)) (c : ascii) (rest : string) :
  needs_quote s = false ->
  holds carriage_return s = false ->
  c = delimiter \/ c = line_feed ->
  tokenize_from IN_FIELD fld row rows (s ++ String c rest) =
    after_field c (fld ++ s) row rows rest.
Proof.
  revert fld. induction s as [|x s IH]; intros fld Hq Hcr Hc.
  - rewrite string_app_nil_r. cbn [append tokenize_from]. unfold after_field.
    destruct Hc as [-> | ->]; reflexivity.
  - cbn [needs_quote] in Hq. apply orb_false_iff in Hq as [Hx Hq].
    cbn [holds] in Hcr. apply orb_false_iff in Hcr as [H4 Hcr].
    apply special_false in Hx as (H1 & H2 & H3).
    cbn [append tokenize_from]. rewrite H1, H3, H4.
    rewrite (IH (push fld x) Hq Hcr Hc), push_app. reflexivity.
Qed.

(** A field that was written between quotes is read up to its closing
    quote, a doubled quote read as one. *)
Lemma tokenize_quoted_field (s fld : string) (row : list string)
    (rows : list (list string)) (c : ascii) (rest : string) :
  c = delimiter \/ c = line_feed ->
  tokenize_from IN_QUOTED_FIELD fld row rows
    (escape s ++ String quote_char (String c rest)) =
    after_field c (fld ++ s) row rows rest.
Proof.
  revert fld. induction s as [|x s IH]; intros fld Hc.
  - rewrite string_app_nil_r. cbn [escape append tokenize_from]. unfold after_field.
    destruct Hc as [-> | ->]; reflexivity.
  - cbn [escape]. destruct (Ascii.eqb x quote_char) eqn:E.
    + apply Ascii.eqb_eq in E. subst x. cbn [append tokenize_from].
      rewrite (Ascii.eqb_refl quote_char).
      rewrite (IH (push fld quote_char) Hc), push_app. reflexivity.
    + cbn [append tokenize_from]. rewrite E.
      rewrite (IH (push fld x) Hc), push_app. reflexivity.
Qed.

Lemma written_whole_plain (s : string) :
  written_whole s = true -> needs_quote s = false ->
  holds carriage_return s = false.
Proof.
  unfold written_whole. intros H Hq. rewrite Hq in H. cbn [orb] in H.
  now apply negb_true_iff in H.
Qed.

Lemma tokenize_field (s : string) (row : list string)
    (rows : list (list string)) (c : ascii) (rest : string) :
  written_whole s = true ->
  c = delimiter \/ c = line_feed ->
  tokenize_from START_FIELD "" row rows (csv_field s ++ String c rest) =
    after_field c s row rows rest.
Proof.
  intros Hw Hc. unfold csv_field. destruct (needs_quote s) eqn:Hq.
  - cbn [append tokenize_from].
    change (Ascii.eqb quote_char line_feed) with false.
    change (Ascii.eqb quote_char carriage_return) with false.
    rewrite (Ascii.eqb_refl quote_char). cbn match.
    rewrite string_app_assoc. cbn [append].
    now rewrite tokenize_quoted_field.
  - pose proof (written_whole_plain s Hw Hq) as Hcr.
    destruct s as [|x s].
    + cbn [append tokenize_from]. unfold after_field.
      destruct Hc as [-> | ->]; reflexivity.
    + cbn [needs_quote] in Hq. apply orb_false_iff in Hq as [Hx Hq].
      cbn [holds] in Hcr. apply orb_false_iff in Hcr as [H4 Hcr].
      apply special_false in Hx as (H1 & H2 & H3).
      cbn [append tokenize_from]. rewrite H1, H2, H3, H4.
      now rewrite tokenize_plain_field.
Qed.

(** The first field of a line: a line that starts with a line feed is an
    empty line, so the field is not the only one of its record. *)
Lemma tokenize_first_field (s : string) (rows : list (list string)) (rest : string) :
  written_whole s = true ->
  tokenize_from START_RECORD "" [] rows (csv_field s ++ String delimiter rest) =
    tokenize_from START_FIELD "" [s] rows rest.
Proof.
  intros Hw. unfold csv_field. destruct (needs_quote s) eqn:Hq.
  - cbn [append tokenize_from].
    change (Ascii.eqb quote_char line_feed) with false.
    change (Ascii.eqb quote_char carriage_return) with false.
    rewrite (Ascii.eqb_refl quote_char). cbn [orb]. cbn match.
    rewrite string_app_assoc. cbn [append].
    rewrite tokenize_quoted_field by now left. reflexivity.
  - pose proof (written_whole_plain s Hw Hq) as Hcr.
    destruct s as [|x s].
    + reflexivity.
    + cbn [needs_quote] in Hq. apply orb_false_iff in Hq as [Hx Hq].
      cbn [holds] in Hcr. apply orb_false_iff in Hcr as [H4 Hcr].
      apply special_false in Hx as (H1 & H2 & H3).
      cbn [append tokenize_from]. rewrite H1, H2, H3, H4. cbn [orb].
      rewrite tokenize_plain_field by (assumption || now left). reflexivity.
Qed.

Lemma tokenize_fields (fs : list string) (f : string) (row : list string)
    (rows : list (list string)) (rest : string) :
  Forall (fun s => written_whole s = true) (f :: fs) ->
  tokenize_from START_FIELD "" row rows
    (csv_fields (f :: fs) ++ String line_feed rest) =
    tokenize_from START_RECORD "" [] (rows ++ [row ++ f :: fs]) rest.
Proof.
  revert f row. induction fs as [|g fs IH]; intros f row Hw;
    inversion Hw as [|? ? Hf Hfs]; subst.
  - cbn [csv_fields]. rewrite tokenize_field by (assumption || now right). reflexivity.
  - change (csv_fields (f :: g :: fs))
      with (csv_field f ++ String delimiter (csv_fields (g :: fs)))%string.
    rewrite string_app_assoc. cbn [append].
    rewrite tokenize_field by (assumption || now left). unfold after_field.
    rewrite (Ascii.eqb_refl delimiter). rewrite IH by exact Hfs.
    now rewrite <- app_assoc.
Qed.

Lemma tokenize_line (f g : string) (fs : list string)
    (rows : list (list string)) (rest : string) :
  Forall (fun s => written_whole s = true) (f :: g :: fs) ->
  tokenize_from START_RECORD "" [] rows (csv_line (f :: g :: fs) ++ rest) =
    tokenize_from START_RECORD "" [] (rows ++ [f :: g :: fs]) rest.
Proof.
  intros Hw. inversion Hw as [|? ? Hf Hfs]; subst. unfold csv_line.
  change (csv_fields (f :: g :: fs))
    with (csv_field f ++ String delimiter (csv_fields (g :: fs)))%string.
  rewrite !string_app_assoc. cbn [append].
  rewrite tokenize_first_field by exact Hf. now rewrite tokenize_fields.
Qed.

(** The lines written for records of two fields or more, each field
    written whole, are read back as these records. *)
Lemma tokenize_lines (lines done : list (list string)) :
  Forall several_fields lines ->
  Forall (Forall (fun s => written_whole s = true)) lines ->
  tokenize_from START_RECORD "" [] done (csv_lines lines) = done ++ lines.
Proof.
  intros H. revert done. induction H as [|r lines Hr _ IH]; intros done Hw.
  - cbn [csv_lines tokenize_from]. now rewrite app_nil_r.
  - inversion Hw as [|? ? Hwr Hwl]; subst.
    destruct r as [|f [|g fs]]; unfold several_fields in Hr; simpl in Hr; try lia.
    cbn [csv_lines]. rewrite tokenize_line by exact Hwr.
    rewrite IH by exact Hwl. now rewrite <- app_assoc.
Qed.

(** The header of the export. *)
Lemma available_columns_display (columns : list string) (name : string) :
  In name (available_columns columns) -> In name display_column_names.
Proof. unfold available_columns. intros H. now apply filter_In in H. Qed.

Lemma available_columns_required (columns : list string) :
  incl required_columns columns ->
  exists rest,
    available_columns columns = "Job Title" :: "Company Name" :: rest.
Proof.
  intros H.
  assert (Hin : forall name, In name required_columns ->
                             existsb (String.eqb name) columns = true).
  { intros name Hn. apply existsb_exists. exists name.
    split; [now apply H | apply String.eqb_refl]. }
  unfold available_columns, display_column_names. cbn [filter].
  rewrite (Hin "Job Title") by (simpl; tauto).
  rewrite (Hin "Company Name") by (simpl; tauto).
  eauto.
Qed.

Lemma display_column_names_whole (name : string) :
  In name display_column_names -> written_whole name = true.
Proof.
  intros H. simpl in H.
  repeat (destruct H as [<- | H]; [reflexivity |]). destruct H.
Qed.

Lemma field_at_whole (cv : Conversions) (columns : list string) (frame : list RawRow) :
  texts_written_whole columns frame ->
  (forall r q, In r frame -> raw_Rating r = Some q ->
               written_whole (float_repr cv q) = true) ->
  forall name r,
    In name (available_columns columns) -> In r frame ->
    written_whole (field_at cv name r) = true.
Proof.
  intros Ht Hf name r Hn Hr. unfold field_at.
  destruct (is_float_column name).
  - destruct (raw_Rating r) as [q|] eqn:E; [| reflexivity].
    cbn [float_field]. now apply (Hf r q).
  - destruct (text_at name r) as [s|] eqn:E; [| reflexivity].
    cbn [text_field]. now apply (Ht name r s).
Qed.

Lemma tokenize_to_csv (cv : Conversions) (columns : list string) (frame : list RawRow) :
  incl required_columns columns ->
  (forall name r, In name (available_columns columns) -> In r frame ->
                  written_whole (field_at cv name r) = true) ->
  tokenize (to_csv cv columns frame)
  = available_columns columns :: map (row_fields cv columns) frame.
Proof.
  intros Hreq Hw. unfold tokenize, to_csv.
  destruct (available_columns_required columns Hreq) as [rest Hav].
  rewrite tokenize_lines; [reflexivity | |].
  - constructor.
    + unfold several_fields. rewrite Hav. simpl. lia.
    + apply Forall_map, Forall_forall. intros r _. unfold several_fields, row_fields.
      rewrite length_map, Hav. simpl. lia.
  - constructor.
    + apply Forall_forall. intros name Hn.
      apply display_column_names_whole, (available_columns_display columns name Hn).
    + apply Forall_map, Forall_forall. intros r Hr. unfold row_fields.
      apply Forall_map, Forall_forall. intros name Hn. now apply Hw.
Qed.

Section ColumnsBack.

Variable cv : Conversions.
Hypothesis empty_is_na : is_na cv "" = true.

Lemma present_text_fields (cells : list (option string)) :
  (forall s, In (Some s) cells -> is_na cv s = false) ->
  filter (fun f => negb (is_na cv f)) (map text_field cells) = dropna cells.
Proof.
  induction cells as [|[s|] cells IH]; intros H; simpl.
  - reflexivity.
  - rewrite (H s) by now left. simpl. f_equal. apply IH.
    intros s' Hs'. apply H. now right.
  - rewrite empty_is_na. simpl. apply IH. intros s' Hs'. apply H. now right.
Qed.

Lemma infer_text_fields (cells : list (option string)) :
  (forall s, In (Some s) cells -> is_na cv s = false) ->
  infer cv (map text_field cells) = infer cv (dropna cells).
Proof.
  intros H. unfold infer. rewrite (present_text_fields cells H).
  assert (E : filter (fun f => negb (is_na cv f)) (dropna cells) = dropna cells).
  { apply forallb_filter_id. apply forallb_forall. intros s Hs.
    apply dropna_In in Hs. now rewrite (H s Hs). }
  now rewrite E.
Qed.

(** A text column that is read as text comes back cell by cell. *)
Lemma text_column_back (cells : list (option string)) (cell : option string) :
  (forall s, In (Some s) cells -> is_na cv s = false) ->
  read_as_text cv cells -> In cell cells ->
  convert cv (infer cv (map text_field cells)) (text_field cell) = text_value cell.
Proof.
  intros Hna Hkind Hin. rewrite (infer_text_fields cells Hna).
  unfold convert. destruct cell as [s|]; simpl.
  - rewrite (Hna s Hin). destruct Hkind as [Hnil | ->]; [| reflexivity].
    apply dropna_In in Hin. rewrite Hnil in Hin. destruct Hin.
  - now rewrite empty_is_na.
Qed.

Lemma present_float_fields (cells : list float64) :
  (forall q, In (Some q) cells ->
             is_na cv (float_repr cv q) = false /\
             to_number cv (float_repr cv q) = Some q) ->
  forallb (reads_as_number cv)
    (filter (fun f => negb (is_na cv f)) (map (float_field cv) cells)) = true.
Proof.
  intros H. apply forallb_forall. intros f Hf.
  apply filter_In in Hf as [Hf Hna]. apply in_map_iff in Hf as (x & <- & Hx).
  destruct x as [q|]; simpl in *.
  - unfold reads_as_number. now rewrite (proj2 (H q Hx)).
  - rewrite empty_is_na in Hna. discriminate.
Qed.

(** A column of numbers that are read as written comes back cell by
    cell. *)
Lemma float_column_back (cells : list float64) (cell : float64) :
  (forall q, In (Some q) cells ->
             is_na cv (float_repr cv q) = false /\
             to_number cv (float_repr cv q) = Some q) ->
  In cell cells ->
  convert cv (infer cv (map (float_field cv) cells)) (float_field cv cell)
    = float_value cell.
Proof.
  intros H Hin. unfold infer. rewrite (present_float_fields cells H).
  unfold convert. destruct cell as [q|]; simpl.
  - destruct (H q Hin) as [Hna Hnum]. now rewrite Hna, Hnum.
  - now rewrite empty_is_na.
Qed.

End ColumnsBack.

Lemma text_at_cell (name : string) (r : RawRow) (s : string) :
  text_at name r = Some s -> In (Some s) (text_cells r).
Proof.
  unfold text_at, text_cells. intros H.
  repeat match type of H with
         | (if ?b then _ else _) = _ =>
             destruct b; [rewrite <- H; simpl; tauto |]
         end.
  discriminate H.
Qed.

Lemma display_columns_raw (r : RawRow) : display_columns (add_salary_columns r) = r.
Proof. now destruct r. Qed.

(** The records exported are records of the source. *)
Lemma exported_records_of_source (df : list RawRow)
    (selected_sectors selected_sizes : list string) (min_rating : Qc) (r : RawRow) :
  In r (map display_columns
          (filtered_df (df_clean df) selected_sectors selected_sizes min_rating)) ->
  In r df.
Proof.
  intros H. apply in_map_iff in H as (x & <- & Hx).
  unfold filtered_df in Hx. apply filter_In in Hx as [Hx _].
  unfold df_clean, dropna_critical in Hx. apply filter_In in Hx as [Hx _].
  unfold preprocess in Hx. apply in_map_iff in Hx as (raw & <- & Hraw).
  now rewrite display_columns_raw.
Qed.

Lemma map_seq_nth {A B : Type} (h : A -> B) (l : list A) (d : A) :
  map (fun j => h (nth j l d)) (seq 0 (List.length l)) = map h l.
Proof.
  rewrite <- (map_map (fun j => nth j l d) h). f_equal.
  induction l as [|a l IH]; [reflexivity |].
  cbn [List.length seq map nth]. f_equal.
  rewrite <- seq_shift, map_map. exact IH.
Qed.

(** The records of a frame whose fields are written whole, whose texts
    are none of the markers of a missing value and are read as texts,
    and whose numbers are read back as printed, come back as they
    were. *)
Lemma frame_reads_back (cv : Conversions) (columns : list string) (frame : list RawRow) :
  is_na cv "" = true ->
  incl required_columns columns ->
  (forall r s, In r frame -> In (Some s) (text_cells r) -> is_na cv s = false) ->
  (forall r q, In r frame -> raw_Rating r = Some q ->
               is_na cv (float_repr cv q) = false /\
               to_number cv (float_repr cv q) = Some q /\
               written_whole (float_repr cv q) = true) ->
  texts_written_whole columns frame ->
  texts_read_as_text cv columns frame ->
  read_csv cv (to_csv cv columns frame) = Some (frame_values columns frame).
Proof.
  intros Hna Hreq Htext Hnum Hwhole Hkind. unfold read_csv.
  rewrite tokenize_to_csv; [| exact Hreq |].
  2:{ apply field_at_whole; [exact Hwhole |].
      intros r q Hr Hq. now apply (Hnum r q). }
  set (names := available_columns columns).
  assert (Hlen : forallb (fun r => (List.length r <=? List.length names)%nat)
                   (map (row_fields cv columns) frame) = true).
  { apply forallb_forall. intros r Hr. apply in_map_iff in Hr as (x & <- & _).
    unfold row_fields. rewrite length_map. apply Nat.leb_refl. }
  rewrite Hlen. unfold frame_values. fold names. f_equal. f_equal.
  rewrite map_map. apply map_ext_in. intros x Hx.
  unfold row_values. fold names.
  rewrite <- (map_seq_nth (fun name => value_at name x) names "").
  apply map_ext_in. intros j Hj. apply in_seq in Hj.
  assert (Hname : In (nth j names "") names) by (apply nth_In; lia).
  set (name := nth j names "") in *.
  assert (Hcol : column_fields j (map (row_fields cv columns) frame)
                 = map (field_at cv name) frame).
  { unfold column_fields. rewrite map_map. apply map_ext. intros r.
    unfold row_fields. fold names.
    rewrite (nth_indep _ "" (field_at cv "" r)) by (rewrite length_map; lia).
    now rewrite (map_nth (fun n => field_at cv n r)). }
  assert (Hfield : nth j (row_fields cv columns x) "" = field_at cv name x).
  { unfold row_fields. fold names.
    rewrite (nth_indep _ "" (field_at cv "" x)) by (rewrite length_map; lia).
    now rewrite (map_nth (fun n => field_at cv n x)). }
  rewrite Hcol, Hfield. unfold field_at, value_at.
  destruct (is_float_column name) eqn:Hfloat.
  - rewrite <- (map_map raw_Rating (float_field cv)).
    apply float_column_back; [exact Hna | | now apply in_map].
    intros q Hq. apply in_map_iff in Hq as (r & Hrq & Hr).
    destruct (Hnum r q Hr Hrq) as (H1 & H2 & _). now split.
  - rewrite <- (map_map (text_at name) text_field).
    apply text_column_back; [exact Hna | | now apply Hkind | now apply in_map].
    intros s Hs. apply in_map_iff in Hs as (r & Hrs & Hr).
    apply (Htext r s Hr). now apply (text_at_cell name).
Qed.




(** * Further properties of the pipeline *)

(** ** Salaries *)

Lemma Qc_of_Z_half (k : Z) : (Qc_of_Z (2 * k) / two)%Qc = Qc_of_Z k.
Proof.
  unfold two. rewrite <- Qc_of_Z_mult. field.
  intros H. apply (Qc_of_Z_inj 2 0) in H. discriminate.
Qed.

Lemma salary_min_cases (est : option string) :
  salary_min est = NaN \/
  exists ds, is_number ds /\ salary_min est = Some (Qc_of_Z (int_of_digits ds * 1000)).
Proof.
  unfold salary_min. destruct est as [s|]; [| left; reflexivity].
  destruct (str_extract pat_number 0 (Some s)) as [ds|] eqn:E; [| left; reflexivity].
  right. exists ds. split; [exact (extracted_number_is_number s ds E) |].
  simpl. unfold thousand. now rewrite Qc_of_Z_mult.
Qed.

Lemma salary_max_cases (est : option string) :
  salary_max est = NaN \/
  exists ds, is_number ds /\ salary_max est = Some (Qc_of_Z (int_of_digits ds * 1000)).
Proof.
  unfold salary_max. destruct est as [s|]; [| left; reflexivity].
  destruct (str_extract pat_range 1 (Some s)) as [ds|] eqn:E; [| left; reflexivity].
  right. exists ds. split; [exact (extracted_range_is_number s ds E) |].
  simpl. unfold thousand. now rewrite Qc_of_Z_mult.
Qed.

Lemma avg_salary_of_numbers (est : option string) (a b : Z) :
  salary_min est = Some (Qc_of_Z (a * 1000)) ->
  salary_max est = Some (Qc_of_Z (b * 1000)) ->
  avg_salary est = Some (Qc_of_Z ((a + b) * 500)).
Proof.
  intros Ha Hb. unfold avg_salary. rewrite Ha, Hb. simpl.
  rewrite Qc_of_Z_plus.
  replace (a * 1000 + b * 1000)%Z with (2 * ((a + b) * 500))%Z by lia.
  now rewrite Qc_of_Z_half.
Qed.

Lemma salary_max_needs_digit (s : string) :
  salary_max (Some s) <> NaN -> no_digit s = false.
Proof.
  intros H. destruct (no_digit s) eqn:E; [| reflexivity].
  exfalso. apply H. apply salary_max_no_range.
  intros pre a b post. now apply no_digit_no_range.
Qed.

Lemma salary_max_needs_salary_min (est : option string) :
  salary_max est <> NaN -> salary_min est <> NaN.
Proof.
  destruct est as [s|]; [| intros H; now contradiction H].
  intros H. apply salary_max_needs_digit in H.
  destruct (first_number_exists s H) as (pre & ds & post & Hf).
  rewrite (salary_min_first _ _ _ _ Hf). discriminate.
Qed.

Lemma avg_salary_nan_iff_salary_max (est : option string) :
  avg_salary est = NaN <-> salary_max est = NaN.
Proof.
  rewrite avg_salary_nan. split; [| now right].
  intros [H|H]; [| exact H].
  destruct (salary_max est) as [q|] eqn:E; [| reflexivity].
  exfalso. apply (salary_max_needs_salary_min est); [| exact H].
  rewrite E. discriminate.
Qed.

(** X1. The average salary of a record is a number exactly when its
    upper salary is one: a text in which the range [$<a>K-$<b>K] is
    found holds a digit, so the lower salary is found too. The lower
    salary alone does not give an average. *)
Theorem avg_salary_is_number_iff_salary_max_is (r : RawRow) :
  (Salary_Max (add_salary_columns r) <> NaN ->
   Salary_Min (add_salary_columns r) <> NaN)
  /\ (Avg_Salary (add_salary_columns r) = NaN <->
      Salary_Max (add_salary_columns r) = NaN).
Proof.
  cbn [add_salary_columns Salary_Min Salary_Max Avg_Salary].
  split; [apply salary_max_needs_salary_min | apply avg_salary_nan_iff_salary_max].
Qed.

Lemma salary_min_whole (est : option string) :
  salary_min est = NaN \/
  exists n, (0 <= n)%Z /\ salary_min est = Some (Qc_of_Z (n * 1000)).
Proof.
  destruct (salary_min_cases est) as [H | (ds & Hds & H)]; [now left | right].
  exists (int_of_digits ds). split; [now apply int_of_digits_nonneg | exact H].
Qed.

Lemma salary_max_whole (est : option string) :
  salary_max est = NaN \/
  exists n, (0 <= n)%Z /\ salary_max est = Some (Qc_of_Z (n * 1000)).
Proof.
  destruct (salary_max_cases est) as [H | (ds & Hds & H)]; [now left | right].
  exists (int_of_digits ds). split; [now apply int_of_digits_nonneg | exact H].
Qed.

Lemma avg_salary_whole (est : option string) :
  avg_salary est = NaN \/
  exists n, (0 <= n)%Z /\ avg_salary est = Some (Qc_of_Z (n * 500)).
Proof.
  destruct (salary_min_whole est) as [Hlo | (a & Ha & Hlo)].
  { left. apply avg_salary_nan. now left. }
  destruct (salary_max_whole est) as [Hhi | (b & Hb & Hhi)].
  { left. apply avg_salary_nan. now right. }
  right. exists (a + b)%Z. split; [lia |]. now apply avg_salary_of_numbers.
Qed.

(** *** NaN in float64: only a missing cell gives it *)

Lemma shr_1_nonneg (mrs : shr_record) : shr_nonneg mrs -> shr_nonneg (shr_1 mrs).
Proof.
  unfold shr_nonneg. destruct mrs as [m r s]. cbn [shr_m shr_1].
  destruct m as [|[p|p|]|p]; cbn [shr_m]; lia.
Qed.

Lemma shr_fexp_nonneg (m e : Z) (l : location) :
  (0 <= m)%Z -> shr_nonneg (fst (shr_fexp F64.prec F64.emax m e l)).
Proof.
  intros Hm. unfold shr_fexp, shr.
  assert (H0 : shr_nonneg (shr_record_of_loc m l)).
  { unfold shr_nonneg, shr_record_of_loc. destruct l as [|[| |]]; exact Hm. }
  destruct (fexp F64.prec F64.emax (Zdigits2 m + e) - e)%Z as [|p|p]; cbn [fst];
    [exact H0 | | exact H0].
  rewrite iter_pos_nat. induction (Pos.to_nat p) as [|k IH]; [exact H0 |].
  cbn [Nat.iter]. now apply shr_1_nonneg.
Qed.

Lemma round_aux_not_nan (s : bool) (m e : Z) (l : location) :
  (0 <= m)%Z -> binary_round_aux F64.prec F64.emax s m e l <> S754_nan.
Proof.
  intros Hm. unfold binary_round_aux.
  pose proof (shr_fexp_nonneg m e l Hm) as H1.
  destruct (shr_fexp F64.prec F64.emax m e l) as [mrs' e']. cbn [fst] in H1.
  assert (H2 : (0 <= round_nearest_even (shr_m mrs') (loc_of_shr_record mrs'))%Z).
  { unfold shr_nonneg in H1. unfold round_nearest_even.
    destruct (loc_of_shr_record mrs') as [|[| |]]; [lia | | lia | lia].
    destruct (Z.even (shr_m mrs')); lia. }
  pose proof (shr_fexp_nonneg _ e' loc_Exact H2) as H3.
  destruct (shr_fexp F64.prec F64.emax _ e' loc_Exact) as [mrs'' e'']. cbn [fst] in H3.
  unfold shr_nonneg in H3.
  destruct (shr_m mrs'') as [|p|p]; [discriminate | | lia].
  destruct (e'' <=? F64.emax - F64.prec)%Z; discriminate.
Qed.

Lemma normalize_not_nan (m e : Z) (sz : bool) :
  binary_normalize F64.prec F64.emax m e sz <> S754_nan.
Proof.
  unfold binary_normalize. destruct m as [|p|p]; [discriminate | |];
    unfold binary_round; destruct (shl_align _ _ _) as [mz ez];
    apply round_aux_not_nan; lia.
Qed.

Lemma of_Z_not_nan (z : Z) : F64.of_Z z <> S754_nan.
Proof. apply normalize_not_nan. Qed.

Lemma mul_1000_nan (x : spec_float) :
  F64.mul x (F64.of_Z 1000) = S754_nan <-> x = S754_nan.
Proof.
  change (F64.of_Z 1000) with (S754_finite false 8796093022208000 (-43)).
  split; [| intros ->; reflexivity].
  destruct x as [sx | sx | | sx mx ex]; cbn [F64.mul SFmul]; try discriminate;
    [reflexivity |].
  intros H. now apply round_aux_not_nan in H.
Qed.

Lemma add_nan (x y : spec_float) :
  F64.not_negative x -> F64.not_negative y ->
  F64.add x y = S754_nan <-> x = S754_nan \/ y = S754_nan.
Proof.
  intros Hx Hy. split; [| intros [-> | ->]; [reflexivity | now destruct x]].
  destruct x as [sx | sx | | sx mx ex], y as [sy | sy | | sy my ey];
    cbn [F64.not_negative] in Hx, Hy; subst; cbn [F64.add SFadd Bool.eqb];
    try discriminate; auto.
  intros H. now apply normalize_not_nan in H.
Qed.

Lemma div_2_nan (x : spec_float) :
  F64.div x (F64.of_Z 2) = S754_nan <-> x = S754_nan.
Proof.
  change (F64.of_Z 2) with (S754_finite false 4503599627370496 (-51)).
  split; [| intros ->; reflexivity].
  destruct x as [sx | sx | | sx mx ex]; cbn [F64.div SFdiv]; try discriminate;
    [reflexivity |].
  destruct (SFdiv_core_binary _ _ _ _ _ _) as [[mz ez] lz] eqn:E.
  intros H. exfalso. revert H. apply round_aux_not_nan.
  unfold SFdiv_core_binary in E. cbv zeta in E.
  match type of E with
  | (let '(q, r) := Z.div_eucl ?n ?d in _) = _ =>
      pose proof (Z_div_mod n d ltac:(lia)) as Hq;
      assert (Hn : (0 <= n)%Z);
      [| destruct (Z.div_eucl n d) as [q r]; injection E as <- _ _; nia]
  end.
  match goal with
  | |- (0 <= match ?k with _ => _ end)%Z =>
      destruct k; [lia | apply Z.shiftl_nonneg; lia | lia]
  end.
Qed.

Lemma astype_float64_nan (cell : option string) :
  astype_float64 cell = S754_nan <-> astype_float cell = NaN.
Proof.
  destruct cell as [ds|]; cbn [astype_float64 astype_float]; [| tauto].
  split; [intros H; now apply of_Z_not_nan in H | discriminate].
Qed.

Lemma astype_float64_not_negative (pat : Re.regex) (i : nat) (est : option string) :
  (forall s ds, str_extract pat i (Some s) = Some ds -> is_number ds) ->
  F64.not_negative (astype_float64 (str_extract pat i est)).
Proof.
  intros Hnum. destruct est as [s|]; [| exact I].
  destruct (str_extract pat i (Some s)) as [ds|] eqn:E; [| exact I].
  cbn [astype_float64]. apply not_negative_of_Z, int_of_digits_nonneg, (Hnum s ds E).
Qed.

Lemma Salary_Min_float64_not_negative (est : option string) :
  F64.not_negative (Salary_Min_float64 est).
Proof.
  apply not_negative_mul; [| reflexivity].
  apply astype_float64_not_negative, extracted_number_is_number.
Qed.

Lemma Salary_Max_float64_not_negative (est : option string) :
  F64.not_negative (Salary_Max_float64 est).
Proof.
  apply not_negative_mul; [| reflexivity].
  apply astype_float64_not_negative, extracted_range_is_number.
Qed.

Lemma fmul_nan (x : float64) (k : Qc) : fmul x k = NaN <-> x = NaN.
Proof. destruct x; cbn [fmul]; split; (discriminate || reflexivity). Qed.

Lemma Salary_Min_float64_nan (est : option string) :
  Salary_Min_float64 est = S754_nan <-> salary_min est = NaN.
Proof.
  unfold Salary_Min_float64, salary_min.
  now rewrite mul_1000_nan, fmul_nan, astype_float64_nan.
Qed.

Lemma Salary_Max_float64_nan (est : option string) :
  Salary_Max_float64 est = S754_nan <-> salary_max est = NaN.
Proof.
  unfold Salary_Max_float64, salary_max.
  now rewrite mul_1000_nan, fmul_nan, astype_float64_nan.
Qed.

Lemma Avg_Salary_float64_nan (est : option string) :
  Avg_Salary_float64 est = S754_nan <-> avg_salary est = NaN.
Proof.
  unfold Avg_Salary_float64.
  rewrite div_2_nan, add_nan, avg_salary_nan,
    Salary_Min_float64_nan, Salary_Max_float64_nan;
    [reflexivity | apply Salary_Min_float64_not_negative
     | apply Salary_Max_float64_not_negative].
Qed.

(** X2. In float64 the three salaries of a record are never negative
    (no negative number, zero or infinity), and each is NaN exactly
    where the exact model has NaN. *)
Theorem salaries_are_never_negative (est : option string) :
  (F64.not_negative (Salary_Min_float64 est)
   /\ F64.not_negative (Salary_Max_float64 est)
   /\ F64.not_negative (Avg_Salary_float64 est))
  /\ (Salary_Min_float64 est = S754_nan <-> salary_min est = NaN)
  /\ (Salary_Max_float64 est = S754_nan <-> salary_max est = NaN)
  /\ (Avg_Salary_float64 est = S754_nan <-> avg_salary est = NaN).
Proof.
  split; [split; [| split] | split; [| split]].
  - apply Salary_Min_float64_not_negative.
  - apply Salary_Max_float64_not_negative.
  - apply not_negative_div; [| reflexivity].
    apply not_negative_add;
      [apply Salary_Min_float64_not_negative | apply Salary_Max_float64_not_negative].
  - apply Salary_Min_float64_nan.
  - apply Salary_Max_float64_nan.
  - apply Avg_Salary_float64_nan.
Qed.

Lemma range_at_no_digit_before (pre : string) :
  forall s a b post,
    range_at s pre a b post -> no_digit pre = true ->
    forall pre' a' b' post',
      range_at s pre' a' b' post' -> (String.length pre <= String.length pre')%nat.
Proof.
  induction pre as [|c pre IH]; intros s a b post Hr Hd pre' a' b' post' Hr'.
  - simpl. lia.
  - destruct pre' as [|c' pre'].
    + exfalso. destruct Hr as (Hs & _ & _), Hr' as (Hs' & (Ha' & Hda') & _).
      cbn [no_digit] in Hd. apply andb_true_iff in Hd as [_ Hd].
      rewrite Hs in Hs'. simpl in Hs'. injection Hs' as -> Hrest.
      destruct a' as [|d a']; [now contradiction Ha' |].
      simpl in Hda'. apply andb_true_iff in Hda' as [Hdig _].
      destruct pre as [|e pre]; simpl in Hrest.
      * injection Hrest as <- _. discriminate Hdig.
      * injection Hrest as -> _. simpl in Hd. rewrite Hdig in Hd. discriminate Hd.
    + assert (Hs : exists s', s = String c s') by (destruct Hr as (-> & _); simpl; eauto).
      destruct Hs as (s' & ->).
      assert (c' = c) by (destruct Hr' as (Hs' & _); simpl in Hs'; now injection Hs').
      subst c'.
      apply (proj1 (range_at_cons _ _ _ _ _ _)) in Hr, Hr'.
      cbn [no_digit] in Hd. apply andb_true_iff in Hd as [_ Hd].
      specialize (IH s' a b post Hr Hd pre' a' b' post' Hr'). simpl. lia.
Qed.

(** X3. When no digit stands before the range [$<a>K-$<b>K] and
    [(a + b) * 125] is below [2^53], the three salaries in float64 are
    read from the range without rounding: [a * 1000], [b * 1000] and
    their mean [(a + b) * 500]; the exact model gives the same
    numbers. *)
Theorem salaries_read_from_leading_range (s pre a b post : string) :
  range_at s pre a b post ->
  no_digit pre = true ->
  ((int_of_digits a + int_of_digits b) * 125 < 2 ^ 53)%Z ->
  (F64.value (Salary_Min_float64 (Some s)) = Some (Qc_of_Z (int_of_digits a * 1000))
   /\ F64.value (Salary_Max_float64 (Some s)) = Some (Qc_of_Z (int_of_digits b * 1000))
   /\ F64.value (Avg_Salary_float64 (Some s))
      = Some (Qc_of_Z ((int_of_digits a + int_of_digits b) * 500)))
  /\ salary_min (Some s) = F64.value (Salary_Min_float64 (Some s))
  /\ salary_max (Some s) = F64.value (Salary_Max_float64 (Some s))
  /\ avg_salary (Some s) = F64.value (Avg_Salary_float64 (Some s)).
Proof.
  intros Hr Hd Hb.
  pose proof (int_of_digits_nonneg a (proj1 (proj2 Hr))) as Ha0.
  pose proof (int_of_digits_nonneg b (proj2 (proj2 Hr))) as Hb0.
  assert (Hfn : first_number s (pre ++ "$") a ("K-$" ++ b ++ "K" ++ post)).
  { destruct Hr as (Hs & Ha & _). repeat split.
    - rewrite Hs. now rewrite <- string_app_assoc.
    - rewrite no_digit_app, Hd. reflexivity.
    - apply Ha.
    - apply Ha. }
  assert (Hfr : first_range s pre a b post).
  { split; [exact Hr |]. now apply (range_at_no_digit_before pre s a b post). }
  assert (Hlo : Salary_Min_float64 (Some s) = F64.of_Z (int_of_digits a * 1000)).
  { rewrite (Salary_Min_float64_of_search s a (search_first_number _ _ _ _ Hfn)).
    apply mul_1000; lia. }
  assert (Hhi : Salary_Max_float64 (Some s) = F64.of_Z (int_of_digits b * 1000)).
  { rewrite (Salary_Max_float64_of_search s a b (search_first_range _ _ _ _ _ Hfr)).
    apply mul_1000; lia. }
  assert (Hmin : salary_min (Some s) = Some (Qc_of_Z (int_of_digits a * 1000))).
  { exact (salary_min_first s _ a _ Hfn). }
  assert (Hmax : salary_max (Some s) = Some (Qc_of_Z (int_of_digits b * 1000))).
  { apply (salary_max_of_search s a b), (search_first_range s pre a b post Hfr). }
  assert (Havg : F64.value (Avg_Salary_float64 (Some s))
                 = Some (Qc_of_Z ((int_of_digits a + int_of_digits b) * 500))).
  { unfold Avg_Salary_float64. rewrite Hlo, Hhi.
    destruct (half_of_sum _ _ Ha0 Hb0 Hb) as [-> ->]. reflexivity. }
  assert (Vlo : F64.value (Salary_Min_float64 (Some s))
                = Some (Qc_of_Z (int_of_digits a * 1000))).
  { rewrite Hlo. apply mul_1000; lia. }
  assert (Vhi : F64.value (Salary_Max_float64 (Some s))
                = Some (Qc_of_Z (int_of_digits b * 1000))).
  { rewrite Hhi. apply mul_1000; lia. }
  split; [split; [exact Vlo | split; [exact Vhi | exact Havg]] |].
  rewrite Vlo, Vhi, Havg. split; [exact Hmin |]. split; [exact Hmax |].
  now apply avg_salary_of_numbers.
Qed.

Lemma salaries_read_from_leading_range_witness :
  (F64.value (Salary_Min_float64 (Some "Est. $80K-$120K (Glassdoor est.)"))
   = Some (Qc_of_Z (int_of_digits "80" * 1000))
   /\ F64.value (Salary_Max_float64 (Some "Est. $80K-$120K (Glassdoor est.)"))
      = Some (Qc_of_Z (int_of_digits "120" * 1000))
   /\ F64.value (Avg_Salary_float64 (Some "Est. $80K-$120K (Glassdoor est.)"))
      = Some (Qc_of_Z ((int_of_digits "80" + int_of_digits "120") * 500)))
  /\ salary_min (Some "Est. $80K-$120K (Glassdoor est.)")
     = F64.value (Salary_Min_float64 (Some "Est. $80K-$120K (Glassdoor est.)"))
  /\ salary_max (Some "Est. $80K-$120K (Glassdoor est.)")
     = F64.value (Salary_Max_float64 (Some "Est. $80K-$120K (Glassdoor est.)"))
  /\ avg_salary (Some "Est. $80K-$120K (Glassdoor est.)")
     = F64.value (Avg_Salary_float64 (Some "Est. $80K-$120K (Glassdoor est.)")).
Proof.
  apply (salaries_read_from_leading_range
           "Est. $80K-$120K (Glassdoor est.)" "Est. " "80" "120" " (Glassdoor est.)").
  - repeat split; (reflexivity || discriminate).
  - reflexivity.
  - vm_compute. reflexivity.
Defined.

(** ** The sidebar *)

Lemma string_leb_trans (a b c : string) :
  String.leb a b = true -> String.leb b c = true -> String.leb a c = true.
Proof.
  unfold String.leb. revert b c.
  induction a as [|x a IH]; intros [|y b] [|z c]; simpl; try congruence.
  unfold Ascii.compare.
  destruct (N.compare_spec (N_of_ascii x) (N_of_ascii y));
    destruct (N.compare_spec (N_of_ascii y) (N_of_ascii z));
    destruct (N.compare_spec (N_of_ascii x) (N_of_ascii z));
    try lia; try congruence.
  apply IH.
Qed.

Lemma string_ltb_leb (a b : string) :
  String.ltb a b = true <-> String.leb a b = true /\ a <> b.
Proof.
  unfold String.ltb, String.leb. destruct (String.compare a b) eqn:E.
  - apply String.compare_eq_iff in E. split; [discriminate | intros [_ H]; now contradiction H].
  - split; [| reflexivity]. intros _. split; [reflexivity |].
    intros ->. pose proof (String.compare_antisym b b) as H.
    rewrite E in H. discriminate H.
  - split; [discriminate | intros [H _]; discriminate].
Qed.

Lemma insert_sorted_perm (x : string) (l : list string) :
  Permutation (insert_sorted x l) (x :: l).
Proof.
  induction l as [|y t IH]; simpl; [reflexivity|].
  destruct (String.leb x y); [reflexivity|].
  rewrite IH. apply perm_swap.
Qed.

Lemma sorted_perm (l : list string) : Permutation (sorted l) l.
Proof.
  induction l as [|x t IH]; simpl; [reflexivity|].
  rewrite insert_sorted_perm. now constructor.
Qed.

Lemma sorted_In (l : list string) (x : string) : In x (sorted l) <-> In x l.
Proof.
  split; apply Permutation_in; [| symmetry]; apply sorted_perm.
Qed.

Lemma insert_sorted_ascending (x : string) (l : list string) :
  StronglySorted (fun a b => String.leb a b = true) l ->
  StronglySorted (fun a b => String.leb a b = true) (insert_sorted x l).
Proof.
  induction 1 as [|y t Ht IH Hy]; simpl; [repeat constructor|].
  destruct (String.leb x y) eqn:E.
  - constructor; [now constructor|]. constructor; [exact E|].
    eapply Forall_impl; [| exact Hy]. intros z Hz. cbv beta in Hz.
    now apply (string_leb_trans x y z).
  - constructor; [exact IH|].
    apply (Permutation_Forall (Permutation_sym (insert_sorted_perm x t))).
    constructor; [| exact Hy].
    destruct (String.leb_total x y) as [H|H]; [congruence | exact H].
Qed.

Lemma sorted_ascending (l : list string) :
  StronglySorted (fun a b => String.leb a b = true) (sorted l).
Proof.
  induction l as [|x t IH]; simpl; [constructor|]. now apply insert_sorted_ascending.
Qed.

Lemma ascending_NoDup_strict (l : list string) :
  StronglySorted (fun a b => String.leb a b = true) l -> NoDup l ->
  StronglySorted (fun a b => String.ltb a b = true) l.
Proof.
  induction 1 as [|x t Ht IH Hx]; intros Hnd; [constructor|].
  inversion Hnd as [|? ? Hnotin Hnd']; subst. constructor; [now apply IH|].
  apply Forall_forall. intros y Hy. apply string_ltb_leb. split.
  - exact (proj1 (Forall_forall _ _) Hx y Hy).
  - intros ->. now apply Hnotin.
Qed.

Lemma options_sorted_distinct (f : Row -> option string) (clean : DataFrame) :
  StronglySorted (fun a b => String.ltb a b = true)
    (sorted (unique (dropna (column f clean))))
  /\ forall s, In s (sorted (unique (dropna (column f clean)))) <->
               exists r, In r clean /\ f r = Some s.
Proof.
  split.
  - apply ascending_NoDup_strict; [apply sorted_ascending |].
    apply (Permutation_NoDup (Permutation_sym (sorted_perm _))).
    apply unique_from_NoDup.
  - intros s. rewrite sorted_In. unfold unique. rewrite unique_from_In, dropna_In.
    unfold column. rewrite in_map_iff. simpl. split.
    + intros [(r & Hr & Hin) _]. eauto.
    + intros (r & Hin & Hr). split; [eauto | tauto].
Qed.

Lemma default_sectors_firstn (l : list string) : default_sectors l = firstn 3 l.
Proof.
  unfold default_sectors. destruct (Nat.ltb_spec 3 (List.length l)); [reflexivity|].
  symmetry. now apply firstn_all2.
Qed.

Lemma default_sizes_firstn (l : list string) : default_sizes l = firstn 3 l.
Proof.
  unfold default_sizes. destruct (Nat.leb_spec (List.length l) 3); [| reflexivity].
  symmetry. now apply firstn_all2.
Qed.

(** X4. The options of the two multiselects stand in strictly ascending
    order, so none is offered twice, and they are exactly the sectors
    (the sizes) that some record of the cleaned dataset has; the
    selection to start with is the first three options of each, all of
    them when there are at most three, although the script writes the
    two conditions differently. *)
Theorem sidebar_options_are_sorted_and_distinct (clean : DataFrame) :
  StronglySorted (fun a b => String.ltb a b = true) (sectors clean)
  /\ (forall s, In s (sectors clean) <-> exists r, In r clean /\ Sector r = Some s)
  /\ StronglySorted (fun a b => String.ltb a b = true) (sizes clean)
  /\ (forall z, In z (sizes clean) <-> exists r, In r clean /\ Size r = Some z)
  /\ default_sectors (sectors clean) = firstn 3 (sectors clean)
  /\ default_sizes (sizes clean) = firstn 3 (sizes clean)
  /\ (List.length (default_sectors (sectors clean)) <= 3)%nat
  /\ (List.length (default_sizes (sizes clean)) <= 3)%nat.
Proof.
  destruct (options_sorted_distinct Sector clean) as [H1 H2].
  destruct (options_sorted_distinct Size clean) as [H3 H4].
  repeat split; try assumption; try apply H2; try apply H4;
    try apply default_sectors_firstn; try apply default_sizes_firstn.
  - rewrite default_sectors_firstn, length_firstn. lia.
  - rewrite default_sizes_firstn, length_firstn. lia.
Qed.

Lemma isin_options (f : Row -> option string) (clean : DataFrame) (r : Row) :
  In r clean ->
  isin (f r) (sorted (unique (dropna (column f clean)))) = notna (f r).
Proof.
  intros Hr. destruct (f r) as [s|] eqn:E; [| reflexivity].
  simpl notna. change (isin (Some s) (sorted (unique (dropna (column f clean)))) = true).
  apply isin_In. exists s. split; [reflexivity|].
  apply (proj2 (options_sorted_distinct f clean)). eauto.
Qed.

Lemma select_all_keeps_sized
    (df : list RawRow) (min_rating : Qc) :
  filtered_df (df_clean df) (sectors (df_clean df)) (sizes (df_clean df)) min_rating
  = filter (fun r => notna (Size r) && fge (Rating r) min_rating) (df_clean df).
Proof.
  unfold filtered_df. apply filter_ext_in. intros r Hr. unfold keep, sectors, sizes.
  rewrite (isin_options Sector _ r Hr), (isin_options Size _ r Hr).
  assert (Hs : notna (Sector r) = true).
  { apply filter_In in Hr as [_ Hr]. unfold has_critical in Hr.
    apply andb_true_iff in Hr as [Hr _]. now apply andb_true_iff in Hr as [_ Hr]. }
  now rewrite Hs.
Qed.

(** X5. With every sector and every size selected, the view holds the
    cleaned records that have a size and whose rating reaches the
    minimum: a record without a size is shown under no selection, and at
    the lowest minimum of the slider, 0.0, a record with a negative
    rating is not shown either. *)
Theorem selecting_every_option_keeps_records_with_size
    (df : list RawRow) (min_rating : Qc) :
  filtered_df (df_clean df) (sectors (df_clean df)) (sizes (df_clean df)) min_rating
  = filter (fun r => notna (Size r) && fge (Rating r) min_rating) (df_clean df)
  /\ (forall selected_sectors selected_sizes r,
         In r (filtered_df (df_clean df) selected_sectors selected_sizes min_rating) ->
         Size r <> None)
  /\ (In min_rating min_rating_values ->
      forall selected_sectors selected_sizes r x,
        In r (filtered_df (df_clean df) selected_sectors selected_sizes min_rating) ->
        Rating r = Some x -> (0 <= x)%Qc).
Proof.
  split; [| split].
  - apply select_all_keeps_sized.
  - intros selected_sectors selected_sizes r Hr. apply filter_In in Hr as [_ Hr].
    apply keep_meets in Hr as (_ & (z & Hz & _) & _). congruence.
  - intros Hm selected_sectors selected_sizes r x Hr Hx. apply filter_In in Hr as [_ Hr].
    apply keep_meets in Hr as (_ & _ & (y & Hy & Hle)).
    assert (x = y) by congruence. subst y.
    apply Qcle_trans with (y := min_rating); [| exact Hle].
    unfold min_rating_values in Hm. cbn [seq map] in Hm.
    repeat (destruct Hm as [<- | Hm]; [vm_compute; discriminate |]).
    contradiction.
Qed.

(** ** The filter, one selection against another *)

Lemma isin_incl (cell : option string) (l l' : list string) :
  incl l l' -> isin cell l = true -> isin cell l' = true.
Proof.
  intros Hi H. apply isin_In in H as (s & Hs & Hin). apply isin_In. eauto.
Qed.

Lemma fge_lower (x : float64) (m m' : Qc) :
  (m' <= m)%Qc -> fge x m = true -> fge x m' = true.
Proof.
  intros Hm H. apply fge_le in H as (a & Ha & Hle). apply fge_le.
  exists a. split; [exact Ha |]. now apply Qcle_trans with (y := m).
Qed.

Lemma keep_wider (sectors sectors' sizes sizes' : list string) (m m' : Qc)
    (r : Row) :
  incl sectors sectors' -> incl sizes sizes' -> (m' <= m)%Qc ->
  keep sectors sizes m r = true -> keep sectors' sizes' m' r = true.
Proof.
  intros HS HZ Hm. unfold keep. rewrite !andb_true_iff. intros [[H1 H2] H3].
  repeat split;
    [now apply (isin_incl _ sectors) | now apply (isin_incl _ sizes)
    | now apply (fge_lower _ m)].
Qed.

Lemma filter_filter_narrower {A : Type} (p q : A -> bool) (l : list A) :
  (forall a, p a = true -> q a = true) ->
  filter p (filter q l) = filter p l.
Proof.
  intros H. induction l as [|a l IH]; simpl; [reflexivity|].
  destruct (q a) eqn:Eq; simpl.
  - now rewrite IH.
  - destruct (p a) eqn:Ep; [| exact IH]. apply H in Ep. congruence.
Qed.

Lemma filter_length_le {A : Type} (p : A -> bool) (l : list A) :
  (List.length (filter p l) <= List.length l)%nat.
Proof.
  induction l as [|a l IH]; simpl; [lia|]. destruct (p a); simpl; lia.
Qed.

(** X6. Narrowing the selection narrows the view: with fewer sectors, fewer
    sizes or a higher minimum rating, the view is the wider view
    filtered once more, so it holds no record that the wider view lacks,
    and no more records. *)
Theorem narrower_selection_gives_part_of_the_view
    (clean : DataFrame) (sectors sectors' sizes sizes' : list string)
    (m m' : Qc) :
  incl sectors sectors' -> incl sizes sizes' -> (m' <= m)%Qc ->
  filtered_df (filtered_df clean sectors' sizes' m') sectors sizes m
  = filtered_df clean sectors sizes m
  /\ (forall r, In r (filtered_df clean sectors sizes m) ->
                In r (filtered_df clean sectors' sizes' m'))
  /\ (List.length (filtered_df clean sectors sizes m)
      <= List.length (filtered_df clean sectors' sizes' m'))%nat.
Proof.
  intros HS HZ Hm.
  assert (Heq : filtered_df (filtered_df clean sectors' sizes' m') sectors sizes m
                = filtered_df clean sectors sizes m).
  { unfold filtered_df. apply filter_filter_narrower. intros r.
    now apply keep_wider. }
  split; [exact Heq |]. split.
  - intros r Hr. rewrite <- Heq in Hr. now apply filter_In in Hr as [Hr _].
  - rewrite <- Heq. unfold filtered_df at 1. apply filter_length_le.
Qed.

Lemma narrower_selection_gives_part_of_the_view_witness :
  filtered_df (filtered_df (preprocess three_postings)
                 ["Tech"; "Finance"] ["Large"; "Small"] (Qc_of_Z 2))
    ["Tech"] ["Large"] (Qc_of_Z 3)
  = filtered_df (preprocess three_postings) ["Tech"] ["Large"] (Qc_of_Z 3)
  /\ (forall r,
         In r (filtered_df (preprocess three_postings) ["Tech"] ["Large"] (Qc_of_Z 3)) ->
         In r (filtered_df (preprocess three_postings)
                 ["Tech"; "Finance"] ["Large"; "Small"] (Qc_of_Z 2)))
  /\ (List.length (filtered_df (preprocess three_postings) ["Tech"] ["Large"] (Qc_of_Z 3))
      <= List.length (filtered_df (preprocess three_postings)
                        ["Tech"; "Finance"] ["Large"; "Small"] (Qc_of_Z 2)))%nat.
Proof.
  apply (narrower_selection_gives_part_of_the_view (preprocess three_postings)
           ["Tech"] ["Tech"; "Finance"] ["Large"] ["Large"; "Small"]
           (Qc_of_Z 3) (Qc_of_Z 2)).
  - intros x [<- | []]. simpl. tauto.
  - intros x [<- | []]. simpl. tauto.
  - vm_compute. discriminate.
Defined.

Lemma isin_same (cell : option string) (l l' : list string) :
  (forall s, In s l <-> In s l') -> isin cell l = isin cell l'.
Proof.
  intros H. destruct (isin cell l) eqn:E, (isin cell l') eqn:E'; try reflexivity.
  - apply (isin_incl cell l l') in E; [congruence |]. intros s. apply H.
  - apply (isin_incl cell l' l) in E'; [congruence |]. intros s. apply H.
Qed.

(** X7. The view depends on which sectors and sizes are selected, not on the
    order in which the user picked them, nor on how often one is
    listed. *)
Theorem view_depends_on_the_selected_sets
    (clean : DataFrame)
    (sectors sizes sectors' sizes' : list string) (m : Qc) :
  (forall s, In s sectors <-> In s sectors') ->
  (forall z, In z sizes <-> In z sizes') ->
  filtered_df clean sectors sizes m
  = filtered_df clean sectors' sizes' m.
Proof.
  intros Hs Hz. unfold filtered_df. apply filter_ext. intros r. unfold keep.
  now rewrite (isin_same _ _ _ Hs), (isin_same _ _ _ Hz).
Qed.

Lemma view_depends_on_the_selected_sets_witness :
  filtered_df (preprocess three_postings) ["Tech"; "Finance"] ["Large"] (Qc_of_Z 3)
  = filtered_df (preprocess three_postings) ["Finance"; "Tech"; "Finance"] ["Large"]
      (Qc_of_Z 3).
Proof.
  apply (view_depends_on_the_selected_sets (preprocess three_postings)
           ["Tech"; "Finance"] ["Large"] ["Finance"; "Tech"; "Finance"] ["Large"]
           (Qc_of_Z 3)).
  - intros s. simpl. tauto.
  - intros z. simpl. tauto.
Defined.

(** X8. On the first run, a dataset with at most three sectors and at most
    three sizes is shown whole but for the records without a size and
    those rated below 3.0. *)
Theorem initial_view_of_few_options (df : list RawRow) :
  (List.length (sectors (df_clean df)) <= 3)%nat ->
  (List.length (sizes (df_clean df)) <= 3)%nat ->
  initial_view df
  = filter (fun r => notna (Size r) && fge (Rating r) (Qc_of_Z 3)) (df_clean df).
Proof.
  intros H1 H2. unfold initial_view.
  rewrite default_sectors_firstn, default_sizes_firstn.
  rewrite !firstn_all2 by assumption.
  apply (select_all_keeps_sized df).
Qed.

Lemma initial_view_of_few_options_witness :
  initial_view three_postings
  = filter (fun r => notna (Size r) && fge (Rating r) (Qc_of_Z 3))
      (df_clean three_postings).
Proof.
  apply (initial_view_of_few_options three_postings); vm_compute; lia.
Defined.

(** ** The metrics of a view *)

Lemma Qc_of_Z_S (n : nat) :
  Qc_of_Z (Z.of_nat (S n)) = (1 + Qc_of_Z (Z.of_nat n))%Qc.
Proof.
  rewrite Nat2Z.inj_succ, <- Z.add_1_l, <- Qc_of_Z_plus. reflexivity.
Qed.

Lemma Qc_of_Z_nat_nonneg (n : nat) : (0 <= Qc_of_Z (Z.of_nat n))%Qc.
Proof.
  induction n as [|n IH]; [apply Qcle_refl |].
  rewrite Qc_of_Z_S. rewrite <- (Qcplus_0_l 0).
  apply Qcplus_le_compat; [| exact IH]. vm_compute. discriminate.
Qed.

Lemma Qc_of_Z_nat_pos (n : nat) : (0 < Qc_of_Z (Z.of_nat (S n)))%Qc.
Proof.
  rewrite Qc_of_Z_S. apply Qclt_le_trans with (y := (1 + 0)%Qc).
  - vm_compute. reflexivity.
  - apply Qcplus_le_compat; [apply Qcle_refl | apply Qc_of_Z_nat_nonneg].
Qed.

Lemma Qc_sum_lower (m : Qc) (l : list Qc) :
  Forall (fun x => (m <= x)%Qc) l ->
  (m * Qc_of_Z (Z.of_nat (List.length l)) <= Qc_sum l)%Qc.
Proof.
  induction 1 as [|x t Hx _ IH].
  - simpl. rewrite Qcmult_0_r. apply Qcle_refl.
  - cbn [List.length Qc_sum fold_right]. rewrite Qc_of_Z_S.
    rewrite Qcmult_plus_distr_r, Qcmult_1_r.
    now apply Qcplus_le_compat.
Qed.

Lemma mean_lower (lo : Qc) (col : list float64) :
  Forall (fun x => (lo <= x)%Qc) (dropna col) ->
  mean col = NaN \/ exists a, mean col = Some a /\ (lo <= a)%Qc.
Proof.
  intros Hlo. rewrite mean_dropna. apply Qc_sum_lower in Hlo.
  destruct (dropna col) as [|x t]; [now left | right].
  eexists. split; [reflexivity |].
  set (n := Qc_of_Z (Z.of_nat (List.length (x :: t)))) in *.
  assert (Hn : (0 < n)%Qc) by apply Qc_of_Z_nat_pos.
  assert (Hn0 : n <> 0%Qc) by (intros H0; rewrite H0 in Hn; discriminate Hn).
  apply (Qcmult_lt_0_le_reg_r _ _ n Hn).
  rewrite (Qcmult_comm (_ / n)), Qcmult_div_r by exact Hn0. exact Hlo.
Qed.

Lemma filtered_ratings (clean : DataFrame) (sectors sizes : list string) (m : Qc) :
  exists xs,
    column Rating (filtered_df clean sectors sizes m) = map Some xs /\
    Forall (fun x => (m <= x)%Qc) xs.
Proof.
  unfold filtered_df, column.
  induction clean as [|r l (xs & IH & Hxs)]; simpl.
  - exists []. split; [reflexivity | constructor].
  - destruct (keep sectors sizes m r) eqn:E; [| exists xs; now split].
    apply keep_meets in E as (_ & _ & (x & Hx & Hle)).
    exists (x :: xs). simpl. rewrite Hx, IH. split; [reflexivity | now constructor].
Qed.

Lemma dropna_map_Some {A : Type} (l : list A) : dropna (map Some l) = l.
Proof. induction l as [|a l IH]; simpl; [reflexivity | now rewrite IH]. Qed.

(** X9. The average rating shown for a view that holds a record is a number
    (no rating of the view is NaN), and it is at least the minimum
    rating of the slider (in exact arithmetic). *)
Theorem avg_rating_reaches_min_rating
    (clean : DataFrame) (sectors sizes : list string) (min_rating : Qc) :
  filtered_df clean sectors sizes min_rating <> [] ->
  exists a,
    avg_rating (summary_metrics (filtered_df clean sectors sizes min_rating)) = Some a
    /\ (min_rating <= a)%Qc.
Proof.
  intros Hne. cbn [summary_metrics avg_rating].
  destruct (filtered_ratings clean sectors sizes min_rating) as (xs & Hcol & Hxs).
  rewrite Hcol, mean_dropna, dropna_map_Some.
  destruct xs as [|x t].
  - exfalso. apply Hne. unfold column in Hcol.
    now apply map_eq_nil in Hcol.
  - destruct (mean_lower min_rating (map Some (x :: t))) as [H | H].
    + now rewrite dropna_map_Some.
    + rewrite mean_dropna, dropna_map_Some in H. discriminate H.
    + rewrite mean_dropna, dropna_map_Some in H. exact H.
Qed.

Lemma avg_rating_reaches_min_rating_witness :
  exists a,
    avg_rating (summary_metrics
                  (filtered_df (preprocess three_postings)
                     ["Tech"; "Finance"] ["Large"] (Qc_of_Z 3))) = Some a
    /\ (Qc_of_Z 3 <= a)%Qc.
Proof.
  apply (avg_rating_reaches_min_rating (preprocess three_postings)
           ["Tech"; "Finance"] ["Large"] (Qc_of_Z 3)).
  vm_compute. discriminate.
Defined.

(** ** The counting charts *)

Lemma bump_total (k : string) (tbl : list (string * nat)) :
  list_sum (map snd (bump k tbl)) = S (list_sum (map snd tbl)).
Proof.
  induction tbl as [|[k' n] t IH]; simpl; [reflexivity|].
  destruct (String.eqb k k'); simpl; [reflexivity | rewrite IH; lia].
Qed.

Lemma fold_count_cell_total (col : list (option string)) (acc : list (string * nat)) :
  list_sum (map snd (fold_left count_cell col acc))
  = (list_sum (map snd acc) + List.length (dropna col))%nat.
Proof.
  revert acc. induction col as [|[k|] col IH]; intros acc; simpl.
  - lia.
  - rewrite IH, bump_total. lia.
  - apply IH.
Qed.

Lemma list_sum_perm (l l' : list nat) : Permutation l l' -> list_sum l = list_sum l'.
Proof. induction 1; simpl; lia. Qed.

Lemma dropna_present {A : Type} (f : Row -> option A) (view : DataFrame) :
  Forall (fun r => f r <> None) view ->
  List.length (dropna (column f view)) = List.length view.
Proof.
  induction 1 as [|r l Hr _ IH]; simpl; [reflexivity|].
  destruct (f r); [simpl; now rewrite IH | now contradiction Hr].
Qed.

Lemma unique_from_length_le (seen l : list string) :
  (List.length (unique_from seen l) <= List.length l)%nat.
Proof.
  revert seen. induction l as [|x t IH]; intros seen; simpl; [lia|].
  destruct (existsb (String.eqb x) seen); simpl.
  - specialize (IH seen). lia.
  - specialize (IH (x :: seen)). lia.
Qed.

Lemma dropna_length_le {A : Type} (col : list (option A)) :
  (List.length (dropna col) <= List.length col)%nat.
Proof. induction col as [|[a|] col IH]; simpl; lia. Qed.

Lemma value_counts_length argsort (col : list (option string)) :
  sorts_by_count argsort ->
  List.length (value_counts argsort col) = nunique col.
Proof.
  intros Hs. rewrite (Permutation_length (value_counts_perm argsort col Hs)).
  now rewrite length_map.
Qed.

(** X10. The full counting table of a column has one entry per distinct
    value, as many as [nunique] reports; its counts add up to the number
    of cells that hold a value; the chart of the top [n] has [n] entries,
    or all of them when there are fewer. For the job titles and the
    sectors of a view, which the cleaning left without gaps, the counts
    add up to the number of records of the view. *)
Theorem counts_add_up_to_the_records
    (argsort : list (string * nat) -> list (string * nat)) :
  sorts_by_count argsort ->
  (forall col,
      List.length (value_counts argsort col) = nunique col
      /\ list_sum (map snd (value_counts argsort col)) = List.length (dropna col)
      /\ (nunique col <= List.length col)%nat
      /\ forall n, List.length (top_n_by_count argsort col n) = Nat.min n (nunique col))
  /\ (forall (df : list RawRow) sectors sizes m,
         let view := filtered_df (df_clean df) sectors sizes m in
         list_sum (map snd (value_counts argsort (column Job_Title view)))
         = total_jobs (summary_metrics view)
         /\ list_sum (map snd (value_counts argsort (column Sector view)))
            = total_jobs (summary_metrics view)).
Proof.
  intros Hs.
  assert (Hsum : forall col,
             list_sum (map snd (value_counts argsort col)) = List.length (dropna col)).
  { intros col. unfold value_counts.
    rewrite (list_sum_perm _ _
               (Permutation_map snd (sort_values_desc_perm argsort Hs
                                       (value_counts_arraylike col)))).
    unfold value_counts_arraylike. now rewrite fold_count_cell_total. }
  split.
  - intros col. split; [now apply value_counts_length |]. split; [apply Hsum |]. split.
    + unfold nunique, unique.
      pose proof (unique_from_length_le [] (dropna col)).
      pose proof (dropna_length_le col). lia.
    + intros n. unfold top_n_by_count, head.
      now rewrite length_firstn, value_counts_length.
  - intros df sectors sizes m view.
    assert (Hp : Forall present view).
    { apply Forall_forall. intros r Hr. apply filter_In in Hr as [Hr _].
      apply filter_In in Hr as [_ Hr]. now apply has_critical_present. }
    cbn [summary_metrics total_jobs]. rewrite !Hsum. split; apply dropna_present.
    + eapply Forall_impl; [| exact Hp]. now intros r (H & _ & _).
    + eapply Forall_impl; [| exact Hp]. now intros r (_ & H & _).
Qed.

Lemma counts_add_up_to_the_records_witness :
  (forall col,
      List.length (value_counts insertion_sort col) = nunique col
      /\ list_sum (map snd (value_counts insertion_sort col)) = List.length (dropna col)
      /\ (nunique col <= List.length col)%nat
      /\ forall n, List.length (top_n_by_count insertion_sort col n)
                   = Nat.min n (nunique col))
  /\ (forall (df : list RawRow) sectors sizes m,
         let view := filtered_df (df_clean df) sectors sizes m in
         list_sum (map snd (value_counts insertion_sort (column Job_Title view)))
         = total_jobs (summary_metrics view)
         /\ list_sum (map snd (value_counts insertion_sort (column Sector view)))
            = total_jobs (summary_metrics view)).
Proof.
  apply (counts_add_up_to_the_records insertion_sort insertion_sort_sorts).
Defined.

Lemma firstn_incl {A : Type} (n : nat) (l : list A) (x : A) :
  In x (firstn n l) -> In x l.
Proof.
  intros H. rewrite <- (firstn_skipn n l). apply in_or_app. now left.
Qed.

Lemma occurrences_le (v : string) (col : list (option string)) :
  (occurrences v col <= List.length col)%nat.
Proof. unfold occurrences. apply filter_length_le. Qed.

(** X11. The pie chart of the sectors shows selected sectors only, each with
    the number of records of the view in that sector, at least one and
    at most all of them; the bar chart of the job titles likewise shows
    titles of the view with their number of records. *)
Theorem charts_count_records_of_the_view
    (argsort : list (string * nat) -> list (string * nat))
    (clean : DataFrame) (sectors sizes : list string) (m : Qc)
    (v : string) (c : nat) :
  sorts_by_count argsort ->
  let view := filtered_df clean sectors sizes m in
  (In (v, c) (sector_counts argsort view) ->
   In v sectors
   /\ c = List.length (filter (fun r => cell_is v (Sector r)) view)
   /\ (1 <= c <= List.length view)%nat)
  /\ (In (v, c) (job_counts argsort view) ->
      (exists r, In r view /\ Job_Title r = Some v)
      /\ c = List.length (filter (fun r => cell_is v (Job_Title r)) view)
      /\ (1 <= c <= List.length view)%nat).
Proof.
  intros Hs view.
  assert (Hocc : forall (f : Row -> option string) l,
             occurrences v (column f l)
             = List.length (filter (fun r => cell_is v (f r)) l)).
  { intros f l. unfold occurrences, column.
    induction l as [|r l IH]; simpl; [reflexivity|].
    destruct (cell_is v (f r)); simpl; now rewrite IH. }
  assert (Hgen : forall (f : Row -> option string) n,
             In (v, c) (top_n_by_count argsort (column f view) n) ->
             (exists r, In r view /\ f r = Some v)
             /\ c = List.length (filter (fun r => cell_is v (f r)) view)
             /\ (1 <= c <= List.length view)%nat).
  { intros f n Hin. unfold top_n_by_count, head in Hin. apply firstn_incl in Hin.
    apply (value_counts_In argsort _ v c Hs) in Hin as [Hin ->].
    pose proof (occurrences_pos v _ Hin) as Hpos.
    pose proof (occurrences_le v (column f view)) as Hle.
    unfold column in Hle at 2. rewrite length_map in Hle.
    split; [| split; [apply Hocc | lia]].
    unfold column in Hin. apply in_map_iff in Hin as (r & Hr & Hin). eauto. }
  split; intros Hin.
  - apply Hgen in Hin as ((r & Hr & Hv) & Hc & Hb). split; [| now split].
    apply filter_In in Hr as [_ Hr].
    apply keep_meets in Hr as ((s & Hsec & HinS) & _). congruence.
  - now apply Hgen in Hin.
Qed.

Lemma charts_count_records_of_the_view_witness :
  let view := filtered_df (preprocess three_postings)
                ["Tech"; "Finance"] ["Large"; "Small"] (Qc_of_Z 2) in
  (In "Tech" ["Tech"; "Finance"]
   /\ 2%nat = List.length (filter (fun r => cell_is "Tech" (Sector r)) view)
   /\ (1 <= 2 <= List.length view)%nat)
  /\ ((exists r, In r view /\ Job_Title r = Some "Quant")
      /\ 1%nat = List.length (filter (fun r => cell_is "Quant" (Job_Title r)) view)
      /\ (1 <= 1 <= List.length view)%nat).
Proof.
  split.
  - apply (proj1 (charts_count_records_of_the_view insertion_sort
                    (preprocess three_postings)
                    ["Tech"; "Finance"] ["Large"; "Small"] (Qc_of_Z 2) "Tech" 2
                    insertion_sort_sorts)).
    vm_compute. tauto.
  - apply (proj2 (charts_count_records_of_the_view insertion_sort
                    (preprocess three_postings)
                    ["Tech"; "Finance"] ["Large"; "Small"] (Qc_of_Z 2) "Quant" 1
                    insertion_sort_sorts)).
    vm_compute. tauto.
Defined.

(** ** The pages of the table *)

Lemma paginate_firstn_skipn {A : Type} (view : list A) (page_size page_number : Z) :
  (0 < page_size)%Z -> (1 <= page_number)%Z ->
  paginate view page_size page_number
  = firstn (Z.to_nat page_size)
      (skipn (Z.to_nat ((page_number - 1) * page_size)) view).
Proof.
  intros Hps Hpn. apply nth_error_ext. intros i.
  rewrite paginate_nth_error by assumption.
  rewrite nth_error_firstn, nth_error_skipn.
  destruct (Z.ltb_spec (Z.of_nat i) page_size), (Nat.ltb_spec i (Z.to_nat page_size));
    (reflexivity || lia).
Qed.

Lemma firstn_plus {A : Type} (a b : nat) (l : list A) :
  firstn (a + b) l = firstn a l ++ firstn b (skipn a l).
Proof.
  revert l. induction a as [|a IH]; intros l; [reflexivity|].
  destruct l as [|x l]; simpl.
  - now rewrite firstn_nil.
  - now rewrite IH.
Qed.

Lemma chunks_concat {A : Type} (n t : nat) (l : list A) :
  List.concat (map (fun k => firstn n (skipn (k * n) l)) (seq 0 t)) = firstn (t * n) l.
Proof.
  induction t as [|t IH]; [reflexivity|].
  rewrite seq_S, map_app, List.concat_app, IH. simpl.
  rewrite app_nil_r, <- firstn_plus. f_equal. lia.
Qed.

Lemma page_numbers_In (total p : Z) :
  In p (page_numbers total) <-> (1 <= p <= total)%Z.
Proof.
  unfold page_numbers. rewrite in_map_iff. split.
  - intros (k & <- & Hk). apply in_seq in Hk. lia.
  - intros H. exists (Z.to_nat p). split; [lia |]. apply in_seq. lia.
Qed.

(** X12. The pages that can be selected, one after the other, are the view:
    every record is on one page, none is shown twice, and the order of
    the view is kept across the pages. *)
Theorem pages_partition_the_view
    {A : Type} (view : list A) (page_size total : Z) :
  (0 < page_size)%Z ->
  total_pages (Z.of_nat (List.length view)) page_size = Some total ->
  List.concat (map (paginate view page_size) (page_numbers total)) = view.
Proof.
  intros Hps Ht.
  destruct (total_pages_ceil (Z.of_nat (List.length view)) page_size)
    as (k & Hk & Hle & Hlt); [lia | lia |].
  assert (k = total) by congruence. subst k.
  assert (H0 : (0 <= total)%Z) by nia.
  unfold page_numbers. rewrite map_map.
  rewrite (map_ext_in _ (fun k => firstn (Z.to_nat page_size)
                                    (skipn ((k - 1) * Z.to_nat page_size) view))).
  - rewrite <- seq_shift, map_map.
    rewrite (map_ext _ (fun k => firstn (Z.to_nat page_size)
                                   (skipn (k * Z.to_nat page_size) view))).
    + rewrite chunks_concat. apply firstn_all2. nia.
    + intros k. simpl. now rewrite Nat.sub_0_r.
  - intros k Hk'. apply in_seq in Hk'.
    rewrite paginate_firstn_skipn by lia. do 2 f_equal. nia.
Qed.

Lemma pages_partition_the_view_witness :
  List.concat (map (paginate three_postings 2) (page_numbers 2)) = three_postings.
Proof.
  apply (pages_partition_the_view three_postings 2 2); [lia | reflexivity].
Defined.

(** X13. For every page size the slider allows, the number of pages is
    defined (no division by zero), and every page that can be selected
    holds a record: all pages before the last are full, the last holds
    what is left, and a page is offered at all only when the view holds
    a record. *)
Theorem selectable_pages_are_not_empty
    {A : Type} (view : list A) (page_size : Z) :
  page_size_allowed page_size ->
  exists total,
    total_pages (Z.of_nat (List.length view)) page_size = Some total
    /\ (page_numbers total = [] <-> view = [])
    /\ forall p,
         In p (page_numbers total) ->
         (1 <= Z.of_nat (List.length (paginate view page_size p)) <= page_size)%Z
         /\ ((p < total)%Z ->
             Z.of_nat (List.length (paginate view page_size p)) = page_size)
         /\ (p = total ->
             Z.of_nat (List.length (paginate view page_size p))
             = (Z.of_nat (List.length view) - (total - 1) * page_size)%Z).
Proof.
  intros [H5 H50].
  destruct (total_pages_ceil (Z.of_nat (List.length view)) page_size)
    as (total & Ht & Hle & Hlt); [lia | lia |].
  exists total. split; [exact Ht |]. split.
  - split.
    + intros Hnil. destruct view as [|x view]; [reflexivity |]. exfalso.
      assert (Hin : In 1%Z (page_numbers total)).
      { apply page_numbers_In. cbn [List.length] in Hle. nia. }
      rewrite Hnil in Hin. exact Hin.
    + intros ->. simpl in Hlt. assert (total <= 0)%Z by nia.
      unfold page_numbers. destruct (Z.to_nat total) eqn:E; [reflexivity | lia].
  - intros p Hp. apply page_numbers_In in Hp.
    rewrite paginate_length by lia. repeat split; nia.
Qed.

Lemma selectable_pages_are_not_empty_witness :
  exists total,
    total_pages (Z.of_nat (List.length three_postings)) 5 = Some total
    /\ (page_numbers total = [] <-> three_postings = [])
    /\ forall p,
         In p (page_numbers total) ->
         (1 <= Z.of_nat (List.length (paginate three_postings 5 p)) <= 5)%Z
         /\ ((p < total)%Z ->
             Z.of_nat (List.length (paginate three_postings 5 p)) = 5%Z)
         /\ (p = total ->
             Z.of_nat (List.length (paginate three_postings 5 p))
             = (Z.of_nat (List.length three_postings) - (total - 1) * 5)%Z).
Proof.
  apply (selectable_pages_are_not_empty three_postings 5). unfold page_size_allowed. lia.
Defined.

(** ** The text of the export *)

Lemma available_columns_length (columns : list string) :
  incl required_columns columns ->
  (6 <= List.length (available_columns columns) <= 8)%nat.
Proof.
  intros H.
  assert (Hin : forall name, In name required_columns ->
                             existsb (String.eqb name) columns = true).
  { intros name Hn. apply existsb_exists. exists name.
    split; [now apply H | apply String.eqb_refl]. }
  unfold available_columns, display_column_names. cbn [filter].
  rewrite (Hin "Job Title"), (Hin "Company Name"), (Hin "Salary Estimate"),
    (Hin "Rating"), (Hin "Sector"), (Hin "Size") by (simpl; tauto).
  destruct (existsb (String.eqb "Location") columns),
    (existsb (String.eqb "Revenue") columns); simpl; lia.
Qed.

(** X14. When no field holds a carriage return outside quotes, the
    export splits back into the line of the column names followed by one
    record for each record of the view, in the order of the view, each
    with one field per column: whatever commas, double quotes and line
    feeds the fields hold, no field is cut in two and no record is lost
    or joined with the next. The columns are the display columns that
    the source has, six of them at least. *)
Theorem csv_export_keeps_records_and_fields (cv : Conversions)
    (columns : list string) (view : DataFrame) :
  incl required_columns columns ->
  (forall name r,
      In name (available_columns columns) -> In r view ->
      written_whole (field_at cv name (display_columns r)) = true) ->
  tokenize (csv cv columns view)
  = available_columns columns :: map (row_fields cv columns) (map display_columns view)
  /\ List.length (tokenize (csv cv columns view)) = S (List.length view)
  /\ Forall (fun record => List.length record = List.length (available_columns columns))
       (tokenize (csv cv columns view))
  /\ (6 <= List.length (available_columns columns) <= 8)%nat.
Proof.
  intros Hreq Hw. unfold csv. rewrite tokenize_to_csv; [| exact Hreq |].
  2:{ intros name r Hn Hr. apply in_map_iff in Hr as (x & <- & Hx). now apply Hw. }
  split; [reflexivity |]. split; [| split].
  - simpl. now rewrite !length_map.
  - constructor; [reflexivity |]. apply Forall_forall. intros r Hr.
    apply in_map_iff in Hr as (x & <- & _). unfold row_fields. apply length_map.
  - now apply available_columns_length.
Qed.

Lemma csv_export_keeps_records_and_fields_witness :
  let view := [add_salary_columns quoted_posting; add_salary_columns zip_posting] in
  tokenize (csv plain source_columns view)
  = available_columns source_columns
    :: map (row_fields plain source_columns) (map display_columns view)
  /\ List.length (tokenize (csv plain source_columns view)) = S (List.length view)
  /\ Forall (fun record =>
               List.length record = List.length (available_columns source_columns))
       (tokenize (csv plain source_columns view))
  /\ (6 <= List.length (available_columns source_columns) <= 8)%nat.
Proof.
  apply (csv_export_keeps_records_and_fields plain source_columns
           [add_salary_columns quoted_posting; add_salary_columns zip_posting]).
  - intros name Hn. simpl in Hn.
    repeat (destruct Hn as [<- | Hn]; [simpl; tauto |]). destruct Hn.
  - intros name r Hn Hr. vm_compute in Hn. simpl in Hr.
    repeat (destruct Hr as [<- | Hr];
            [repeat (destruct Hn as [<- | Hn]; [vm_compute; reflexivity |]);
             destruct Hn |]).
    destruct Hr.
Defined.

(** ** Average salary by company size *)

Lemma non_nans_nans_perm (s : list (string * float64)) :
  Permutation (map (fun e : string * Qc => (fst e, Some (snd e))) (non_nans s) ++ nans s) s.
Proof.
  induction s as [|[k [q|]] s IH]; simpl.
  - constructor.
  - now constructor.
  - apply Permutation_sym, Permutation_cons_app. now symmetry.
Qed.

Lemma sort_values_desc_float_perm argsort (s : list (string * float64)) :
  (forall l, Permutation (argsort l) l) ->
  Permutation (sort_values_desc_float argsort s) s.
Proof.
  intros Hp. unfold sort_values_desc_float.
  rewrite <- (non_nans_nans_perm s) at 3.
  apply Permutation_app_tail, Permutation_map.
  rewrite <- Permutation_rev, Hp. symmetry. apply Permutation_rev.
Qed.

Lemma groupby_Size_mean_In (view : DataFrame) (size : string) (a : float64) :
  In (size, a) (groupby_Size_mean view) <->
  (exists r, In r view /\ Size r = Some size)
  /\ a = mean (column Avg_Salary (group_of size view)).
Proof.
  unfold groupby_Size_mean. rewrite in_map_iff. split.
  - intros (k & Hk & Hin). injection Hk as -> <-. split; [| reflexivity].
    now apply (proj2 (options_sorted_distinct Size view)).
  - intros [Hr ->]. exists size. split; [reflexivity |].
    now apply (proj2 (options_sorted_distinct Size view)).
Qed.

Lemma groupby_Size_mean_keys (view : DataFrame) :
  map fst (groupby_Size_mean view) = sorted (unique (dropna (column Size view))).
Proof.
  unfold groupby_Size_mean. rewrite map_map. simpl. apply map_id.
Qed.

Lemma sorted_length (l : list string) : List.length (sorted l) = List.length l.
Proof. apply Permutation_length, sorted_perm. Qed.

Lemma insert_by_value_perm (x : string * Qc) (l : list (string * Qc)) :
  Permutation (insert_by_value x l) (x :: l).
Proof.
  induction l as [|y t IH]; simpl; [reflexivity|].
  destruct (Qc_leb (snd x) (snd y)); [reflexivity|].
  rewrite IH. apply perm_swap.
Qed.

Lemma insertion_sort_by_value_perm (l : list (string * Qc)) :
  Permutation (insertion_sort_by_value l) l.
Proof.
  induction l as [|x t IH]; simpl; [reflexivity|].
  rewrite insert_by_value_perm. now constructor.
Qed.

Lemma Qc_leb_total (a b : Qc) : Qc_leb a b = false -> (b <= a)%Qc.
Proof.
  intros H. destruct (Qclt_le_dec a b) as [Hlt | Hle]; [| exact Hle].
  apply Qclt_le_weak, Qc_leb_le in Hlt. congruence.
Qed.

Lemma insert_by_value_sorted (x : string * Qc) (l : list (string * Qc)) :
  StronglySorted (fun a b => (snd a <= snd b)%Qc) l ->
  StronglySorted (fun a b => (snd a <= snd b)%Qc) (insert_by_value x l).
Proof.
  induction 1 as [|y t Ht IH Hy]; simpl; [repeat constructor|].
  destruct (Qc_leb (snd x) (snd y)) eqn:E.
  - apply Qc_leb_le in E. constructor; [now constructor|]. constructor; [exact E|].
    eapply Forall_impl; [| exact Hy]. intros z Hz. cbv beta in Hz.
    now apply Qcle_trans with (y := snd y).
  - constructor; [exact IH|].
    apply (Permutation_Forall (Permutation_sym (insert_by_value_perm x t))).
    constructor; [| exact Hy]. now apply Qc_leb_total.
Qed.

Lemma insertion_sort_by_value_sorts : sorts_by_value insertion_sort_by_value.
Proof.
  intros l. split; [apply insertion_sort_by_value_perm |].
  induction l as [|x t IH]; simpl; [constructor|]. now apply insert_by_value_sorted.
Qed.

Lemma size_salary_perm argsort (view : DataFrame) :
  sorts_by_value argsort ->
  Permutation (size_salary argsort view) (groupby_Size_mean view).
Proof.
  intros Hs. apply sort_values_desc_float_perm. intros l. apply Hs.
Qed.

Lemma size_salary_In argsort (view : DataFrame) (size : string) (a : float64) :
  sorts_by_value argsort ->
  In (size, a) (size_salary argsort view) <->
  (exists r, In r view /\ Size r = Some size)
  /\ a = mean (column Avg_Salary (group_of size view)).
Proof.
  intros Hs. rewrite <- groupby_Size_mean_In.
  split; apply Permutation_in; [| symmetry]; now apply size_salary_perm.
Qed.

Lemma size_salary_length argsort (view : DataFrame) :
  sorts_by_value argsort ->
  List.length (size_salary argsort view) = nunique (column Size view).
Proof.
  intros Hs. rewrite (Permutation_length (size_salary_perm argsort view Hs)).
  unfold groupby_Size_mean, nunique. now rewrite length_map, sorted_length.
Qed.

(** X15. The line chart has one point for each company size met in the view,
    with the mean of the average salaries of the records of that size
    (NaN when none of them has one); the points stand from the highest
    mean to the lowest, the sizes without a mean last. *)
Theorem size_salary_has_a_point_for_each_size
    (argsort : list (string * Qc) -> list (string * Qc)) (view : DataFrame) :
  sorts_by_value argsort ->
  (forall size a,
      In (size, a) (size_salary argsort view) <->
      (exists r, In r view /\ Size r = Some size)
      /\ a = mean (column Avg_Salary (group_of size view)))
  /\ NoDup (map fst (size_salary argsort view))
  /\ List.length (size_salary argsort view) = nunique (column Size view)
  /\ exists numbers,
       size_salary argsort view
       = map (fun e : string * Qc => (fst e, Some (snd e))) numbers
         ++ nans (groupby_Size_mean view)
       /\ StronglySorted (fun x y => (snd y <= snd x)%Qc) numbers.
Proof.
  intros Hs.
  pose proof (size_salary_perm argsort view Hs) as Hp.
  split; [| split; [| split]].
  - intros size a. now apply size_salary_In.
  - apply (Permutation_NoDup (Permutation_sym (Permutation_map fst Hp))).
    rewrite groupby_Size_mean_keys.
    apply (Permutation_NoDup (Permutation_sym (sorted_perm _))).
    apply unique_from_NoDup.
  - now apply size_salary_length.
  - eexists. split; [reflexivity |].
    apply StronglySorted_rev.
    apply (StronglySorted_weaken (fun a b => (snd a <= snd b)%Qc)); [| apply Hs].
    now intros x y _ _ H.
Qed.

Lemma size_salary_has_a_point_for_each_size_witness :
  let view := preprocess three_postings in
  (forall size a,
      In (size, a) (size_salary insertion_sort_by_value view) <->
      (exists r, In r view /\ Size r = Some size)
      /\ a = mean (column Avg_Salary (group_of size view)))
  /\ NoDup (map fst (size_salary insertion_sort_by_value view))
  /\ List.length (size_salary insertion_sort_by_value view) = nunique (column Size view)
  /\ exists numbers,
       size_salary insertion_sort_by_value view
       = map (fun e : string * Qc => (fst e, Some (snd e))) numbers
         ++ nans (groupby_Size_mean view)
       /\ StronglySorted (fun x y => (snd y <= snd x)%Qc) numbers.
Proof.
  apply (size_salary_has_a_point_for_each_size insertion_sort_by_value
           (preprocess three_postings) insertion_sort_by_value_sorts).
Defined.

Lemma nunique_zero (col : list (option string)) :
  nunique col = 0%nat <-> dropna col = [].
Proof.
  unfold nunique, unique. destruct (dropna col) as [|x t]; simpl; split; congruence.
Qed.

Lemma mean_all_nan (col : list float64) :
  Forall (fun x => x = NaN) col -> mean col = NaN.
Proof.
  intros H. rewrite mean_dropna.
  assert (E : dropna col = []).
  { induction H as [|x t Hx _ IH]; [reflexivity|]. rewrite Hx. exact IH. }
  now rewrite E.
Qed.

(** X16. The warning that stands in for the line chart is shown for the empty
    view only: every record of a view has a size, so a view with a record
    gives a point to draw, also when none of its records has an average
    salary, and then every point of the chart is NaN. *)
Theorem salary_chart_is_drawn_unless_view_is_empty
    (argsort : list (string * Qc) -> list (string * Qc))
    (clean : DataFrame) (sectors sizes : list string) (m : Qc) :
  sorts_by_value argsort ->
  let view := filtered_df clean sectors sizes m in
  (salary_chart_drawn argsort view = true <-> view <> [])
  /\ (Forall (fun r => Avg_Salary r = NaN) view ->
      forall size a, In (size, a) (size_salary argsort view) -> a = NaN).
Proof.
  intros Hs view.
  pose proof (size_salary_length argsort view Hs) as Hlen.
  split.
  - unfold salary_chart_drawn. rewrite Nat.ltb_lt, Hlen.
    assert (Hz : nunique (column Size view) = 0%nat <-> view = []).
    { rewrite nunique_zero. split.
      - intros E. destruct view as [|r l] eqn:Ev; [reflexivity |]. exfalso.
        assert (Hr : In r view) by (rewrite Ev; now left).
        unfold view in Hr. apply filter_In in Hr as [_ Hr].
        apply keep_meets in Hr as (_ & (z & Hz & _) & _).
        simpl in E. rewrite Hz in E. discriminate E.
      - now intros ->. }
    split.
    + intros Hpos Hnil. apply Hz in Hnil. lia.
    + intros Hne.
      destruct (Nat.eq_dec (nunique (column Size view)) 0) as [E|E]; [| lia].
      now apply Hz in E.
  - intros Hnan size a Ha. apply (size_salary_In argsort view size a Hs) in Ha as [_ ->].
    apply mean_all_nan. unfold column, group_of.
    apply Forall_forall. intros x Hx. apply in_map_iff in Hx as (r & <- & Hr).
    apply filter_In in Hr as [Hr _].
    exact (proj1 (Forall_forall _ _) Hnan r Hr).
Qed.

Lemma salary_chart_is_drawn_unless_view_is_empty_witness :
  let view := filtered_df (preprocess three_postings) ["Finance"] ["Large"] (Qc_of_Z 3) in
  (salary_chart_drawn insertion_sort_by_value view = true <-> view <> [])
  /\ (forall size a, In (size, a) (size_salary insertion_sort_by_value view) -> a = NaN).
Proof.
  split.
  - apply (proj1 (salary_chart_is_drawn_unless_view_is_empty insertion_sort_by_value
                    (preprocess three_postings) ["Finance"] ["Large"] (Qc_of_Z 3)
                    insertion_sort_by_value_sorts)).
  - apply (proj2 (salary_chart_is_drawn_unless_view_is_empty insertion_sort_by_value
                    (preprocess three_postings) ["Finance"] ["Large"] (Qc_of_Z 3)
                    insertion_sort_by_value_sorts)).
    repeat constructor.
Defined.

(** ** What the figures of a view can be *)

Lemma Qc_of_Z_nonneg (z : Z) : (0 <= z)%Z -> (0 <= Qc_of_Z z)%Qc.
Proof.
  intros H. rewrite <- (Z2Nat.id z H). apply Qc_of_Z_nat_nonneg.
Qed.

Lemma avg_salary_nonneg (est : option string) (a : Qc) :
  avg_salary est = Some a -> (0 <= a)%Qc.
Proof.
  intros H. destruct (avg_salary_whole est) as [Hn | (n & Hn & Hs)].
  - rewrite H in Hn. discriminate Hn.
  - rewrite H in Hs. injection Hs as ->. apply Qc_of_Z_nonneg. lia.
Qed.

Lemma preprocess_avg_salary (df : list RawRow) (r : Row) :
  In r (preprocess df) -> Avg_Salary r = avg_salary (Salary_Estimate r).
Proof.
  unfold preprocess. intros H. apply in_map_iff in H as (raw & <- & _). reflexivity.
Qed.

Lemma avg_salaries_nonneg (df : list RawRow) (l : DataFrame) :
  incl l (preprocess df) ->
  Forall (fun x => (0 <= x)%Qc) (dropna (column Avg_Salary l)).
Proof.
  intros Hincl. apply Forall_forall. intros a Ha.
  apply dropna_In in Ha. unfold column in Ha. apply in_map_iff in Ha as (r & Hr & Hin).
  apply Hincl, preprocess_avg_salary in Hin. rewrite Hin in Hr.
  now apply (avg_salary_nonneg (Salary_Estimate r)).
Qed.

Lemma preprocess_salary_max (df : list RawRow) (r : Row) :
  In r (preprocess df) -> Salary_Max r = salary_max (Salary_Estimate r).
Proof.
  unfold preprocess. intros H. apply in_map_iff in H as (raw & <- & _). reflexivity.
Qed.

Lemma dropna_nil {A : Type} (col : list (option A)) :
  dropna col = [] <-> Forall (fun x => x = None) col.
Proof.
  induction col as [|[a|] col IH]; simpl.
  - split; [constructor | reflexivity].
  - split; [discriminate |]. intros H. inversion H; subst. discriminate.
  - rewrite IH. split; [now constructor |]. intros H. now inversion H.
Qed.

(** X18. No average salary shown is negative: the mean of the view and the
    mean of every company size are NaN or at least zero; and the mean of
    the view is NaN exactly when no record of the view has the range
    [$<a>K-$<b>K] in its salary estimate. *)
Theorem average_salaries_shown_are_not_negative
    (argsort : list (string * Qc) -> list (string * Qc))
    (df : list RawRow) (sectors sizes : list string) (m : Qc) :
  sorts_by_value argsort ->
  let view := filtered_df (df_clean df) sectors sizes m in
  (mean_avg_salary (summary_metrics view) = NaN \/
   exists a, mean_avg_salary (summary_metrics view) = Some a /\ (0 <= a)%Qc)
  /\ (forall size a, In (size, Some a) (size_salary argsort view) -> (0 <= a)%Qc)
  /\ (mean_avg_salary (summary_metrics view) = NaN <->
      Forall (fun r => Salary_Max r = NaN) view).
Proof.
  intros Hs view.
  assert (Hview : incl view (preprocess df)).
  { intros r Hr. apply filter_In in Hr as [Hr _]. now apply filter_In in Hr as [Hr _]. }
  split; [| split].
  - cbn [summary_metrics mean_avg_salary]. apply mean_lower.
    now apply (avg_salaries_nonneg df).
  - intros size a Ha. apply (size_salary_In argsort view size _ Hs) in Ha as [_ Ha].
    destruct (mean_lower 0%Qc (column Avg_Salary (group_of size view)))
      as [H | (b & Hb & Hle)].
    + apply (avg_salaries_nonneg df). intros r Hr. apply Hview.
      now apply filter_In in Hr as [Hr _].
    + rewrite H in Ha. discriminate Ha.
    + rewrite Hb in Ha. now injection Ha as ->.
  - cbn [summary_metrics mean_avg_salary]. rewrite mean_dropna.
    assert (Hnil : dropna (column Avg_Salary view) = [] <->
                   Forall (fun r => Salary_Max r = NaN) view).
    { rewrite dropna_nil. unfold column. rewrite Forall_map.
      split; intros H; apply Forall_forall; intros r Hr;
        pose proof (proj1 (Forall_forall _ _) H r Hr) as Hr'; cbv beta in Hr';
        pose proof (preprocess_avg_salary df r (Hview r Hr)) as Ea;
        pose proof (preprocess_salary_max df r (Hview r Hr)) as Em.
      - rewrite Em. apply avg_salary_nan_iff_salary_max. now rewrite <- Ea.
      - rewrite Ea. apply avg_salary_nan_iff_salary_max. now rewrite <- Em. }
    destruct (dropna (column Avg_Salary view)) as [|x t] eqn:E.
    + split; [intros _; now apply Hnil | reflexivity].
    + split; [discriminate |]. intros H. apply Hnil in H. discriminate H.
Qed.

Lemma average_salaries_shown_are_not_negative_witness :
  let view := filtered_df (df_clean three_postings)
                ["Tech"; "Finance"] ["Large"; "Small"] (Qc_of_Z 2) in
  (mean_avg_salary (summary_metrics view) = NaN \/
   exists a, mean_avg_salary (summary_metrics view) = Some a /\ (0 <= a)%Qc)
  /\ (forall size a,
         In (size, Some a) (size_salary insertion_sort_by_value view) -> (0 <= a)%Qc)
  /\ (mean_avg_salary (summary_metrics view) = NaN <->
      Forall (fun r => Salary_Max r = NaN) view).
Proof.
  apply (average_salaries_shown_are_not_negative insertion_sort_by_value
           three_postings ["Tech"; "Finance"] ["Large"; "Small"] (Qc_of_Z 2)
           insertion_sort_by_value_sorts).
Defined.

Lemma filter_length_all {A : Type} (p : A -> bool) (l : list A) :
  List.length (filter p l) = List.length l <-> Forall (fun a => p a = true) l.
Proof.
  induction l as [|a l IH]; simpl.
  - split; [constructor | reflexivity].
  - pose proof (filter_length_le p l) as Hle. destruct (p a) eqn:E; simpl.
    + split.
      * intros H. constructor; [exact E | apply IH; lia].
      * intros H. inversion H; subst. f_equal. now apply IH.
    + split; [lia |]. intros H. inversion H; subst. congruence.
Qed.

Lemma filter_keeps_all {A : Type} (p : A -> bool) (l : list A) :
  (forall a, In a l -> p a = true) -> filter p l = l.
Proof.
  induction l as [|a l IH]; intros H; simpl; [reflexivity|].
  rewrite (H a (or_introl eq_refl)). f_equal. apply IH. intros b Hb. apply H. now right.
Qed.

(** X19. The number of jobs shown never exceeds the number of records of the
    dataset, which counts the rows that the cleaning drops as well; the
    two are equal only when every row of the source has its job title,
    sector and rating and passes the filter. *)
Theorem jobs_shown_never_exceed_total_records
    (df : list RawRow) (sectors sizes : list string) (m : Qc) :
  let view := filtered_df (df_clean df) sectors sizes m in
  (List.length view <= List.length (df_clean df))%nat
  /\ (List.length (df_clean df) <= List.length df)%nat
  /\ (List.length view = List.length df <->
      Forall (fun raw => misses_critical raw = false
                         /\ meets sectors sizes m (add_salary_columns raw)) df).
Proof.
  intros view.
  assert (H1 : (List.length view <= List.length (df_clean df))%nat)
    by apply filter_length_le.
  assert (H2 : (List.length (df_clean df) <= List.length df)%nat).
  { unfold df_clean, dropna_critical, preprocess.
    rewrite <- (length_map add_salary_columns df). apply filter_length_le. }
  split; [exact H1 |]. split; [exact H2 |].
  assert (Hclean : List.length (df_clean df) = List.length df <->
                   Forall (fun raw => misses_critical raw = false) df).
  { unfold df_clean, dropna_critical, preprocess.
    rewrite <- (length_map add_salary_columns df).
    rewrite filter_length_all, Forall_map.
    split; intros H; (eapply Forall_impl; [| exact H]); intros raw; cbv beta;
      rewrite has_critical_raw; destruct (misses_critical raw); simpl; congruence. }
  split.
  - intros Heq. assert (E1 : List.length (df_clean df) = List.length df) by lia.
    assert (E2 : List.length view = List.length (df_clean df)) by lia.
    pose proof (proj1 Hclean E1) as Hc.
    apply filter_length_all in E2.
    assert (Hall : df_clean df = preprocess df).
    { unfold df_clean, dropna_critical. apply filter_keeps_all.
      intros r Hr. unfold preprocess in Hr. apply in_map_iff in Hr as (raw & <- & Hin).
      rewrite has_critical_raw. now rewrite (proj1 (Forall_forall _ _) Hc raw Hin). }
    rewrite Hall in E2. unfold preprocess in E2. rewrite Forall_map in E2.
    apply Forall_forall. intros raw Hin. split.
    + exact (proj1 (Forall_forall _ _) Hc raw Hin).
    + apply keep_meets. exact (proj1 (Forall_forall _ _) E2 raw Hin).
  - intros Hall.
    assert (Hc : Forall (fun raw => misses_critical raw = false) df)
      by (eapply Forall_impl; [| exact Hall]; now intros raw [H _]).
    pose proof (proj2 Hclean Hc) as E1. rewrite <- E1.
    apply filter_length_all. apply Forall_forall. intros r Hr.
    apply filter_In in Hr as [Hr _]. unfold preprocess in Hr.
    apply in_map_iff in Hr as (raw & <- & Hin). apply keep_meets.
    exact (proj2 (proj1 (Forall_forall _ _) Hall raw Hin)).
Qed.
